(** * RRR compressed bitmaps (ext/c/stupidedi/reader/rrr.c)

    A shallow embedding of the RRR engine of stupidedi's native reader:
    the binomial table, the block codec, construction from a plain bit
    vector and the queries [rrr_access], [rrr_rank0], [rrr_rank1] and
    [rrr_select1].

    Machine integers are modelled as [Z] with the wrap-around written out.
    A C function that can stop on an [assert], divide by zero or read an
    uninitialised variable returns a [res]; the result of a shift by the
    width of the type or more is taken from the [Platform]. *)

From Stdlib Require Import ZArith List Bool Lia.
Import ListNotations.
Local Open Scope Z_scope.

(** ** Results of fallible code *)

Inductive res (A : Type) : Type :=
| Ok (a : A)   (* the function returned [a] *)
| Abort        (* an [assert] failed *)
| Undef        (* undefined behaviour: division by zero, read of an
                  uninitialised variable, [__builtin_ctzll(0)] *)
| Fuel.        (* the model's bound on a loop ran out before the loop ended *)

Arguments Ok {A} a.
Arguments Abort {A}.
Arguments Undef {A}.
Arguments Fuel {A}.

Definition bind {A B : Type} (m : res A) (k : A -> res B) : res B :=
  match m with
  | Ok a => k a
  | Abort => Abort
  | Undef => Undef
  | Fuel => Fuel
  end.

Notation "x <- m ;; k" := (bind m (fun x => k))
  (at level 61, m at next level, right associativity).
Notation "' p <- m ;; k" := (bind m (fun x => let p := x in k))
  (at level 61, p pattern, m at next level, right associativity).

(** [assert(b)] *)
Definition assert (b : bool) : res unit := if b then Ok tt else Abort.

(** ** Shifts the C standard leaves undefined

    [1ULL << k] with [k >= 64], and [1 << k] on [int] with [k >= 31], have
    no defined result in C: the program computes what the shift of the
    machine computes.  The model takes these results from the platform,
    and the properties proved below hold for every platform. *)

Class Platform : Type := {
  (** [1ULL << k] for [k >= 64] *)
  shl64_overflow : Z -> Z;
  (** [1 << k] on [int], converted to [uint64_t], for [k >= 31] *)
  shl_int_overflow : Z -> Z
}.

(** x86-64 and AArch64: a shift takes its count modulo the width of the
    operand; [1 << 31] is [INT_MIN], which converts to [2^64 - 2^31]. *)
Definition x86_64 : Platform :=
  {| shl64_overflow := fun k => Z.shiftl 1 (k mod 64);
     shl_int_overflow := fun k =>
       if k mod 32 =? 31 then 2 ^ 64 - 2 ^ 31 else Z.shiftl 1 (k mod 32) |}.

(** ** 64-bit words *)

Module Word.

Definition wrap64 (x : Z) : Z := x mod 2 ^ 64.
Definition wrap32 (x : Z) : Z := x mod 2 ^ 32.

(** Conversion of a [uint64_t] to [int64_t]. *)
Definition signed64 (x : Z) : Z :=
  if x <? 2 ^ 63 then x else x - 2 ^ 64.

(** [1ULL << k] *)
Definition shl64 {pf : Platform} (k : Z) : Z :=
  if k <? 64 then wrap64 (Z.shiftl 1 k) else wrap64 (shl64_overflow k).

(** [1 << k] on [int], converted to [uint64_t] *)
Definition shl_int1 {pf : Platform} (k : Z) : Z :=
  if k <? 31 then Z.shiftl 1 k else wrap64 (shl_int_overflow k).

(** [popcount], the portable branch ([__builtin_popcountll] in the other
    one computes the same count, see [popcount_bitcount]). *)
Definition popcount (x : Z) : Z :=
  let v := wrap64 (x - Z.shiftr (Z.land x 0xaaaaaaaaaaaaaaaa) 1) in
  let v := wrap64 (Z.land v 0x3333333333333333
                   + Z.land (Z.shiftr v 2) 0x3333333333333333) in
  let v := Z.land (wrap64 (v + Z.shiftr v 4)) 0x0f0f0f0f0f0f0f0f in
  Z.shiftr (wrap64 (v * 0x0101010101010101)) 56.

(** [clz] is [__builtin_clzll], which is undefined at 0; the model answers
    64 there.  Its callers never pass 0: [nbits] passes [x - 1] with
    [x >= 2] and [rrr_encode_block] tests [value == 0] first. *)
Definition clz (x : Z) : Z :=
  if x =? 0 then 64 else 63 - Z.log2 x.

(** Number of 1-bits among the bits [0 .. n) of [x]. *)
Fixpoint bitcount (n : nat) (x : Z) : Z :=
  match n with
  | O => 0
  | S n' => bitcount n' x + Z.b2z (Z.testbit x (Z.of_nat n'))
  end.

(** Index of the lowest bit set among the bits [0 .. n) of [x], counted
    from [k]; [k + n] when there is none. *)
Fixpoint lowest_set (n : nat) (k x : Z) : Z :=
  match n with
  | O => k
  | S n' => if Z.testbit x k then k else lowest_set n' (k + 1) x
  end.

(** [ctz] is [__builtin_ctzll], undefined at 0 (64 in the model; the one
    caller, [rrr_select1], is modelled with the test written out). *)
Definition ctz (x : Z) : Z := lowest_set 64 0 x.

(** Minimum number of bits needed to represent [x] values. *)
Definition nbits (x : Z) : Z :=
  if x <? 2 then 0 else 64 - clz (x - 1).

End Word.

Import Word.

(** ** The binomial table *)

Module Binomial.

Definition MAX_BLOCK_NBITS : Z := 64.

(** The entries [k = 1 .. n-1] of row [n], from row [n - 1], followed by
    [binomial[n][n] = 1]. *)
Fixpoint fill_row (prev : list Z) : list Z :=
  match prev with
  | a :: (b :: _) as rest => wrap64 (a + b) :: fill_row rest
  | _ => [1]
  end.

(** Row [n] from row [n - 1]: [binomial[n][0] = 1] first. *)
Definition next_row (prev : list Z) : list Z := 1 :: fill_row prev.

(** Rows [n, n+1, ..] ([count] of them) given row [n]. *)
Fixpoint rows_from (count : nat) (row : list Z) : list (list Z) :=
  match count with
  | O => []
  | S c => row :: rows_from c (next_row row)
  end.

(** [rrr_precompute_binomials]: rows [0 .. MAX_BLOCK_NBITS]. *)
Definition rrr_precompute_binomials : list (list Z) :=
  rows_from (Z.to_nat (MAX_BLOCK_NBITS + 1)) [1].

(** The global [binomial], once initialised: [rrr_alloc] fills it before
    anything else, so the [assert(binomial != NULL)] of the codec hold. *)
Definition table : list (list Z) :=
  Eval vm_compute in rrr_precompute_binomials.

(** [binomial[n][k]].  Every read in the code has [k <= n <= 64]. *)
Definition binomial (n k : Z) : Z :=
  nth (Z.to_nat k) (nth (Z.to_nat n) table []) 0.

Definition offset_nbits (block_nbits class : Z) : Z :=
  nbits (binomial block_nbits class).

(** The mathematical binomial coefficient, for reference. *)
Fixpoint choose (n k : nat) : Z :=
  match n, k with
  | _, O => 1
  | O, S _ => 0
  | S n', S k' => choose n' k' + choose n' k
  end.

End Binomial.

Import Binomial.

(** ** The block codec *)

Module Codec.

(** The loop of [rrr_encode_block]:
    [for (; class > 0 && n >= class; n --)]. *)
Fixpoint encode_loop (n : nat) (class value offset : Z) : Z :=
  match n with
  | O => offset
  | S n' =>
      if (0 <? class) && (class <=? Z.of_nat n) then
        if negb (Z.land value (Z.shiftl 1 (Z.of_nat n)) =? 0) then
          encode_loop n' (class - 1) value
            (wrap64 (offset + binomial (Z.of_nat n) class))
        else encode_loop n' class value offset
      else offset
  end.

Definition rrr_encode_block (block_nbits class value : Z) : res Z :=
  _ <- assert (0 <? block_nbits) ;;
  _ <- assert (class <=? block_nbits) ;;
  _ <- assert (class =? popcount value) ;;
  if (class =? 0) || (class =? block_nbits) then Ok 0
  else
    let n := if value =? 0 then 0 else 63 - clz value in
    Ok (encode_loop (Z.to_nat n) class value 0).

(** The loop of [rrr_decode_block]: [for (; class <= n && n > 0; n --)];
    returns the final [class] and [value]. *)
Fixpoint decode_loop (n : nat) (class offset value : Z) : Z * Z :=
  match n with
  | O => (class, value)
  | S n' =>
      if class <=? Z.of_nat n then
        let before := binomial (Z.of_nat n) class in
        if before <=? offset then
          decode_loop n' (wrap64 (class - 1)) (offset - before)
            (Z.lor value (Z.shiftl 1 (Z.of_nat n)))
        else decode_loop n' class offset value
      else (class, value)
  end.

Definition rrr_decode_block {pf : Platform} (block_nbits class offset : Z)
  : res Z :=
  _ <- assert (0 <? block_nbits) ;;
  _ <- assert (class <=? block_nbits) ;;
  _ <- assert (offset <? binomial block_nbits class) ;;
  let '(class', value) :=
    decode_loop (Z.to_nat (block_nbits - 1)) class offset 0 in
  if 0 <? class' then Ok (Z.lor value (wrap64 (shl64 class' - 1)))
  else Ok value.

End Codec.

Import Codec.

(** ** The packed bit vector *)

Module BitVector.

(** Modelled from the spec: bit_vector.h and bit_vector.c are not among the
    sources.  A vector is its length in bits, its record width and its
    bits, bit [i] of the vector being bit [i] of [data]; a read returns the
    bit at the offset as bit 0 of the result (the engine takes bit [i] of a
    block for the [i]-th bit of the block), bits past the end read as 0
    (the final block is padded with zeros), and a fresh vector holds
    zeros. *)
Record bit_vector_t : Type := {
  size : Z;
  record_nbits : Z;
  data : Z
}.

(** Modelled from the spec: allocation with a given bit length. *)
Definition bit_vector_alloc (nbits : Z) : bit_vector_t :=
  {| size := nbits; record_nbits := 1; data := 0 |}.

(** Modelled from the spec: allocation in record mode, [count] records of
    [nbits] bits. *)
Definition bit_vector_alloc_record (nbits count : Z) : bit_vector_t :=
  {| size := wrap64 (nbits * count); record_nbits := nbits; data := 0 |}.

(** Modelled from the spec: the [width] bits at bit offset [i], the first
    of them as bit 0 of the result. *)
Definition bit_vector_read (v : bit_vector_t) (i width : Z) : Z :=
  if i <? size v then Z.land (Z.shiftr (data v) i) (Z.ones width) else 0.

(** Modelled from the spec: writes the low [width] bits of [value] at bit
    offset [i]; returns the vector and the offset past the field. *)
Definition bit_vector_write (v : bit_vector_t) (i width value : Z)
  : bit_vector_t * Z :=
  let cleared := Z.ldiff (data v) (Z.shiftl (Z.ones width) i) in
  let field := Z.shiftl (Z.land value (Z.ones width)) i in
  ({| size := size v; record_nbits := record_nbits v;
      data := Z.land (Z.lor cleared field) (Z.ones (size v)) |},
   wrap64 (i + width)).

(** Modelled from the spec: record [k], of the configured width. *)
Definition bit_vector_read_record (v : bit_vector_t) (k : Z) : Z :=
  bit_vector_read v (wrap64 (k * record_nbits v)) (record_nbits v).

(** Modelled from the spec: writes record [k]; returns the vector and the
    index of the next record ([rrr_alloc] appends the classes by passing
    the result back as the index). *)
Definition bit_vector_write_record (v : bit_vector_t) (k value : Z)
  : bit_vector_t * Z :=
  (fst (bit_vector_write v (wrap64 (k * record_nbits v)) (record_nbits v)
          value),
   wrap64 (k + 1)).

(** Modelled from the spec: truncation to [nbits] bits. *)
Definition bit_vector_resize (v : bit_vector_t) (nbits : Z) : bit_vector_t :=
  {| size := nbits; record_nbits := record_nbits v;
     data := Z.land (data v) (Z.ones nbits) |}.

(** [bits->record_nbits = w] *)
Definition set_record_nbits (v : bit_vector_t) (w : Z) : bit_vector_t :=
  {| size := size v; record_nbits := w; data := data v |}.

(** Bit [i] of the vector. *)
Definition bit (v : bit_vector_t) (i : Z) : bool := Z.testbit (data v) i.

(** Number of 1-bits in the positions [0 .. i). *)
Definition rank1 (v : bit_vector_t) (i : Z) : Z :=
  bitcount (Z.to_nat i) (data v).

(** A vector of the collaborator: its bits past [size] are not set. *)
Definition wf (v : bit_vector_t) : Prop :=
  0 <= size v /\ 0 <= data v < 2 ^ size v.

(** The vector holding the bits [bs], first bit first. *)
Fixpoint bits_to_Z (bs : list bool) : Z :=
  match bs with
  | [] => 0
  | b :: bs' => Z.b2z b + 2 * bits_to_Z bs'
  end.

Definition of_bits (bs : list bool) : bit_vector_t :=
  {| size := Z.of_nat (length bs); record_nbits := 1; data := bits_to_Z bs |}.

End BitVector.

Import BitVector.

(** ** The RRR bitmap *)

Module Rrr.

Section WithPlatform.

Context {pf : Platform}.

(** Modelled from the spec: rrr.h is not among the sources.  The fields are
    those the code uses; the integer ones are taken wide enough for the
    values stored in them. *)
Record rrr_t : Type := {
  size : Z;
  rank : Z;
  nblocks : Z;
  nmarkers : Z;
  block_nbits : Z;
  marker_nbits : Z;
  classes : bit_vector_t;
  offsets : bit_vector_t;
  marked_ranks : bit_vector_t;
  marked_offsets : bit_vector_t
}.

(** *** Construction *)

(** The variables the loop of [rrr_alloc] updates. *)
Record alloc_state : Type := {
  a_rank : Z;
  a_class_at : Z;
  a_offset_at : Z;
  a_marker_at : Z;
  a_marker_need : Z;
  a_classes : bit_vector_t;
  a_offsets : bit_vector_t;
  a_marked_ranks : bit_vector_t;
  a_marked_offsets : bit_vector_t
}.

(** The body of the loop of [rrr_alloc], for block [k]. *)
Definition alloc_step (bits : bit_vector_t) (block_nbits marker_nbits : Z)
  (k : Z) (st : alloc_state) : res alloc_state :=
  let block := bit_vector_read_record bits k in
  let class := popcount block in
  offset <- rrr_encode_block block_nbits class block ;;
  let '(classes, class_at) :=
    bit_vector_write_record (a_classes st) (a_class_at st) class in
  let '(offsets, offset_at) :=
    bit_vector_write (a_offsets st) (a_offset_at st)
      (offset_nbits block_nbits class) offset in
  let marker_extra := signed64 (wrap64 (block_nbits - a_marker_need st)) in
  if 0 <=? marker_extra then
    let want := wrap64 (block_nbits - marker_extra) in
    let prefix :=
      if 64 <=? want then block
      else Z.land block (wrap64 (shl64 want - 1)) in
    let marked_offsets :=
      fst (bit_vector_write_record (a_marked_offsets st) (a_marker_at st)
             offset_at) in
    let marked_ranks :=
      fst (bit_vector_write_record (a_marked_ranks st) (a_marker_at st)
             (wrap64 (a_rank st + popcount prefix))) in
    Ok {| a_rank := a_rank st + class;
          a_class_at := class_at;
          a_offset_at := offset_at;
          a_marker_at := wrap64 (a_marker_at st + 1);
          a_marker_need := wrap64 (marker_nbits - marker_extra);
          a_classes := classes;
          a_offsets := offsets;
          a_marked_ranks := marked_ranks;
          a_marked_offsets := marked_offsets |}
  else
    Ok {| a_rank := a_rank st + class;
          a_class_at := class_at;
          a_offset_at := offset_at;
          a_marker_at := a_marker_at st;
          a_marker_need := wrap64 (a_marker_need st - block_nbits);
          a_classes := classes;
          a_offsets := offsets;
          a_marked_ranks := a_marked_ranks st;
          a_marked_offsets := a_marked_offsets st |}.

(** [for (k = ..; k < rrr->nblocks; k ++)], with [todo] blocks left. *)
Fixpoint alloc_loop (bits : bit_vector_t) (block_nbits marker_nbits : Z)
  (todo : nat) (k : Z) (st : alloc_state) : res alloc_state :=
  match todo with
  | O => Ok st
  | S todo' =>
      st' <- alloc_step bits block_nbits marker_nbits k st ;;
      alloc_loop bits block_nbits marker_nbits todo' (k + 1) st'
  end.

(** [rrr_alloc]; returns the input vector as the call leaves it and the
    instance. *)
Definition rrr_alloc (bits : bit_vector_t) (block_nbits marker_nbits : Z)
  : res (bit_vector_t * rrr_t) :=
  _ <- assert (0 <? BitVector.size bits) ;;
  _ <- assert (block_nbits <=? MAX_BLOCK_NBITS) ;;
  _ <- assert (block_nbits <=? marker_nbits) ;;
  if block_nbits =? 0 then Undef
  else
    let size := BitVector.size bits in
    let nblocks := (size + block_nbits - 1) / block_nbits in
    let nmarkers := (size + marker_nbits - 1) / marker_nbits in
    let offset_nbits_max := offset_nbits block_nbits (block_nbits / 2) in
    let classes := bit_vector_alloc_record (nbits (block_nbits + 1)) nblocks in
    let offsets := bit_vector_alloc (wrap64 (nblocks * offset_nbits_max)) in
    let marked_ranks := bit_vector_alloc_record (nbits (size + 1)) nmarkers in
    let marked_offsets :=
      bit_vector_alloc_record (nbits (BitVector.size offsets)) nmarkers in
    let orig_record_nbits := record_nbits bits in
    let bits1 := set_record_nbits bits block_nbits in
    st <- alloc_loop bits1 block_nbits marker_nbits (Z.to_nat nblocks) 0
            {| a_rank := 0; a_class_at := 0; a_offset_at := 0;
               a_marker_at := 0; a_marker_need := marker_nbits;
               a_classes := classes; a_offsets := offsets;
               a_marked_ranks := marked_ranks;
               a_marked_offsets := marked_offsets |} ;;
    let bits2 := set_record_nbits bits1 orig_record_nbits in
    Ok (bits2,
        {| size := size; rank := a_rank st;
           nblocks := nblocks; nmarkers := nmarkers;
           block_nbits := block_nbits; marker_nbits := marker_nbits;
           classes := a_classes st;
           offsets := bit_vector_resize (a_offsets st) (a_offset_at st);
           marked_ranks := a_marked_ranks st;
           marked_offsets := a_marked_offsets st |}).

(** *** Queries *)

(** Where a query starts scanning: [marker_at = i / marker_nbits], then the
    block, the offset position and the rank recorded for that marker. *)
Definition start_at (rrr : rrr_t) (i : Z) : res (Z * Z * Z) :=
  if marker_nbits rrr =? 0 then Undef
  else
    let marker_at := i / marker_nbits rrr in
    if marker_at <=? 0 then Ok (0, 0, 0)
    else if block_nbits rrr =? 0 then Undef
    else
      Ok (wrap64 (marker_at * marker_nbits rrr) / block_nbits rrr,
          bit_vector_read_record (marked_offsets rrr) (marker_at - 1),
          bit_vector_read_record (marked_ranks rrr) (marker_at - 1)).

(** [for (..; i >= rrr->block_nbits; i -= rrr->block_nbits)], shared by
    [rrr_access] (which ignores the rank) and [rrr_rank1]; returns
    [i], [class_at], [offset_at] and [rank]. *)
Fixpoint scan_blocks (fuel : nat) (rrr : rrr_t) (i class_at offset_at rank : Z)
  : res (Z * Z * Z * Z) :=
  if block_nbits rrr <=? i then
    match fuel with
    | O => Fuel
    | S fuel' =>
        let class := bit_vector_read_record (classes rrr) class_at in
        let width := offset_nbits (block_nbits rrr) class in
        scan_blocks fuel' rrr (wrap64 (i - block_nbits rrr))
          (wrap64 (class_at + 1)) (wrap64 (offset_at + width))
          (wrap64 (rank + class))
    end
  else Ok (i, class_at, offset_at, rank).

(** Reads and decodes the block at [class_at], whose offset is at
    [offset_at]. *)
Definition block_at (rrr : rrr_t) (class_at offset_at : Z) : res Z :=
  let class := bit_vector_read_record (classes rrr) class_at in
  let width := offset_nbits (block_nbits rrr) class in
  let offset := bit_vector_read (offsets rrr) offset_at width in
  rrr_decode_block (block_nbits rrr) class offset.

Definition rrr_access (rrr : rrr_t) (i : Z) : res Z :=
  _ <- assert (i <? size rrr) ;;
  '(class_at, offset_at, _) <- start_at rrr i ;;
  '(i, class_at, offset_at, _) <-
    scan_blocks (Z.to_nat i) rrr
      (wrap64 (i - wrap64 (class_at * block_nbits rrr)))
      class_at offset_at 0 ;;
  block <- block_at rrr class_at offset_at ;;
  Ok (Z.shiftr (Z.land block (shl_int1 i)) i mod 2 ^ 8).

Definition rrr_rank1 (rrr : rrr_t) (i : Z) : res Z :=
  if size rrr <=? i then Ok (wrap32 (rank rrr))
  else
    '(class_at, offset_at, rank) <- start_at rrr i ;;
    '(i, class_at, offset_at, rank) <-
      scan_blocks (Z.to_nat i) rrr
        (wrap64 (i - wrap64 (class_at * block_nbits rrr)))
        class_at offset_at rank ;;
    block <- block_at rrr class_at offset_at ;;
    let mask := wrap64 (shl64 i - 1) in
    Ok (wrap32 (wrap64 (rank + popcount (Z.land block mask)))).

Definition rrr_rank0 (rrr : rrr_t) (i : Z) : res Z :=
  r <- rrr_rank1 rrr i ;;
  Ok (wrap32 (wrap64 (i - r))).

(** The binary search of [rrr_find_marker]:
    [for (..; k = lo + (hi - lo) / 2, lo <= hi; )].  [rank] is [None] until
    the loop assigns it.  Returns [k], [_k] and [rank] as the loop leaves
    them. *)
Fixpoint find_marker_loop (fuel : nat) (rrr : rrr_t) (j lo hi _k : Z)
  (rank : option Z) : res (Z * Z * option Z) :=
  let k := wrap64 (lo + wrap64 (hi - lo) / 2) in
  if lo <=? hi then
    match fuel with
    | O => Fuel
    | S fuel' =>
        let rank := bit_vector_read_record (marked_ranks rrr) k in
        if rank <? j then
          find_marker_loop fuel' rrr j (wrap64 (k + 1)) hi k (Some rank)
        else if j <? rank then
          find_marker_loop fuel' rrr j lo (wrap64 (k - 1)) _k (Some rank)
        else Ok (k, _k, Some rank)
    end
  else Ok (k, _k, rank).

Definition rrr_find_marker (rrr : rrr_t) (j : Z) : res Z :=
  _ <- assert (j <=? rank rrr) ;;
  if (size rrr <=? marker_nbits rrr)
     || (j <? bit_vector_read_record (marked_ranks rrr) 0) then Ok 0
  else
    '(k, _k, rank) <-
      find_marker_loop 130 rrr j 0 (wrap64 (nmarkers rrr - 1))
        (wrap64 (-1)) None ;;
    match rank with
    | None => Undef
    | Some rank =>
        let k := if j <=? rank then _k else k in
        Ok (wrap64 (k + 1))
    end.

(** [for (; class_at < rrr->nblocks; class_at ++)] of [rrr_select1];
    [cw] holds [class] and [width], [None] until the loop assigns them. *)
Fixpoint select_scan (fuel : nat) (rrr : rrr_t) (j class_at rank offset_at : Z)
  (cw : option (Z * Z)) : res (Z * Z * Z * option (Z * Z)) :=
  if class_at <? nblocks rrr then
    match fuel with
    | O => Fuel
    | S fuel' =>
        let class := bit_vector_read_record (classes rrr) class_at in
        let width := offset_nbits (block_nbits rrr) class in
        if j <=? wrap64 (rank + class) then
          Ok (class_at, rank, offset_at, Some (class, width))
        else
          select_scan fuel' rrr j (wrap64 (class_at + 1))
            (wrap64 (rank + class)) (wrap64 (offset_at + width))
            (Some (class, width))
    end
  else Ok (class_at, rank, offset_at, cw).

(** [for (i = -1; rank < j; rank ++)] of [rrr_select1]: clears the lowest
    set bit of [block] each time. *)
Fixpoint select_bit (fuel : nat) (j rank i block : Z) : res Z :=
  if rank <? j then
    match fuel with
    | O => Fuel
    | S fuel' =>
        if block =? 0 then Undef
        else
          let i := ctz block in
          select_bit fuel' j (wrap64 (rank + 1)) i
            (Z.land block (wrap64 (Z.lnot (shl64 i))))
    end
  else Ok i.

Definition rrr_select1 (rrr : rrr_t) (j : Z) : res Z :=
  if rank rrr <? j then Ok 0
  else
    marker_at <- rrr_find_marker rrr j ;;
    if block_nbits rrr =? 0 then Undef
    else
      let class_at :=
        wrap64 (marker_at * marker_nbits rrr) / block_nbits rrr in
      let '(offset_at, rank) :=
        if marker_at <=? 0 then (0, 0)
        else (bit_vector_read_record (marked_offsets rrr) (marker_at - 1),
              bit_vector_read_record (marked_ranks rrr) (marker_at - 1)) in
      '(class_at, rank, offset_at, cw) <-
        select_scan (Z.to_nat (nblocks rrr - class_at)) rrr j class_at rank
          offset_at None ;;
      match cw with
      | None => Undef
      | Some (class, width) =>
          let offset := bit_vector_read (offsets rrr) offset_at width in
          block <- rrr_decode_block (block_nbits rrr) class offset ;;
          _ <- assert (wrap64 (j - rank) <=? popcount block) ;;
          i <- select_bit (Z.to_nat (j - rank)) j rank (-1) block ;;
          Ok (wrap32 (wrap64 (1 + i + class_at * block_nbits rrr)))
      end.

End WithPlatform.

End Rrr.

Import Rrr.

(** * Definitions for the specification *)

(** The inputs [rrr_alloc] is specified for: a bit vector of the
    collaborator, of a length that fits the 32-bit results of the queries,
    a block width [u] and a marker period [s] of type [uint8_t]. *)
Definition valid_input (bits : bit_vector_t) (u s : Z) : Prop :=
  wf bits /\ 0 < BitVector.size bits < 2 ^ 32
  /\ 1 <= u <= 64 /\ u <= s <= 255.

(** The source vector of scenario S1, [0b11010010] with bit 0 written
    first. *)
Definition S1_bits : bit_vector_t :=
  of_bits [true; true; false; true; false; false; true; false].

(** [110 110 110] *)
Definition B9_bits : bit_vector_t :=
  of_bits [true; true; false; true; true; false; true; true; false].

(** Sixty-four 1-bits. *)
Definition ones64_bits : bit_vector_t := of_bits (repeat true 64).

(** The instance of scenario S1: [rrr_alloc] on [S1_bits] with [u = 3] and
    [s = 3]. *)
Definition S1_rrr : rrr_t :=
  {| size := 8; rank := 4; nblocks := 3; nmarkers := 3;
     block_nbits := 3; marker_nbits := 3;
     classes := {| BitVector.size := 6; record_nbits := 2; data := 22 |};
     offsets := {| BitVector.size := 6; record_nbits := 1; data := 0 |};
     marked_ranks :=
       {| BitVector.size := 12; record_nbits := 4; data := 1074 |};
     marked_offsets :=
       {| BitVector.size := 9; record_nbits := 3; data := 418 |} |}.

(** A record vector of [count] records of [w] bits. *)
Definition records (v : bit_vector_t) (w count : Z) : Prop :=
  wf v /\ record_nbits v = w /\ BitVector.size v = w * count.


(** ** The source vector seen block by block *)

Module Source.

Section Source.

Variable bits : bit_vector_t.
Variables u s : Z.

Local Abbreviation n := (BitVector.size bits).
Local Abbreviation nblocks := ((n + u - 1) / u).
Local Abbreviation nmarkers := ((n + s - 1) / s).
Local Abbreviation wmax := (offset_nbits u (u / 2)).

(** The blocks of the source, their classes, offsets and offset widths. *)
Definition block (k : Z) : Z := bit_vector_read_record (set_record_nbits bits u) k.
Definition class_of (k : Z) : Z := popcount (block k).
Definition width_of (k : Z) : Z := offset_nbits u (class_of k).
Definition enc_of (k : Z) : Z :=
  encode_loop (Z.to_nat (u - 1)) (class_of k) (block k) 0.

(** Where the offset of block [k] starts in the offsets stream. *)
Fixpoint pos_nat (k : nat) : Z :=
  match k with
  | O => 0
  | S k' => pos_nat k' + width_of (Z.of_nat k')
  end.

Definition pos (k : Z) : Z := pos_nat (Z.to_nat k).

(** *** The loop invariant of [rrr_alloc] *)

Record inv (k : Z) (st : alloc_state) : Prop := {
  inv_class_at : a_class_at st = k;
  inv_offset_at : a_offset_at st = pos k;
  inv_rank : a_rank st = rank1 bits (k * u);
  inv_marker_at : 0 <= a_marker_at st;
  inv_marker : (a_marker_at st + 1) * s = k * u + a_marker_need st;
  inv_need : 1 <= a_marker_need st <= s;
  inv_classes_v : records (a_classes st) (nbits (u + 1)) nblocks;
  inv_offsets_wf : wf (a_offsets st);
  inv_offsets_size : BitVector.size (a_offsets st) = nblocks * wmax;
  inv_ranks_v : records (a_marked_ranks st) (nbits (n + 1)) nmarkers;
  inv_moffs_v :
    records (a_marked_offsets st) (nbits (nblocks * wmax)) nmarkers;
  inv_classes : forall j, 0 <= j < k ->
    bit_vector_read_record (a_classes st) j = class_of j;
  inv_offsets : forall j, 0 <= j < k ->
    bit_vector_read (a_offsets st) (pos j) (width_of j) = enc_of j;
  inv_ranks : forall m, 0 <= m < a_marker_at st ->
    bit_vector_read_record (a_marked_ranks st) m = rank1 bits ((m + 1) * s);
  inv_moffs : forall m j, 0 <= m < a_marker_at st -> 0 <= j ->
    j * u < (m + 1) * s <= (j + 1) * u -> (j + 1) * u < n ->
    bit_vector_read_record (a_marked_offsets st) m = pos (j + 1)
}.

(** The state [rrr_alloc] enters its loop with. *)
Definition alloc_init : alloc_state :=
  {| a_rank := 0; a_class_at := 0; a_offset_at := 0;
     a_marker_at := 0; a_marker_need := s;
     a_classes := bit_vector_alloc_record (nbits (u + 1)) nblocks;
     a_offsets := bit_vector_alloc (wrap64 (nblocks * wmax));
     a_marked_ranks := bit_vector_alloc_record (nbits (n + 1)) nmarkers;
     a_marked_offsets :=
       bit_vector_alloc_record
         (nbits (BitVector.size (bit_vector_alloc (wrap64 (nblocks * wmax)))))
         nmarkers |}.

(** What the queries rely on in an instance built from [bits]. *)
Record built (r : rrr_t) : Prop := {
  b_size : size r = n;
  b_rank : rank r = rank1 bits n;
  b_nblocks : Rrr.nblocks r = nblocks;
  b_nmarkers : Rrr.nmarkers r = nmarkers;
  b_block_nbits : block_nbits r = u;
  b_marker_nbits : marker_nbits r = s;
  b_classes_v : records (classes r) (nbits (u + 1)) nblocks;
  b_ranks_v : records (marked_ranks r) (nbits (n + 1)) nmarkers;
  b_moffs_v : records (marked_offsets r) (nbits (nblocks * wmax)) nmarkers;
  b_classes : forall j, 0 <= j < nblocks ->
    bit_vector_read_record (classes r) j = class_of j;
  b_offsets : forall j, 0 <= j < nblocks ->
    bit_vector_read (offsets r) (pos j) (width_of j) = enc_of j;
  b_ranks : forall m, 0 <= m -> (m + 1) * s <= nblocks * u ->
    bit_vector_read_record (marked_ranks r) m = rank1 bits ((m + 1) * s);
  b_moffs : forall m j, 0 <= m -> 0 <= j ->
    j * u < (m + 1) * s <= (j + 1) * u -> (j + 1) * u < n ->
    bit_vector_read_record (marked_offsets r) m = pos (j + 1)
}.

End Source.

End Source.

(** No block of the source is sixty-four 1-bits (the case in which
    [rrr_decode_block] shifts by 64). *)
Definition no_full_block (bits : bit_vector_t) (u : Z) : Prop :=
  forall k, 0 <= k -> popcount (Source.block bits u k) <> 64.

(** ** Checks run on the binomial table *)

(** What row [n] of the table satisfies, checked entry by entry. *)
Definition entry_ok (n k : Z) : bool :=
  (0 <? binomial n k) && (binomial n k <? 2 ^ 63)
  && (offset_nbits n k <=? offset_nbits n (n / 2))
  && ((n =? 64)
      || (binomial (n + 1) (k + 1) =? binomial n k + binomial n (k + 1))).

Definition row_ok (n : Z) : bool :=
  (binomial n 0 =? 1) && (binomial n n =? 1) && (binomial n (n + 1) =? 0)
  && forallb (fun k => entry_ok n (Z.of_nat k)) (seq 0 (S (Z.to_nat n))).

Definition table_ok : bool :=
  forallb (fun n => row_ok (Z.of_nat n)) (seq 0 65).

(** ** The steps of the portable popcount *)

(** The three folding steps of [popcount], with the masks as parameters. *)
Definition fold1 (m x : Z) : Z := x - Z.shiftr (Z.land x m) 1.
Definition fold2 (m v : Z) : Z := Z.land v m + Z.land (Z.shiftr v 2) m.
Definition fold4 (m v : Z) : Z := Z.land (v + Z.shiftr v 4) m.

(** The byte [b] repeated [k] times. *)
Fixpoint rep (k : nat) (b : Z) : Z :=
  match k with
  | O => 0
  | S k' => b + 256 * rep k' b
  end.

(** The word whose [j]-th byte is the number of 1-bits of the [j]-th byte
    of [x], for the [k] low bytes. *)
Fixpoint byte_counts (k : nat) (x : Z) : Z :=
  match k with
  | O => 0
  | S k' => bitcount 8 (x mod 256) + 256 * byte_counts k' (x / 256)
  end.

(** The sum of the byte counts is the count of the whole word. *)
Fixpoint byte_total (k : nat) (x : Z) : Z :=
  match k with
  | O => 0
  | S k' => bitcount 8 (x mod 256) + byte_total k' (x / 256)
  end.

(** What the folding steps do to one byte [a], and to it in the presence
    of the low bits [r] of the byte above; checked for every byte. *)
Definition byte_ok (a : Z) : bool :=
  let a1 := fold1 0xaa a in
  let a2 := fold2 0x33 a1 in
  (0 <=? a1) && (a1 <? 256) && (0 <=? a2) && (a2 <=? 68)
  && (a2 mod 16 <=? 4)
  && forallb (fun r =>
       Z.land (a1 / 4 + 64 * Z.of_nat r) 0x33 =? Z.land (a1 / 4) 0x33)
       (seq 0 4)
  && forallb (fun r =>
       (a2 + a2 / 16 + 16 * Z.of_nat r <? 256)
       && (Z.land (a2 + a2 / 16 + 16 * Z.of_nat r) 0x0f =? bitcount 8 a))
       (seq 0 5).


(** ** Further checks of the binomial table *)

(** Entry [k] of row [n]: the row is symmetric, the offset of a class takes
    no bit exactly when the class is 0 or [n], and never more than 61. *)
Definition width_ok (n k : Z) : bool :=
  (binomial n k =? binomial n (n - k))
  && Bool.eqb (offset_nbits n k =? 0) ((k =? 0) || (k =? n))
  && (offset_nbits n k <=? 61).

Definition widths_ok : bool :=
  forallb (fun n =>
             forallb (fun k => width_ok (Z.of_nat n) (Z.of_nat k))
               (seq 0 (S n)))
    (seq 0 65).
(** * Properties *)

(** Side conditions of rewrites. *)
Local Ltac side := solve [assumption | lia].

(** ** Words *)

Lemma bind_ok {A B : Type} (m : res A) (k : A -> res B) (b : B) :
  bind m k = Ok b -> exists a, m = Ok a /\ k a = Ok b.
Proof. destruct m; simpl; intros H; try discriminate; eauto. Qed.

Lemma wrap64_small x : 0 <= x < 2 ^ 64 -> wrap64 x = x.
Proof. intros H; unfold wrap64; apply Z.mod_small; exact H. Qed.

Lemma wrap64_range x : 0 <= wrap64 x < 2 ^ 64.
Proof. unfold wrap64; apply Z.mod_pos_bound; lia. Qed.

Lemma wrap32_small x : 0 <= x < 2 ^ 32 -> wrap32 x = x.
Proof. intros H; unfold wrap32; apply Z.mod_small; exact H. Qed.

Lemma bitcount_range n x : 0 <= bitcount n x <= Z.of_nat n.
Proof.
  induction n as [|n IH]; simpl bitcount; [lia|].
  destruct (Z.testbit x (Z.of_nat n)); simpl Z.b2z; lia.
Qed.

Lemma bitcount_ext n x y :
  (forall i, 0 <= i < Z.of_nat n -> Z.testbit x i = Z.testbit y i) ->
  bitcount n x = bitcount n y.
Proof.
  induction n as [|n IH]; intros H; simpl bitcount; [reflexivity|].
  rewrite IH by (intros i Hi; apply H; lia).
  rewrite (H (Z.of_nat n)) by lia. reflexivity.
Qed.

Lemma bitcount_app n m x :
  bitcount (n + m) x = bitcount n x + bitcount m (Z.shiftr x (Z.of_nat n)).
Proof.
  induction m as [|m IH].
  - rewrite Nat.add_0_r. simpl. lia.
  - rewrite Nat.add_succ_r. simpl bitcount. rewrite IH.
    rewrite Z.shiftr_spec by lia.
    replace (Z.of_nat m + Z.of_nat n) with (Z.of_nat (n + m)) by lia. lia.
Qed.

Lemma testbit_above n x i :
  0 <= x < 2 ^ n -> n <= i -> Z.testbit x i = false.
Proof.
  intros Hx Hi.
  destruct (Z.eq_dec x 0) as [->|Hne]; [apply Z.bits_0|].
  apply Z.bits_above_log2; [lia|].
  assert (Z.log2 x < n) by (apply Z.log2_lt_pow2; lia). lia.
Qed.

Lemma bitcount_zero_above n m x :
  (forall i, Z.of_nat n <= i -> Z.testbit x i = false) ->
  bitcount (n + m) x = bitcount n x.
Proof.
  intros H. induction m as [|m IH].
  - rewrite Nat.add_0_r. reflexivity.
  - rewrite Nat.add_succ_r. simpl bitcount. rewrite IH, H by lia.
    simpl. lia.
Qed.

Lemma bitcount_small n m x :
  0 <= x < 2 ^ Z.of_nat n -> (n <= m)%nat -> bitcount m x = bitcount n x.
Proof.
  intros Hx Hm. replace m with (n + (m - n))%nat by lia.
  apply bitcount_zero_above. intros i Hi.
  apply (testbit_above (Z.of_nat n)); assumption.
Qed.

Lemma bitcount_land_ones m k x :
  0 <= k -> bitcount m (Z.land x (Z.ones k)) = bitcount (Nat.min m (Z.to_nat k)) x.
Proof.
  intros Hk. destruct (Nat.le_ge_cases m (Z.to_nat k)) as [Hle|Hge].
  - rewrite Nat.min_l by assumption. apply bitcount_ext. intros i Hi.
    rewrite Z.land_spec, Z.ones_spec_low by lia. apply andb_true_r.
  - rewrite Nat.min_r by assumption.
    replace m with (Z.to_nat k + (m - Z.to_nat k))%nat by lia.
    rewrite bitcount_zero_above.
    + apply bitcount_ext. intros i Hi.
      rewrite Z.land_spec, Z.ones_spec_low by lia. apply andb_true_r.
    + intros i Hi. rewrite Z.land_spec, Z.ones_spec_high by lia.
      apply andb_false_r.
Qed.

Lemma bitcount_mod m k x :
  0 <= k -> bitcount m (x mod 2 ^ k) = bitcount (Nat.min m (Z.to_nat k)) x.
Proof.
  intros Hk. rewrite <- Z.land_ones by assumption.
  apply bitcount_land_ones; assumption.
Qed.

(** All the [n] low bits are set exactly when the count is [n]. *)
Lemma bitcount_full n x :
  bitcount n x = Z.of_nat n ->
  forall i, 0 <= i < Z.of_nat n -> Z.testbit x i = true.
Proof.
  induction n as [|n IH]; intros H i Hi; [lia|].
  simpl bitcount in H. pose proof (bitcount_range n x) as Hr.
  destruct (Z.testbit x (Z.of_nat n)) eqn:Hb; simpl Z.b2z in H; [|lia].
  destruct (Z.eq_dec i (Z.of_nat n)) as [->|Hne]; [exact Hb|].
  apply IH; lia.
Qed.

Lemma bitcount_none n x :
  bitcount n x = 0 ->
  forall i, 0 <= i < Z.of_nat n -> Z.testbit x i = false.
Proof.
  induction n as [|n IH]; intros H i Hi; [lia|].
  simpl bitcount in H. pose proof (bitcount_range n x) as Hr.
  destruct (Z.testbit x (Z.of_nat n)) eqn:Hb; simpl Z.b2z in H; [lia|].
  destruct (Z.eq_dec i (Z.of_nat n)) as [->|Hne]; [exact Hb|].
  apply IH; lia.
Qed.

Lemma land_bit_test v n :
  0 <= n -> (Z.land v (Z.shiftl 1 n) =? 0) = negb (Z.testbit v n).
Proof.
  intros Hn. rewrite Z.shiftl_1_l.
  destruct (Z.testbit v n) eqn:Hb; simpl.
  - apply Z.eqb_neq. intros H0.
    assert (Ht : Z.testbit (Z.land v (2 ^ n)) n = true)
      by (rewrite Z.land_spec, Hb, Z.pow2_bits_true by lia; reflexivity).
    rewrite H0, Z.bits_0 in Ht. discriminate.
  - apply Z.eqb_eq. apply Z.bits_inj'. intros i Hi.
    rewrite Z.land_spec, Z.bits_0.
    destruct (Z.eq_dec i n) as [->|Hne].
    + rewrite Hb. reflexivity.
    + rewrite Z.pow2_bits_false by lia. apply andb_false_r.
Qed.

Lemma signed64_wrap64 x : - 2 ^ 63 <= x < 2 ^ 63 -> signed64 (wrap64 x) = x.
Proof.
  intros Hx. unfold signed64, wrap64.
  destruct (Z.le_gt_cases 0 x).
  - rewrite Z.mod_small by lia.
    replace (x <? 2 ^ 63) with true by (symmetry; apply Z.ltb_lt; lia).
    reflexivity.
  - replace (x mod 2 ^ 64) with (x + 2 ^ 64).
    2:{ apply Z.mod_unique with (q := -1); lia. }
    replace (x + 2 ^ 64 <? 2 ^ 63) with false
      by (symmetry; apply Z.ltb_ge; lia).
    lia.
Qed.

Lemma shl64_small {pf : Platform} k : 0 <= k < 64 -> shl64 k = 2 ^ k.
Proof.
  intros Hk. unfold shl64.
  replace (k <? 64) with true by (symmetry; apply Z.ltb_lt; lia).
  rewrite Z.shiftl_1_l, wrap64_small; [reflexivity|].
  split; [apply Z.pow_nonneg; lia|]. apply Z.pow_lt_mono_r; lia.
Qed.

(** [(1ULL << k) - 1] is the mask of the [k] low bits. *)
Lemma mask_ones {pf : Platform} k :
  0 <= k < 64 -> wrap64 (shl64 k - 1) = Z.ones k.
Proof.
  intros Hk. rewrite shl64_small by lia.
  assert (0 < 2 ^ k < 2 ^ 64).
  { split; [apply Z.pow_pos_nonneg; lia|]. apply Z.pow_lt_mono_r; lia. }
  rewrite wrap64_small by lia. rewrite Z.ones_equiv. reflexivity.
Qed.

Lemma shl_int1_small {pf : Platform} k :
  0 <= k < 31 -> shl_int1 k = Z.shiftl 1 k.
Proof.
  intros Hk. unfold shl_int1.
  replace (k <? 31) with true by (symmetry; apply Z.ltb_lt; lia).
  reflexivity.
Qed.

(** [(b & (1 << k)) >> k] is bit [k] of [b]. *)
Lemma bit_extract b k :
  0 <= k -> Z.shiftr (Z.land b (Z.shiftl 1 k)) k = Z.b2z (Z.testbit b k).
Proof.
  intros Hk. rewrite Z.shiftl_1_l. apply Z.bits_inj'. intros j Hj.
  rewrite Z.shiftr_spec, Z.land_spec by lia.
  destruct (Z.eq_dec j 0) as [->|Hne].
  - rewrite Z.add_0_l, Z.pow2_bits_true, andb_true_r by lia.
    destruct (Z.testbit b k); reflexivity.
  - rewrite Z.pow2_bits_false, andb_false_r by lia.
    destruct (Z.testbit b k); cbn [Z.b2z].
    + change 1 with (2 ^ 0). rewrite Z.pow2_bits_false by lia. reflexivity.
    + rewrite Z.bits_0. reflexivity.
Qed.

(** ** The binomial table *)

Lemma table_checked : table_ok = true.
Proof. vm_compute. reflexivity. Qed.

Lemma row_checked n : 0 <= n <= 64 -> row_ok n = true.
Proof.
  intros Hn. pose proof table_checked as H. unfold table_ok in H.
  rewrite forallb_forall in H.
  specialize (H (Z.to_nat n)). rewrite Z2Nat.id in H by lia.
  apply H. apply in_seq. lia.
Qed.

Lemma entry_checked n k : 0 <= k <= n -> n <= 64 -> entry_ok n k = true.
Proof.
  intros Hk Hn. pose proof (row_checked n ltac:(lia)) as H.
  unfold row_ok in H. rewrite !andb_true_iff in H.
  destruct H as [_ H]. rewrite forallb_forall in H.
  specialize (H (Z.to_nat k)). rewrite Z2Nat.id in H by lia.
  apply H. apply in_seq. lia.
Qed.

Lemma binomial_n_0 n : 0 <= n <= 64 -> binomial n 0 = 1.
Proof.
  intros Hn. pose proof (row_checked n Hn) as H. unfold row_ok in H.
  rewrite !andb_true_iff in H. lia.
Qed.

Lemma binomial_n_n n : 0 <= n <= 64 -> binomial n n = 1.
Proof.
  intros Hn. pose proof (row_checked n Hn) as H. unfold row_ok in H.
  rewrite !andb_true_iff in H. lia.
Qed.

Lemma binomial_n_Sn n : 0 <= n <= 64 -> binomial n (n + 1) = 0.
Proof.
  intros Hn. pose proof (row_checked n Hn) as H. unfold row_ok in H.
  rewrite !andb_true_iff in H. lia.
Qed.

Lemma binomial_range n k :
  0 <= k <= n -> n <= 64 -> 0 < binomial n k < 2 ^ 63.
Proof.
  intros Hk Hn. pose proof (entry_checked n k Hk Hn) as H.
  unfold entry_ok in H. rewrite !andb_true_iff in H. lia.
Qed.

Lemma binomial_pascal n k :
  0 <= k <= n -> n < 64 ->
  binomial (n + 1) (k + 1) = binomial n k + binomial n (k + 1).
Proof.
  intros Hk Hn. pose proof (entry_checked n k Hk ltac:(lia)) as H.
  unfold entry_ok in H. rewrite !andb_true_iff, orb_true_iff in H.
  destruct H as [_ [H|H]]; lia.
Qed.

Lemma offset_nbits_max n k :
  0 <= k <= n -> n <= 64 -> offset_nbits n k <= offset_nbits n (n / 2).
Proof.
  intros Hk Hn. pose proof (entry_checked n k Hk Hn) as H.
  unfold entry_ok in H. rewrite !andb_true_iff in H. lia.
Qed.

Lemma choose_above n k : (n < k)%nat -> choose n k = 0.
Proof.
  revert k. induction n as [|n IH]; intros [|k] Hk; simpl; try lia.
  rewrite !IH by lia. reflexivity.
Qed.

(** The table holds the binomial coefficients. *)
Lemma binomial_choose n k :
  (k <= n)%nat -> (n <= 64)%nat ->
  binomial (Z.of_nat n) (Z.of_nat k) = choose n k.
Proof.
  revert k. induction n as [|n IH]; intros k Hk Hn.
  - assert (k = 0)%nat as -> by lia. reflexivity.
  - destruct k as [|k]; [simpl choose; apply binomial_n_0; lia|].
    simpl choose. rewrite !Nat2Z.inj_succ, <- !Z.add_1_r.
    rewrite binomial_pascal by lia.
    rewrite IH by lia.
    destruct (Nat.eq_dec k n) as [->|Hne].
    + rewrite binomial_n_Sn, (choose_above n (S n)) by lia. reflexivity.
    + f_equal. rewrite <- (IH (S k)) by lia.
      rewrite Nat2Z.inj_succ, <- Z.add_1_r. reflexivity.
Qed.

(** ** The portable popcount *)

Lemma land_range a m n : 0 <= a < 2 ^ n -> 0 <= Z.land a m < 2 ^ n.
Proof.
  intros Ha. assert (Hn : 0 <= n).
  { destruct (Z.le_gt_cases 0 n); [assumption|].
    rewrite Z.pow_neg_r in Ha by lia. lia. }
  assert (E : Z.land a m mod 2 ^ n = Z.land a m).
  { apply Z.bits_inj'. intros i Hi.
    rewrite Z.testbit_mod_pow2, Z.land_spec by lia.
    destruct (Z.ltb_spec i n); [reflexivity|].
    rewrite (testbit_above n a i) by lia. reflexivity. }
  rewrite <- E. apply Z.mod_pos_bound. lia.
Qed.

Lemma testbit_split a y i :
  0 <= a < 256 -> 0 <= i ->
  Z.testbit (a + 256 * y) i
  = if i <? 8 then Z.testbit a i else Z.testbit y (i - 8).
Proof.
  intros Ha Hi. replace (a + 256 * y) with (a + y * 2 ^ 8) by lia.
  destruct (Z.ltb_spec i 8).
  - rewrite <- (Z.mod_pow2_bits_low (a + y * 2 ^ 8) 8 i) by lia.
    rewrite Z.mod_add, Z.mod_small by lia. reflexivity.
  - replace i with ((i - 8) + 8) at 1 by lia.
    rewrite <- Z.div_pow2_bits by lia.
    rewrite Z.div_add, Z.div_small by lia. reflexivity.
Qed.

(** [&] works byte by byte. *)
Lemma land_split a y m M :
  0 <= a < 256 -> 0 <= m < 256 ->
  Z.land (a + 256 * y) (m + 256 * M) = Z.land a m + 256 * Z.land y M.
Proof.
  intros Ha Hm. pose proof (land_range a m 8 Ha) as Hr.
  apply Z.bits_inj'. intros i Hi.
  rewrite Z.land_spec, !testbit_split by lia.
  destruct (i <? 8); rewrite Z.land_spec; reflexivity.
Qed.

Lemma land_even y m : Z.land y (2 * m) = 2 * (Z.land y (2 * m) / 2).
Proof.
  assert (H : Z.land y (2 * m) mod 2 = 0).
  { rewrite <- Z.bit0_mod, Z.land_spec, Z.testbit_even_0.
    rewrite andb_false_r. reflexivity. }
  pose proof (Z.div_mod (Z.land y (2 * m)) 2 ltac:(lia)). lia.
Qed.

Lemma bytes_checked :
  forallb (fun a => byte_ok (Z.of_nat a)) (seq 0 256) = true.
Proof. vm_compute. reflexivity. Qed.

Lemma byte_checked a : 0 <= a < 256 -> byte_ok a = true.
Proof.
  intros Ha. pose proof bytes_checked as H. rewrite forallb_forall in H.
  specialize (H (Z.to_nat a)). rewrite Z2Nat.id in H by lia.
  apply H. apply in_seq. lia.
Qed.

Lemma byte_fold1 a : 0 <= a < 256 -> 0 <= fold1 0xaa a < 256.
Proof.
  intros Ha. pose proof (byte_checked a Ha) as H. unfold byte_ok in H.
  rewrite !andb_true_iff in H. lia.
Qed.

Lemma byte_fold2 a :
  0 <= a < 256 ->
  0 <= fold2 0x33 (fold1 0xaa a) <= 68
  /\ fold2 0x33 (fold1 0xaa a) mod 16 <= 4.
Proof.
  intros Ha. pose proof (byte_checked a Ha) as H. unfold byte_ok in H.
  rewrite !andb_true_iff in H. lia.
Qed.

Lemma byte_fold2_low a r :
  0 <= a < 256 -> 0 <= r < 4 ->
  Z.land (fold1 0xaa a / 4 + 64 * r) 0x33 = Z.land (fold1 0xaa a / 4) 0x33.
Proof.
  intros Ha Hr. pose proof (byte_checked a Ha) as H. unfold byte_ok in H.
  rewrite !andb_true_iff in H. destruct H as [[_ H] _].
  rewrite forallb_forall in H. specialize (H (Z.to_nat r)).
  rewrite Z2Nat.id in H by lia. apply Z.eqb_eq, H, in_seq. lia.
Qed.

Lemma byte_fold4 a r :
  0 <= a < 256 -> 0 <= r <= 4 ->
  let a2 := fold2 0x33 (fold1 0xaa a) in
  a2 + a2 / 16 + 16 * r < 256
  /\ Z.land (a2 + a2 / 16 + 16 * r) 0x0f = bitcount 8 a.
Proof.
  intros Ha Hr. pose proof (byte_checked a Ha) as H. unfold byte_ok in H.
  rewrite !andb_true_iff in H. destruct H as [_ H].
  rewrite forallb_forall in H. specialize (H (Z.to_nat r)).
  rewrite Z2Nat.id in H by lia. cbv zeta.
  assert (Hin : In (Z.to_nat r) (seq 0 5)) by (apply in_seq; lia).
  apply H in Hin. apply andb_true_iff in Hin. lia.
Qed.

(** The three steps count the bits of every byte in place. *)
Lemma folds_bytes k : forall x,
  0 <= x < 256 ^ Z.of_nat k ->
  let v1 := fold1 (rep k 0xaa) x in
  let v2 := fold2 (rep k 0x33) v1 in
  0 <= v1 < 256 ^ Z.of_nat k
  /\ 0 <= v2 /\ 3 * v2 <= 256 ^ Z.of_nat k - 1 /\ v2 mod 16 <= 4
  /\ fold4 (rep k 0x0f) v2 = byte_counts k x.
Proof.
  induction k as [|k IH]; intros x Hx.
  - change (256 ^ Z.of_nat 0) with 1 in *. assert (x = 0) as -> by lia.
    cbv. repeat split; discriminate.
  - rewrite Nat2Z.inj_succ, Z.pow_succ_r in * by lia.
    set (K := 256 ^ Z.of_nat k) in *.
    pose proof (Z.div_mod x 256 ltac:(lia)) as Hdm.
    pose proof (Z.mod_pos_bound x 256 ltac:(lia)) as Ha.
    set (a := x mod 256) in *. set (y := x / 256) in *.
    assert (Hy : 0 <= y < K) by lia.
    assert (Hxe : x = a + 256 * y) by lia.
    destruct (IH y Hy) as (Hy1 & Hy2 & Hy2b & Hy2n & Hy4).
    cbv zeta in *.
    set (y1 := fold1 (rep k 0xaa) y) in *.
    set (y2 := fold2 (rep k 0x33) y1) in *.
    pose proof (byte_fold1 a Ha) as Ha1.
    pose proof (byte_fold2 a Ha) as [Ha2 Ha2n].
    set (a1 := fold1 0xaa a) in *.
    set (a2 := fold2 0x33 a1) in *.
    (* step 1 *)
    assert (E1 : fold1 (rep (S k) 0xaa) x = a1 + 256 * y1).
    { unfold a1, y1, fold1. cbn [rep]. rewrite Hxe at 1 2.
      rewrite land_split by lia.
      assert (Hev : Z.land y (rep k 0xaa)
                    = 2 * (Z.land y (rep k 0xaa) / 2)).
      { assert (Hm : rep k 0xaa = 2 * rep k 0x55).
        { clear. induction k as [|k IH]; cbn [rep]; [reflexivity|].
          rewrite IH. lia. }
        rewrite Hm. apply land_even. }
      rewrite !Z.shiftr_div_pow2 by lia. change (2 ^ 1) with 2.
      set (p := Z.land a 0xaa) in *. set (q := Z.land y (rep k 0xaa)) in *.
      replace ((p + 256 * q) / 2) with (p / 2 + 128 * q).
      2:{ replace (p + 256 * q) with (p + (128 * q) * 2) by lia.
          rewrite Z.div_add by lia. reflexivity. }
      lia. }
    (* step 2 *)
    assert (E2 : fold2 (rep (S k) 0x33) (a1 + 256 * y1) = a2 + 256 * y2).
    { unfold a2, y2, fold2. cbn [rep].
      rewrite land_split by lia.
      rewrite !Z.shiftr_div_pow2 by lia. change (2 ^ 2) with 4.
      pose proof (Z.div_mod y1 4 ltac:(lia)) as Hy1dm.
      pose proof (Z.mod_pos_bound y1 4 ltac:(lia)) as Hr.
      replace ((a1 + 256 * y1) / 4)
        with ((a1 / 4 + 64 * (y1 mod 4)) + 256 * (y1 / 4)).
      2:{ replace (a1 + 256 * y1) with (a1 + (64 * y1) * 4) by lia.
          rewrite Z.div_add by lia. lia. }
      assert (0 <= a1 / 4 < 64).
      { split; [apply Z.div_pos; lia|].
        apply Z.div_lt_upper_bound; lia. }
      rewrite land_split by lia.
      unfold a1. rewrite byte_fold2_low by lia. fold a1. lia. }
    (* step 3 *)
    assert (E3 : fold4 (rep (S k) 0x0f) (a2 + 256 * y2)
                 = bitcount 8 a + 256 * fold4 (rep k 0x0f) y2).
    { unfold fold4. cbn [rep].
      rewrite !Z.shiftr_div_pow2 by lia. change (2 ^ 4) with 16.
      pose proof (Z.div_mod y2 16 ltac:(lia)) as Hy2dm.
      pose proof (Z.mod_pos_bound y2 16 ltac:(lia)) as Hr.
      replace (a2 + 256 * y2 + (a2 + 256 * y2) / 16)
        with ((a2 + a2 / 16 + 16 * (y2 mod 16)) + 256 * (y2 + y2 / 16)).
      2:{ replace (a2 + 256 * y2) with (a2 + (16 * y2) * 16) at 2 by lia.
          rewrite Z.div_add by lia. lia. }
      destruct (byte_fold4 a (y2 mod 16) Ha ltac:(lia)) as [Hlt Hpc].
      fold a1 a2 in Hlt, Hpc.
      assert (0 <= a2 / 16) by (apply Z.div_pos; lia).
      rewrite land_split by lia.
      rewrite Hpc. reflexivity. }
    rewrite E1, E2, E3, Hy4. cbn [byte_counts]. fold a y.
    assert (Ha2m : (a2 + 256 * y2) mod 16 = a2 mod 16).
    { replace (a2 + 256 * y2) with (a2 + (16 * y2) * 16) by lia.
      apply Z.mod_add. lia. }
    rewrite Ha2m. repeat split; lia.
Qed.

Lemma byte_total_bitcount k : forall x,
  byte_total k x = bitcount (8 * k) x.
Proof.
  induction k as [|k IH]; intros x; [reflexivity|].
  cbn [byte_total]. rewrite IH.
  replace (8 * S k)%nat with (8 + 8 * k)%nat by lia.
  rewrite bitcount_app. change (Z.of_nat 8) with 8.
  rewrite Z.shiftr_div_pow2 by lia. change (2 ^ 8) with 256.
  change 256 with (2 ^ 8) at 1. rewrite bitcount_mod by lia.
  reflexivity.
Qed.

(** The multiplication adds the eight byte counts up in the top byte. *)
Lemma top_byte_sum e0 e1 e2 e3 e4 e5 e6 e7 :
  0 <= e0 <= 8 -> 0 <= e1 <= 8 -> 0 <= e2 <= 8 -> 0 <= e3 <= 8 ->
  0 <= e4 <= 8 -> 0 <= e5 <= 8 -> 0 <= e6 <= 8 -> 0 <= e7 <= 8 ->
  Z.shiftr
    (wrap64
       ((e0 + 256 * (e1 + 256 * (e2 + 256 * (e3 + 256 * (e4 + 256 *
          (e5 + 256 * (e6 + 256 * (e7 + 256 * 0))))))))
        * 0x0101010101010101)) 56
  = e0 + (e1 + (e2 + (e3 + (e4 + (e5 + (e6 + (e7 + 0))))))).
Proof.
  intros. unfold wrap64. rewrite Z.shiftr_div_pow2 by lia.
  change (2 ^ 64) with 18446744073709551616.
  change (2 ^ 56) with 72057594037927936.
  set (low := 1 * (e0) + 256 * (e0 + e1) + 65536 * (e0 + e1 + e2) + 16777216 * (e0 + e1 + e2 + e3) + 4294967296 * (e0 + e1 + e2 + e3 + e4) + 1099511627776 * (e0 + e1 + e2 + e3 + e4 + e5) + 281474976710656 * (e0 + e1 + e2 + e3 + e4 + e5 + e6)).
  set (high := e1 * 1 + e2 * 257 + e3 * 65793 + e4 * 16843009 + e5 * 4311810305 + e6 * 1103823438081 + e7 * 282578800148737).
  match goal with
  | |- (?p mod _) / _ = _ =>
      replace p with (low + 72057594037927936 * (e0 + e1 + e2 + e3 + e4 + e5 + e6 + e7)
                      + high * 18446744073709551616)
        by (unfold low, high; ring)
  end.
  rewrite Z.mod_add by lia.
  rewrite Z.mod_small by (unfold low; lia).
  symmetry. apply Z.div_unique with (r := low); unfold low; lia.
Qed.

Lemma byte_counts_sum x :
  Z.shiftr (wrap64 (byte_counts 8 x * 0x0101010101010101)) 56
  = bitcount 64 x.
Proof.
  change 64%nat with (8 * 8)%nat. rewrite <- byte_total_bitcount.
  cbn [byte_counts byte_total].
  apply top_byte_sum; apply (bitcount_range 8).
Qed.

(** The portable [popcount] counts the 1-bits of a 64-bit word. *)
Lemma popcount_bitcount x : 0 <= x < 2 ^ 64 -> popcount x = bitcount 64 x.
Proof.
  intros Hx. unfold popcount.
  change 0xaaaaaaaaaaaaaaaa with (rep 8 0xaa).
  change 0x3333333333333333 with (rep 8 0x33).
  change 0x0f0f0f0f0f0f0f0f with (rep 8 0x0f).
  change (2 ^ 64) with (256 ^ Z.of_nat 8) in Hx.
  destruct (folds_bytes 8 x Hx) as (H1 & H2 & H3 & H4 & H5).
  cbv zeta in *. change (256 ^ Z.of_nat 8) with (2 ^ 64) in *.
  fold (fold1 (rep 8 0xaa) x).
  rewrite (wrap64_small (fold1 _ _)) by lia.
  fold (fold2 (rep 8 0x33) (fold1 (rep 8 0xaa) x)).
  rewrite (wrap64_small (fold2 _ _)) by lia.
  set (v2 := fold2 _ _) in *.
  assert (0 <= Z.shiftr v2 4 <= v2).
  { rewrite Z.shiftr_div_pow2 by lia. split; [apply Z.div_pos; lia|].
    apply Z.div_le_upper_bound; lia. }
  rewrite (wrap64_small (v2 + Z.shiftr v2 4)) by lia.
  fold (fold4 (rep 8 0x0f) v2). rewrite H5.
  apply byte_counts_sum.
Qed.

Lemma popcount_nonneg x : 0 <= popcount x.
Proof.
  unfold popcount. apply Z.shiftr_nonneg. unfold wrap64.
  apply Z.mod_pos_bound. reflexivity.
Qed.

(** ** The block codec *)

Lemma encode_loop_S n c v o :
  encode_loop (S n) c v o =
  if (0 <? c) && (c <=? Z.of_nat (S n)) then
    if Z.testbit v (Z.of_nat (S n)) then
      encode_loop n (c - 1) v (wrap64 (o + binomial (Z.of_nat (S n)) c))
    else encode_loop n c v o
  else o.
Proof.
  cbn [encode_loop]. rewrite land_bit_test by lia.
  rewrite negb_involutive. reflexivity.
Qed.

Lemma encode_loop_0 n v o : encode_loop n 0 v o = o.
Proof. destruct n; reflexivity. Qed.

Lemma encode_loop_full n c v o : Z.of_nat n < c -> encode_loop n c v o = o.
Proof.
  intros H. destruct n as [|n]; [reflexivity|].
  rewrite encode_loop_S.
  replace (c <=? Z.of_nat (S n)) with false by (symmetry; apply Z.leb_gt; lia).
  rewrite andb_false_r. reflexivity.
Qed.

Lemma bitcount_S n v :
  bitcount (S n) v = bitcount n v + Z.b2z (Z.testbit v (Z.of_nat n)).
Proof. reflexivity. Qed.

(** The offset computed from bit [n] down stays below [binomial (n+1) c],
    where [c] counts the 1-bits among the bits [0 .. n]; nothing wraps. *)
Lemma encode_loop_spec n : forall c v o,
  Z.of_nat n <= 63 -> bitcount (S n) v = c -> 0 <= o ->
  o + binomial (Z.of_nat n + 1) c <= 2 ^ 64 ->
  o <= encode_loop n c v o < o + binomial (Z.of_nat n + 1) c
  /\ encode_loop n c v o = o + encode_loop n c v 0.
Proof.
  induction n as [|n IH]; intros c v o Hn Hc Ho Hb.
  - simpl encode_loop. pose proof (bitcount_range 1 v) as Hr.
    pose proof (binomial_range (0 + 1) c) as Hp.
    simpl Z.of_nat in *. simpl bitcount in *.
    destruct (Z.testbit v 0); simpl Z.b2z in *; lia.
  - pose proof (bitcount_range (S (S n)) v) as Hr.
    pose proof (bitcount_range (S n) v) as Hr'.
    rewrite bitcount_S in Hc, Hr.
    rewrite !encode_loop_S.
    set (N := Z.of_nat (S n)) in *.
    assert (HN : Z.of_nat n + 1 = N) by (unfold N; lia).
    destruct ((0 <? c) && (c <=? N)) eqn:Hcond.
    + apply andb_true_iff in Hcond. destruct Hcond as [Hc0 HcN].
      apply Z.ltb_lt in Hc0. apply Z.leb_le in HcN.
      assert (Hp : binomial (N + 1) c = binomial N (c - 1) + binomial N c).
      { replace c with ((c - 1) + 1) at 1 by lia.
        rewrite binomial_pascal by lia.
        replace (c - 1 + 1) with c by lia. reflexivity. }
      assert (Hp1 : 0 < binomial N (c - 1) < 2 ^ 63)
        by (apply binomial_range; lia).
      assert (Hp2 : 0 < binomial N c < 2 ^ 63)
        by (apply binomial_range; lia).
      destruct (Z.testbit v N) eqn:Hbit; simpl Z.b2z in Hc.
      * rewrite Z.add_0_l.
        rewrite (wrap64_small (o + binomial N c)) by lia.
        rewrite (wrap64_small (binomial N c)) by lia.
        destruct (IH (c - 1) v (o + binomial N c)) as [H1 H2];
          try rewrite HN; try lia.
        destruct (IH (c - 1) v (binomial N c)) as [H3 H4];
          try rewrite HN; try lia.
        rewrite HN in *. lia.
      * destruct (IH c v o) as [H1 H2]; try rewrite HN; try lia.
        rewrite HN in *. lia.
    + apply andb_false_iff in Hcond.
      pose proof (binomial_range (N + 1) c) as Hp.
      destruct (Z.testbit v N); simpl Z.b2z in *;
        destruct Hcond as [H0|H0];
        (apply Z.ltb_ge in H0 || apply Z.leb_gt in H0); lia.
Qed.

Lemma encode_loop_bound n c v :
  Z.of_nat n <= 63 -> bitcount (S n) v = c ->
  0 <= encode_loop n c v 0 < binomial (Z.of_nat n + 1) c.
Proof.
  intros Hn Hc. pose proof (bitcount_range (S n) v) as Hr.
  assert (0 < binomial (Z.of_nat n + 1) c < 2 ^ 63)
    by (apply binomial_range; lia).
  destruct (encode_loop_spec n c v 0) as [H1 _]; lia.
Qed.

(** Starting above the most significant 1-bit changes nothing. *)
Lemma encode_loop_skip m : forall n c v o,
  (n <= m)%nat -> bitcount (S n) v = c ->
  (forall i, Z.of_nat n < i -> Z.testbit v i = false) ->
  encode_loop m c v o = encode_loop n c v o.
Proof.
  induction m as [|m IH]; intros n c v o Hnm Hc Hhigh.
  - assert (n = 0)%nat as -> by lia. reflexivity.
  - destruct (Nat.eq_dec n (S m)) as [->|Hne]; [reflexivity|].
    rewrite encode_loop_S, Hhigh by lia.
    pose proof (bitcount_range (S n) v) as Hr.
    destruct ((0 <? c) && (c <=? Z.of_nat (S m))) eqn:Hcond.
    + apply IH; [lia|assumption|assumption].
    + apply andb_false_iff in Hcond. destruct Hcond as [H0|H1].
      * apply Z.ltb_ge in H0. assert (c = 0) as -> by lia.
        rewrite encode_loop_0. reflexivity.
      * apply Z.leb_gt in H1. lia.
Qed.

Lemma bitcount_pos_nonzero n v : 0 < bitcount n v -> v <> 0.
Proof.
  intros H ->.
  assert (Hz : bitcount n 0 = 0).
  { clear. induction n as [|n IH]; simpl; [reflexivity|].
    rewrite IH, Z.bits_0. reflexivity. }
  lia.
Qed.

(** [rrr_encode_block] on a [u]-bit value of class [c]: the asserts hold
    and the result is the loop run from bit [u - 1]. *)
Lemma rrr_encode_block_eq u v :
  1 <= u <= 64 -> 0 <= v < 2 ^ u ->
  rrr_encode_block u (popcount v) v
  = Ok (encode_loop (Z.to_nat (u - 1)) (popcount v) v 0).
Proof.
  intros Hu Hv.
  assert (Hv64 : 0 <= v < 2 ^ 64).
  { split; [lia|]. apply Z.lt_le_trans with (2 ^ u); [lia|].
    apply Z.pow_le_mono_r; lia. }
  assert (Hpc : popcount v = bitcount (Z.to_nat u) v).
  { rewrite popcount_bitcount by assumption.
    apply bitcount_small; [rewrite Z2Nat.id by lia; assumption | lia]. }
  pose proof (bitcount_range (Z.to_nat u) v) as Hr.
  rewrite Z2Nat.id in Hr by lia.
  set (c := popcount v) in *.
  unfold rrr_encode_block.
  replace (0 <? u) with true by (symmetry; apply Z.ltb_lt; lia).
  replace (c <=? u) with true by (symmetry; apply Z.leb_le; lia).
  rewrite Z.eqb_refl. cbn [bind assert].
  assert (HS : S (Z.to_nat (u - 1)) = Z.to_nat u) by lia.
  destruct ((c =? 0) || (c =? u)) eqn:Hcu.
  - apply orb_true_iff in Hcu. destruct Hcu as [H|H]; apply Z.eqb_eq in H.
    + rewrite H, encode_loop_0. reflexivity.
    + rewrite encode_loop_full by lia. reflexivity.
  - apply orb_false_iff in Hcu. destruct Hcu as [H0 H1].
    apply Z.eqb_neq in H0. apply Z.eqb_neq in H1.
    assert (Hv0 : v <> 0) by (apply (bitcount_pos_nonzero (Z.to_nat u)); lia).
    replace (v =? 0) with false by (symmetry; apply Z.eqb_neq; assumption).
    unfold clz.
    replace (v =? 0) with false by (symmetry; apply Z.eqb_neq; assumption).
    replace (63 - (63 - Z.log2 v)) with (Z.log2 v) by lia.
    assert (Hlog : 0 <= Z.log2 v < u).
    { split; [apply Z.log2_nonneg|]. apply Z.log2_lt_pow2; lia. }
    assert (Hhigh : forall i, Z.log2 v < i -> Z.testbit v i = false)
      by (intros i Hi; apply Z.bits_above_log2; lia).
    f_equal. symmetry. apply encode_loop_skip; [lia| |].
    + rewrite Hpc.
      replace (Z.to_nat u)
        with (S (Z.to_nat (Z.log2 v)) + (Z.to_nat u - S (Z.to_nat (Z.log2 v))))%nat
        by lia.
      symmetry. apply bitcount_zero_above. intros i Hi. apply Hhigh. lia.
    + intros i Hi. apply Hhigh. lia.
Qed.

Lemma decode_loop_S n c o acc :
  decode_loop (S n) c o acc =
  if c <=? Z.of_nat (S n) then
    if binomial (Z.of_nat (S n)) c <=? o then
      decode_loop n (wrap64 (c - 1)) (o - binomial (Z.of_nat (S n)) c)
        (Z.lor acc (Z.shiftl 1 (Z.of_nat (S n))))
    else decode_loop n c o acc
  else (c, acc).
Proof. reflexivity. Qed.

(** The low [n + 1] bits of [v], split at bit [n]. *)
Lemma mod_pow2_split v n :
  0 <= n ->
  v mod 2 ^ (n + 1)
  = Z.lor (if Z.testbit v n then Z.shiftl 1 n else 0) (v mod 2 ^ n).
Proof.
  intros Hn. apply Z.bits_inj'. intros i Hi.
  rewrite Z.lor_spec, !Z.testbit_mod_pow2, Z.shiftl_1_l by lia.
  destruct (Z.ltb_spec i (n + 1)), (Z.ltb_spec i n); try lia; cbn [andb].
  - destruct (Z.testbit v n);
      [rewrite Z.pow2_bits_false by lia | rewrite Z.bits_0]; reflexivity.
  - assert (i = n) as -> by lia.
    destruct (Z.testbit v n) eqn:Hb;
      [rewrite Z.pow2_bits_true by lia | rewrite Z.bits_0]; reflexivity.
  - destruct (Z.testbit v n);
      [rewrite Z.pow2_bits_false by lia | rewrite Z.bits_0]; reflexivity.
Qed.

Lemma mod_pow2_full v n :
  (forall i, 0 <= i < n -> Z.testbit v i = true) -> 0 <= n ->
  v mod 2 ^ n = Z.ones n.
Proof.
  intros H Hn. apply Z.bits_inj'. intros i Hi.
  rewrite Z.testbit_mod_pow2 by lia.
  destruct (Z.ltb_spec i n); cbn [andb].
  - rewrite Z.ones_spec_low by lia. apply H. lia.
  - rewrite Z.ones_spec_high by lia. reflexivity.
Qed.

(** Decoding the offset of [v] rebuilds the bits [n .. c'] of [v], and
    leaves [c'] for the low bits, which are then all ones. *)
Lemma decode_loop_spec n : forall c v acc,
  Z.of_nat n <= 63 -> bitcount (S n) v = c ->
  exists c' val,
    decode_loop n c (encode_loop n c v 0) acc = (c', val)
    /\ 0 <= c' <= c
    /\ Z.lor val (Z.ones c') = Z.lor acc (v mod 2 ^ (Z.of_nat n + 1)).
Proof.
  induction n as [|n IH]; intros c v acc Hn Hc.
  - exists c, acc. split; [reflexivity|].
    rewrite bitcount_S in Hc. cbn [bitcount] in Hc.
    change (Z.of_nat 0) with 0 in *. rewrite Z.add_0_l, Z.pow_1_r.
    rewrite <- Z.bit0_mod. subst c.
    destruct (Z.testbit v 0); cbn [Z.b2z]; split; (lia || reflexivity).
  - pose proof (bitcount_range (S n) v) as Hr.
    rewrite bitcount_S in Hc.
    set (N := Z.of_nat (S n)) in *.
    assert (HN : Z.of_nat n + 1 = N) by (unfold N; lia).
    rewrite decode_loop_S, encode_loop_S. fold N.
    rewrite (mod_pow2_split v N) by lia.
    destruct (Z.leb_spec c N) as [HcN|HcN].
    + destruct (Z.testbit v N) eqn:Hbit; simpl Z.b2z in Hc.
      * replace (0 <? c) with true by (symmetry; apply Z.ltb_lt; lia).
        cbn [andb].
        pose proof (binomial_range N c ltac:(lia) ltac:(lia)) as Hp.
        pose proof (binomial_range N (c - 1) ltac:(lia) ltac:(lia)) as Hp'.
        rewrite Z.add_0_l, (wrap64_small (binomial N c)) by lia.
        destruct (encode_loop_spec n (c - 1) v (binomial N c)) as [H1 H2];
          try rewrite HN; try lia.
        replace (binomial N c <=? encode_loop n (c - 1) v (binomial N c))
          with true by (symmetry; apply Z.leb_le; lia).
        rewrite H2.
        replace (binomial N c + encode_loop n (c - 1) v 0 - binomial N c)
          with (encode_loop n (c - 1) v 0) by lia.
        rewrite (wrap64_small (c - 1)) by lia.
        destruct (IH (c - 1) v (Z.lor acc (Z.shiftl 1 N))) as (c' & val & E & R & L);
          [lia|lia|].
        exists c', val. rewrite E, L, HN, Z.lor_assoc.
        repeat split; lia.
      * rewrite Z.lor_0_l.
        assert (Hlt : encode_loop n c v 0 < binomial N c).
        { destruct (Z.eq_dec c 0) as [->|Hne].
          - rewrite encode_loop_0, binomial_n_0; lia.
          - rewrite <- HN. apply encode_loop_bound; lia. }
        replace (if (0 <? c) && true then encode_loop n c v 0 else 0)
          with (encode_loop n c v 0).
        2:{ destruct (Z.ltb_spec 0 c); cbn [andb]; [reflexivity|].
            assert (c = 0) as -> by lia. apply encode_loop_0. }
        replace (binomial N c <=? encode_loop n c v 0) with false
          by (symmetry; apply Z.leb_gt; lia).
        destruct (IH c v acc) as (c' & val & E & R & L); [lia|lia|].
        exists c', val. rewrite E, L, HN. repeat split; lia.
    + exists c, acc.
      assert (Hall : forall i, 0 <= i < N + 1 -> Z.testbit v i = true).
      { intros i Hi. apply (bitcount_full (S (S n))); [|lia].
        rewrite bitcount_S. fold N.
        destruct (Z.testbit v N); simpl Z.b2z in *; lia. }
      rewrite <- (mod_pow2_split v N) by lia.
      rewrite (mod_pow2_full v (N + 1)) by (assumption || lia).
      assert (c = N + 1) as ->
        by (destruct (Z.testbit v N); simpl Z.b2z in *; lia).
      repeat split; lia.
Qed.

(** [rrr_decode_block] undoes [rrr_encode_block], except that a class of 64
    makes it shift by 64. *)
Lemma rrr_decode_encode {pf : Platform} u v :
  1 <= u <= 64 -> 0 <= v < 2 ^ u -> popcount v < 64 ->
  rrr_decode_block u (popcount v)
    (encode_loop (Z.to_nat (u - 1)) (popcount v) v 0) = Ok v.
Proof.
  intros Hu Hv Hc64.
  assert (Hv64 : 0 <= v < 2 ^ 64).
  { split; [lia|]. apply Z.lt_le_trans with (2 ^ u); [lia|].
    apply Z.pow_le_mono_r; lia. }
  assert (HS : S (Z.to_nat (u - 1)) = Z.to_nat u) by lia.
  assert (HZ : Z.of_nat (Z.to_nat (u - 1)) + 1 = u) by lia.
  assert (Hpc : bitcount (S (Z.to_nat (u - 1))) v = popcount v).
  { rewrite popcount_bitcount, HS by assumption. symmetry.
    apply bitcount_small; [rewrite Z2Nat.id by lia; assumption | lia]. }
  pose proof (bitcount_range (S (Z.to_nat (u - 1))) v) as Hr.
  rewrite Hpc in Hr.
  set (c := popcount v) in *.
  pose proof (encode_loop_bound (Z.to_nat (u - 1)) c v ltac:(lia) Hpc) as Hb.
  rewrite HZ in Hb.
  unfold rrr_decode_block.
  replace (0 <? u) with true by (symmetry; apply Z.ltb_lt; lia).
  replace (c <=? u) with true by (symmetry; apply Z.leb_le; lia).
  replace (encode_loop (Z.to_nat (u - 1)) c v 0 <? binomial u c) with true
    by (symmetry; apply Z.ltb_lt; lia).
  cbn [bind assert].
  destruct (decode_loop_spec (Z.to_nat (u - 1)) c v 0 ltac:(lia) Hpc)
    as (c' & val & E & R & L).
  rewrite E. rewrite HZ, Z.lor_0_l, (Z.mod_small v) in L by lia.
  destruct (Z.ltb_spec 0 c') as [Hpos|Hzero].
  - rewrite mask_ones, L by lia. reflexivity.
  - assert (c' = 0) as -> by lia. rewrite Z.lor_0_r in L. rewrite L.
    reflexivity.
Qed.

(** Decoding an encoded block returns, whatever the class. *)
Lemma rrr_decode_defined {pf : Platform} u v :
  1 <= u <= 64 -> 0 <= v < 2 ^ u ->
  exists b,
    rrr_decode_block u (popcount v)
      (encode_loop (Z.to_nat (u - 1)) (popcount v) v 0) = Ok b.
Proof.
  intros Hu Hv.
  assert (Hv64 : 0 <= v < 2 ^ 64).
  { split; [lia|]. apply Z.lt_le_trans with (2 ^ u); [lia|].
    apply Z.pow_le_mono_r; lia. }
  assert (HZ : Z.of_nat (Z.to_nat (u - 1)) + 1 = u) by lia.
  assert (Hpc : bitcount (S (Z.to_nat (u - 1))) v = popcount v).
  { rewrite popcount_bitcount by assumption. symmetry.
    apply bitcount_small; [|lia].
    replace (Z.of_nat (S (Z.to_nat (u - 1)))) with u by lia. assumption. }
  pose proof (bitcount_range (S (Z.to_nat (u - 1))) v) as Hr.
  rewrite Hpc in Hr.
  pose proof (encode_loop_bound (Z.to_nat (u - 1)) (popcount v) v
                ltac:(lia) Hpc) as Hb.
  rewrite HZ in Hb.
  unfold rrr_decode_block.
  replace (0 <? u) with true by (symmetry; apply Z.ltb_lt; lia).
  replace (popcount v <=? u) with true by (symmetry; apply Z.leb_le; lia).
  replace (encode_loop (Z.to_nat (u - 1)) (popcount v) v 0
           <? binomial u (popcount v)) with true
    by (symmetry; apply Z.ltb_lt; lia).
  cbn [bind assert].
  destruct (decode_loop _ _ _ _) as [c' val].
  destruct (0 <? c'); eexists; reflexivity.
Qed.

(** *** The codec as an enumeration *)

Lemma width_checked n k : 0 <= k <= n -> n <= 64 -> width_ok n k = true.
Proof.
  intros Hk Hn.
  assert (H : widths_ok = true) by (vm_compute; reflexivity).
  unfold widths_ok in H. rewrite forallb_forall in H.
  specialize (H (Z.to_nat n)). rewrite forallb_forall in H.
  specialize (H ltac:(apply in_seq; lia) (Z.to_nat k)).
  rewrite !Z2Nat.id in H by lia. apply H. apply in_seq. lia.
Qed.

(** The low [n + 1] bits of [v] as a number, split at bit [n]. *)
Lemma mod_pow2_succ v n :
  0 <= n ->
  v mod 2 ^ (n + 1) = Z.b2z (Z.testbit v n) * 2 ^ n + v mod 2 ^ n.
Proof.
  intros Hn. rewrite Z.pow_add_r, Z.pow_1_r by lia.
  assert (0 < 2 ^ n) by (apply Z.pow_pos_nonneg; lia).
  rewrite Z.rem_mul_r by lia.
  rewrite Z.testbit_spec' by lia. lia.
Qed.

(** Adding a power of two above a number sets that bit. *)
Lemma pow2_add_lor N w :
  0 <= N -> 0 <= w < 2 ^ N -> 2 ^ N + w = Z.lor (2 ^ N) w.
Proof.
  intros HN Hw.
  assert (Hl : Z.land (2 ^ N) w = 0).
  { apply Z.bits_inj'. intros j Hj.
    rewrite Z.land_spec, Z.bits_0, Z.pow2_bits_eqb by lia.
    destruct (Z.eqb_spec N j); [|reflexivity]. subst j.
    rewrite (testbit_above N w N) by lia. reflexivity. }
  rewrite Z.add_nocarry_lxor by exact Hl.
  apply Z.bits_inj'. intros j Hj.
  rewrite Z.lxor_spec, Z.lor_spec, Z.pow2_bits_eqb by lia.
  destruct (Z.eqb_spec N j); [|reflexivity]. subst j.
  rewrite (testbit_above N w N) by lia. reflexivity.
Qed.

(** The encoder reads the bits [1 .. n] of the value only. *)
Lemma encode_loop_ext n : forall c v w o,
  (forall i, 0 < i <= Z.of_nat n -> Z.testbit v i = Z.testbit w i) ->
  encode_loop n c v o = encode_loop n c w o.
Proof.
  induction n as [|n IH]; intros c v w o H; [reflexivity|].
  rewrite !encode_loop_S. rewrite (H (Z.of_nat (S n))) by lia.
  destruct ((0 <? c) && (c <=? Z.of_nat (S n))); [|reflexivity].
  destruct (Z.testbit w (Z.of_nat (S n))); apply IH; intros i Hi;
    apply H; lia.
Qed.

Lemma encode_loop_mod n c v o :
  encode_loop n c (v mod 2 ^ (Z.of_nat n + 1)) o = encode_loop n c v o.
Proof.
  apply encode_loop_ext. intros i Hi.
  rewrite Z.testbit_mod_pow2 by lia.
  replace (i <? Z.of_nat n + 1) with true by (symmetry; apply Z.ltb_lt; lia).
  reflexivity.
Qed.

Lemma bitcount_mod_same n k v :
  Z.of_nat n <= k -> bitcount n (v mod 2 ^ k) = bitcount n v.
Proof.
  intros H. rewrite bitcount_mod by lia. f_equal. lia.
Qed.

Lemma bitcount_ones n : bitcount n (Z.ones (Z.of_nat n)) = Z.of_nat n.
Proof.
  assert (G : forall m, (m <= n)%nat ->
            bitcount m (Z.ones (Z.of_nat n)) = Z.of_nat m).
  { induction m as [|m IH]; intros Hm; [reflexivity|].
    rewrite bitcount_S, IH by lia.
    rewrite Z.ones_spec_low by lia. cbn [Z.b2z]. lia. }
  apply G. lia.
Qed.

(** Offsets grow with the value: the encoder is strictly increasing on the
    values of one class. *)
Lemma encode_loop_mono n : forall c v w,
  Z.of_nat n <= 63 ->
  bitcount (S n) v = c -> bitcount (S n) w = c ->
  v mod 2 ^ (Z.of_nat n + 1) < w mod 2 ^ (Z.of_nat n + 1) ->
  encode_loop n c v 0 < encode_loop n c w 0.
Proof.
  induction n as [|n IH]; intros c v w Hn Hv Hw Hlt.
  - exfalso. cbn [bitcount] in Hv, Hw.
    change (Z.of_nat 0 + 1) with (0 + 1) in Hlt.
    rewrite !mod_pow2_succ in Hlt by lia.
    change (Z.of_nat 0) with 0 in *.
    rewrite !Z.pow_0_r, !Z.mod_1_r in Hlt. lia.
  - pose proof (bitcount_range (S n) v) as Hrv.
    pose proof (bitcount_range (S n) w) as Hrw.
    rewrite bitcount_S in Hv, Hw.
    set (N := Z.of_nat (S n)) in *.
    assert (HN : Z.of_nat n + 1 = N) by (unfold N; lia).
    rewrite !mod_pow2_succ in Hlt by lia.
    assert (Hpow : 0 < 2 ^ N) by (apply Z.pow_pos_nonneg; lia).
    pose proof (Z.mod_pos_bound v (2 ^ N) Hpow) as Hmv.
    pose proof (Z.mod_pos_bound w (2 ^ N) Hpow) as Hmw.
    rewrite !encode_loop_S. fold N.
    destruct (Z.testbit v N) eqn:Bv, (Z.testbit w N) eqn:Bw;
      cbn [Z.b2z] in Hv, Hw, Hlt.
    + (* both set *)
      destruct (Z.leb_spec c N) as [HcN|HcN].
      * replace (0 <? c) with true by (symmetry; apply Z.ltb_lt; lia).
        cbn [andb]. rewrite Z.add_0_l.
        pose proof (binomial_range N c ltac:(lia) ltac:(lia)) as Hb.
        rewrite (wrap64_small (binomial N c)) by lia.
        pose proof (binomial_range N (c - 1) ltac:(lia) ltac:(lia)) as Hb1.
        destruct (encode_loop_spec n (c - 1) v (binomial N c))
          as [_ E1]; try rewrite HN; try lia.
        destruct (encode_loop_spec n (c - 1) w (binomial N c))
          as [_ E2]; try rewrite HN; try lia.
        rewrite E1, E2.
        assert (encode_loop n (c - 1) v 0 < encode_loop n (c - 1) w 0).
        { apply IH; try lia. rewrite HN. lia. }
        lia.
      * exfalso.
        assert (Hfv : bitcount (S n) v = Z.of_nat (S n)) by lia.
        assert (Hfw : bitcount (S n) w = Z.of_nat (S n)) by lia.
        pose proof (bitcount_full _ _ Hfv) as Av.
        pose proof (bitcount_full _ _ Hfw) as Aw.
        rewrite (mod_pow2_full v N), (mod_pow2_full w N) in Hlt
          by (assumption || lia).
        lia.
    + (* the greater value has the bit clear *)
      exfalso. lia.
    + (* the smaller value has the bit clear, the greater has it set *)
      assert (Hc : 0 < c <= N) by lia.
      replace (0 <? c) with true by (symmetry; apply Z.ltb_lt; lia).
      replace (c <=? N) with true by (symmetry; apply Z.leb_le; lia).
      cbn [andb]. rewrite Z.add_0_l.
      pose proof (binomial_range N c ltac:(lia) ltac:(lia)) as Hb.
      rewrite (wrap64_small (binomial N c)) by lia.
      pose proof (binomial_range N (c - 1) ltac:(lia) ltac:(lia)) as Hb1.
      pose proof (encode_loop_bound n c v ltac:(lia) ltac:(lia)) as Bd.
      rewrite HN in Bd.
      destruct (encode_loop_spec n (c - 1) w (binomial N c))
        as [E1 _]; try rewrite HN; try lia.
    + (* both clear *)
      destruct (Z.ltb_spec 0 c) as [Hc0|Hc0].
      * replace (c <=? N) with true by (symmetry; apply Z.leb_le; lia).
        cbn [andb]. apply IH; try lia. rewrite HN. lia.
      * exfalso.
        assert (Hzv : bitcount (S n) v = 0) by lia.
        assert (Hzw : bitcount (S n) w = 0) by lia.
        pose proof (bitcount_none _ _ Hzv) as Av.
        pose proof (bitcount_none _ _ Hzw) as Aw.
        assert (Z0 : forall x, (forall i, 0 <= i < Z.of_nat (S n) ->
                      Z.testbit x i = false) -> x mod 2 ^ N = 0).
        { intros x Hx. apply Z.bits_inj'. intros i Hi.
          rewrite Z.testbit_mod_pow2, Z.bits_0 by lia.
          destruct (Z.ltb_spec i N); cbn [andb]; [apply Hx; lia|reflexivity]. }
        rewrite (Z0 v Av), (Z0 w Aw) in Hlt. lia.
Qed.

(** Decoding an offset below the number of values of the class builds a
    value of that class whose offset it is.  [acc] holds the bits generated
    so far, all above bit [n]. *)
Lemma decode_loop_inv n : forall c o acc,
  Z.of_nat n <= 63 -> 0 <= c <= Z.of_nat n + 1 ->
  0 <= o < binomial (Z.of_nat n + 1) c ->
  exists c' val w,
    decode_loop n c o acc = (c', val)
    /\ 0 <= c' <= c
    /\ 0 <= w < 2 ^ (Z.of_nat n + 1)
    /\ Z.lor val (Z.ones c') = Z.lor acc w
    /\ bitcount (S n) w = c
    /\ encode_loop n c w 0 = o.
Proof.
  induction n as [|n IH]; intros c o acc Hn Hc Ho.
  - exists c, acc, (Z.ones c). split; [reflexivity|].
    change (Z.of_nat 0 + 1) with 1 in *.
    assert (Hc' : c = 0 \/ c = 1) by lia.
    assert (B0 : binomial 1 0 = 1) by (vm_compute; reflexivity).
    assert (B1 : binomial 1 1 = 1) by (vm_compute; reflexivity).
    destruct Hc' as [-> | ->]; rewrite ?B0, ?B1 in Ho;
      cbn [encode_loop bitcount];
      change (Z.ones 0) with 0; change (Z.ones 1) with 1;
      change (Z.of_nat 0) with 0;
      change (Z.testbit 0 0) with false; change (Z.testbit 1 0) with true;
      cbn [Z.b2z]; repeat split; lia.
  - set (N := Z.of_nat (S n)) in *.
    assert (HN : Z.of_nat n + 1 = N) by (unfold N; lia).
    assert (Hpow : 0 < 2 ^ N) by (apply Z.pow_pos_nonneg; lia).
    rewrite decode_loop_S. fold N.
    destruct (Z.leb_spec c N) as [HcN|HcN].
    + pose proof (binomial_range N c) as Hb.
      destruct (Z.leb_spec (binomial N c) o) as [Hge|Hlt].
      * (* bit [N] is set *)
        assert (Hc1 : 1 <= c).
        { destruct (Z.eq_dec c 0) as [->|]; [|lia].
          rewrite binomial_n_0 in Ho, Hge by lia. lia. }
        assert (Hp : binomial (N + 1) c = binomial N (c - 1) + binomial N c).
        { replace c with ((c - 1) + 1) at 1 by lia.
          rewrite binomial_pascal by lia.
          replace (c - 1 + 1) with c by lia. reflexivity. }
        rewrite (wrap64_small (c - 1)) by lia.
        destruct (IH (c - 1) (o - binomial N c)
                    (Z.lor acc (Z.shiftl 1 N)))
          as (c' & val & w & E & Hc' & Hw & L & Bc & En);
          try rewrite HN; try lia.
        rewrite HN in Hw.
        exists c', val, (2 ^ N + w).
        assert (Hbits : forall i, 0 <= i ->
                  Z.testbit (2 ^ N + w) i
                  = if i =? N then true else Z.testbit w i).
        { intros i Hi.
          rewrite pow2_add_lor by lia.
          rewrite Z.lor_spec, Z.pow2_bits_eqb by lia.
          destruct (Z.eqb_spec N i), (Z.eqb_spec i N); try lia;
            reflexivity. }
        split; [exact E|]. split; [lia|].
        split; [rewrite Z.pow_add_r, Z.pow_1_r by lia; lia|].
        split.
        { rewrite L. rewrite Z.shiftl_1_l, <- Z.lor_assoc. f_equal.
          symmetry. apply pow2_add_lor; lia. }
        split.
        { rewrite bitcount_S. fold N. rewrite Hbits, Z.eqb_refl by lia.
          cbn [Z.b2z].
          rewrite (bitcount_ext (S n) (2 ^ N + w) w); [lia|].
          intros i Hi. rewrite Hbits by lia.
          destruct (Z.eqb_spec i N); [lia|reflexivity]. }
        rewrite encode_loop_S. fold N.
        replace (0 <? c) with true by (symmetry; apply Z.ltb_lt; lia).
        replace (c <=? N) with true by (symmetry; apply Z.leb_le; lia).
        cbn [andb]. rewrite Hbits, Z.eqb_refl by lia.
        rewrite Z.add_0_l, (wrap64_small (binomial N c)) by lia.
        pose proof (binomial_range N (c - 1) ltac:(lia) ltac:(lia)) as Hb1.
        assert (Bc' : bitcount (S n) (2 ^ N + w) = c - 1).
        { rewrite (bitcount_ext (S n) (2 ^ N + w) w); [exact Bc|].
          intros i Hi. rewrite Hbits by lia.
          destruct (Z.eqb_spec i N); [lia|reflexivity]. }
        destruct (encode_loop_spec n (c - 1) (2 ^ N + w) (binomial N c))
          as [_ E1]; try rewrite HN; try lia.
        rewrite E1.
        rewrite (encode_loop_ext n (c - 1) (2 ^ N + w) w 0).
        -- lia.
        -- intros i Hi. rewrite Hbits by lia.
           destruct (Z.eqb_spec i N); [lia|reflexivity].
      * (* bit [N] is clear *)
        destruct (IH c o acc) as (c' & val & w & E & Hc' & Hw & L & Bc & En);
          try rewrite HN; try lia.
        rewrite HN in Hw.
        exists c', val, w.
        split; [exact E|]. split; [lia|].
        split; [rewrite Z.pow_add_r, Z.pow_1_r by lia; lia|].
        split; [exact L|].
        assert (Bn : Z.testbit w N = false)
          by (apply (testbit_above N); lia).
        split.
        { rewrite bitcount_S. fold N. rewrite Bn. cbn [Z.b2z]. lia. }
        rewrite encode_loop_S. fold N. rewrite Bn.
        destruct ((0 <? c) && (c <=? N)) eqn:Hcond; [exact En|].
        apply andb_false_iff in Hcond. destruct Hcond as [H0|H0].
        -- apply Z.ltb_ge in H0. assert (Hz : c = 0) by lia.
           rewrite Hz, encode_loop_0 in En. lia.
        -- apply Z.leb_gt in H0. lia.
    + (* every bit left is set *)
      assert (c = N + 1) by lia. subst c.
      rewrite binomial_n_n in Ho by lia.
      exists (N + 1), acc, (Z.ones (N + 1)).
      split; [reflexivity|]. split; [lia|].
      split; [rewrite Z.ones_equiv; assert (0 < 2 ^ (N + 1))
                by (apply Z.pow_pos_nonneg; lia); lia|].
      split; [reflexivity|].
      split.
      { replace (N + 1) with (Z.of_nat (S (S n))) by lia.
        apply bitcount_ones. }
      rewrite encode_loop_full by lia. lia.
Qed.

(** ** The bit vector *)

Lemma nbits_range x : 0 <= x < 2 ^ 64 -> 0 <= nbits x <= 64.
Proof.
  intros Hx. unfold nbits, clz. destruct (Z.ltb_spec x 2); [lia|].
  replace (x - 1 =? 0) with false by (symmetry; apply Z.eqb_neq; lia).
  assert (0 <= Z.log2 (x - 1)) by apply Z.log2_nonneg.
  assert (Z.log2 (x - 1) < 64) by (apply Z.log2_lt_pow2; lia).
  lia.
Qed.

(** [nbits x] bits hold every value below [x]. *)
Lemma nbits_fits x : 0 < x < 2 ^ 64 -> x <= 2 ^ nbits x.
Proof.
  intros Hx. unfold nbits, clz. destruct (Z.ltb_spec x 2).
  - change (2 ^ 0) with 1. lia.
  - replace (x - 1 =? 0) with false by (symmetry; apply Z.eqb_neq; lia).
    pose proof (Z.log2_spec (x - 1) ltac:(lia)) as [_ H2].
    replace (64 - (63 - Z.log2 (x - 1))) with (Z.succ (Z.log2 (x - 1)))
      by lia.
    lia.
Qed.

(** [nbits x] is the logarithm of [x] rounded up. *)
Lemma nbits_log2_up x : 0 <= x < 2 ^ 64 -> nbits x = Z.log2_up x.
Proof.
  intros Hx. unfold nbits, clz. destruct (Z.ltb_spec x 2).
  - destruct (Z.eq_dec x 0) as [->|Hne]; [reflexivity|].
    assert (x = 1) as -> by lia. reflexivity.
  - replace (x - 1 =? 0) with false by (symmetry; apply Z.eqb_neq; lia).
    rewrite Z.log2_up_eqn by lia.
    replace (Z.pred x) with (x - 1) by lia. lia.
Qed.

Lemma read_testbit v i w j :
  wf v -> 0 <= i -> 0 <= w -> 0 <= j ->
  Z.testbit (bit_vector_read v i w) j
  = (j <? w) && Z.testbit (data v) (i + j).
Proof.
  intros [Hs Hd] Hi Hw Hj. unfold bit_vector_read.
  destruct (Z.ltb_spec i (BitVector.size v)).
  - rewrite Z.land_spec, Z.shiftr_spec, Z.testbit_ones_nonneg by lia.
    rewrite (Z.add_comm j i). apply andb_comm.
  - rewrite Z.bits_0, (testbit_above (BitVector.size v)) by lia.
    rewrite andb_false_r. reflexivity.
Qed.

Lemma read_range v i w : 0 <= w -> 0 <= bit_vector_read v i w < 2 ^ w.
Proof.
  intros Hw. unfold bit_vector_read.
  destruct (i <? BitVector.size v).
  - rewrite Z.land_ones by lia. apply Z.mod_pos_bound. lia.
  - split; [lia|]. apply Z.pow_pos_nonneg; lia.
Qed.

(** A read is the bits [i .. i + w) of the vector. *)
Lemma read_shiftr v i w :
  wf v -> 0 <= i -> 0 <= w ->
  bit_vector_read v i w = Z.shiftr (data v) i mod 2 ^ w.
Proof.
  intros Hv Hi Hw. apply Z.bits_inj'. intros j Hj.
  rewrite read_testbit, Z.testbit_mod_pow2, Z.shiftr_spec by side.
  rewrite (Z.add_comm j i). reflexivity.
Qed.

Lemma write_size v i w x :
  BitVector.size (fst (bit_vector_write v i w x)) = BitVector.size v.
Proof. reflexivity. Qed.

Lemma write_record_nbits v i w x :
  record_nbits (fst (bit_vector_write v i w x)) = record_nbits v.
Proof. reflexivity. Qed.

Lemma write_testbit v i w x j :
  0 <= BitVector.size v -> 0 <= i -> 0 <= w -> 0 <= j ->
  Z.testbit (data (fst (bit_vector_write v i w x))) j
  = (j <? BitVector.size v)
    && (if (i <=? j) && (j <? i + w) then Z.testbit x (j - i)
        else Z.testbit (data v) j).
Proof.
  intros Hs Hi Hw Hj. unfold bit_vector_write. cbn [fst data].
  rewrite Z.land_spec, Z.lor_spec, Z.ldiff_spec, !Z.shiftl_spec by lia.
  rewrite Z.land_spec, (Z.testbit_ones_nonneg (BitVector.size v) j) by lia.
  rewrite andb_comm. f_equal.
  destruct (Z.leb_spec i j); cbn [andb].
  - rewrite !Z.testbit_ones_nonneg by lia.
    destruct (Z.ltb_spec (j - i) w), (Z.ltb_spec j (i + w)); try lia;
      cbn [negb]; rewrite ?andb_false_r, ?andb_true_r, ?orb_false_r;
      reflexivity.
  - rewrite !(Z.testbit_neg_r _ (j - i)) by lia.
    cbn [negb]. rewrite andb_true_r, orb_false_r. reflexivity.
Qed.

Lemma write_wf v i w x : wf v -> wf (fst (bit_vector_write v i w x)).
Proof.
  intros [Hs Hd]. split; [exact Hs|].
  unfold bit_vector_write. cbn [fst data BitVector.size].
  rewrite Z.land_ones by lia. apply Z.mod_pos_bound.
  apply Z.pow_pos_nonneg; lia.
Qed.

Lemma read_write_same v i w x :
  wf v -> 0 <= i -> 0 <= w -> i + w <= BitVector.size v ->
  bit_vector_read (fst (bit_vector_write v i w x)) i w = x mod 2 ^ w.
Proof.
  intros Hv Hi Hw Hfit. pose proof (write_wf v i w x Hv) as Hv'.
  apply Z.bits_inj'. intros j Hj.
  rewrite read_testbit, Z.testbit_mod_pow2 by side.
  destruct (Z.ltb_spec j w); cbn [andb]; [|reflexivity].
  destruct Hv as [Hs Hd]. rewrite write_testbit by lia.
  replace (i + j <? BitVector.size v) with true
    by (symmetry; apply Z.ltb_lt; lia).
  replace (i <=? i + j) with true by (symmetry; apply Z.leb_le; lia).
  replace (i + j <? i + w) with true by (symmetry; apply Z.ltb_lt; lia).
  cbn [andb]. f_equal. lia.
Qed.

Lemma read_write_other v i w x i' w' :
  wf v -> 0 <= i -> 0 <= w -> 0 <= i' -> 0 <= w' ->
  i' + w' <= i \/ i + w <= i' ->
  bit_vector_read (fst (bit_vector_write v i w x)) i' w'
  = bit_vector_read v i' w'.
Proof.
  intros Hv Hi Hw Hi' Hw' Hdis. pose proof (write_wf v i w x Hv) as Hv'.
  apply Z.bits_inj'. intros j Hj.
  rewrite !read_testbit by side.
  destruct (Z.ltb_spec j w'); cbn [andb]; [|reflexivity].
  destruct Hv as [Hs Hd]. rewrite write_testbit by lia.
  replace ((i <=? i' + j) && (i' + j <? i + w)) with false.
  2:{ symmetry. apply andb_false_iff.
      destruct Hdis; [left; apply Z.leb_gt | right; apply Z.ltb_ge]; lia. }
  destruct (Z.ltb_spec (i' + j) (BitVector.size v)); cbn [andb];
    [reflexivity|].
  symmetry. apply (testbit_above (BitVector.size v)); lia.
Qed.

Lemma read_resize v n i w :
  wf v -> 0 <= i -> 0 <= w -> 0 <= n -> i + w <= n ->
  bit_vector_read (bit_vector_resize v n) i w = bit_vector_read v i w.
Proof.
  intros Hv Hi Hw Hn Hfit.
  destruct (Z.eq_dec w 0) as [->|Hw0].
  { unfold bit_vector_read. cbn [Z.ones]. rewrite !Z.land_0_r.
    destruct (_ <? _), (_ <? _); reflexivity. }
  assert (Hv' : wf (bit_vector_resize v n)).
  { split; [exact Hn|]. cbn [bit_vector_resize data BitVector.size].
    rewrite Z.land_ones by lia. apply Z.mod_pos_bound.
    apply Z.pow_pos_nonneg; lia. }
  apply Z.bits_inj'. intros j Hj.
  rewrite !read_testbit by side.
  destruct (Z.ltb_spec j w); cbn [andb]; [|reflexivity].
  cbn [bit_vector_resize data].
  rewrite Z.land_spec, Z.testbit_ones_nonneg by lia.
  replace (i + j <? n) with true by (symmetry; apply Z.ltb_lt; lia).
  apply andb_true_r.
Qed.

(** Records *)

Lemma read_record_eq v k :
  0 <= k -> 0 <= record_nbits v -> k * record_nbits v < 2 ^ 64 ->
  bit_vector_read_record v k
  = bit_vector_read v (k * record_nbits v) (record_nbits v).
Proof.
  intros Hk Hw Hlt. unfold bit_vector_read_record.
  rewrite wrap64_small by nia. reflexivity.
Qed.

Lemma write_record_wf v k x :
  wf v -> wf (fst (bit_vector_write_record v k x)).
Proof.
  intros Hv. unfold bit_vector_write_record. cbn [fst].
  apply write_wf. exact Hv.
Qed.

Lemma read_write_record_same v k x count :
  wf v -> 0 <= k < count -> 0 <= record_nbits v ->
  BitVector.size v = record_nbits v * count -> BitVector.size v < 2 ^ 64 ->
  0 <= x < 2 ^ record_nbits v ->
  bit_vector_read_record (fst (bit_vector_write_record v k x)) k = x.
Proof.
  intros Hv Hk Hw Hsz Hlt Hx.
  assert (Hkw : 0 <= k * record_nbits v /\
                k * record_nbits v + record_nbits v <= BitVector.size v) by nia.
  unfold bit_vector_read_record, bit_vector_write_record. cbn [fst].
  rewrite write_record_nbits, wrap64_small by lia.
  rewrite read_write_same by side. apply Z.mod_small. exact Hx.
Qed.

Lemma read_write_record_other v k x k' count :
  wf v -> 0 <= k < count -> 0 <= k' < count -> k <> k' ->
  0 <= record_nbits v ->
  BitVector.size v = record_nbits v * count -> BitVector.size v < 2 ^ 64 ->
  bit_vector_read_record (fst (bit_vector_write_record v k x)) k'
  = bit_vector_read_record v k'.
Proof.
  intros Hv Hk Hk' Hne Hw Hsz Hlt.
  assert (Hkw : 0 <= k * record_nbits v /\
                k * record_nbits v + record_nbits v <= BitVector.size v) by nia.
  assert (Hkw' : 0 <= k' * record_nbits v /\
                k' * record_nbits v + record_nbits v <= BitVector.size v) by nia.
  unfold bit_vector_read_record, bit_vector_write_record. cbn [fst].
  rewrite write_record_nbits, !wrap64_small by lia.
  apply read_write_other; try side. nia.
Qed.

Lemma records_alloc w count :
  0 <= w -> 0 <= count -> w * count < 2 ^ 64 ->
  records (bit_vector_alloc_record w count) w count.
Proof.
  intros Hw Hc Hlt. unfold records, wf, bit_vector_alloc_record.
  cbn [BitVector.size record_nbits data].
  rewrite wrap64_small by nia.
  repeat split; try nia; apply Z.pow_pos_nonneg; nia.
Qed.

Lemma records_write v w count k x :
  records v w count -> records (fst (bit_vector_write_record v k x)) w count.
Proof.
  intros (Hv & Hw & Hs). split; [apply write_record_wf; exact Hv|].
  split; assumption.
Qed.

Lemma records_read_same v w count k x :
  records v w count -> 0 <= w -> w * count < 2 ^ 64 ->
  0 <= k < count -> 0 <= x < 2 ^ w ->
  bit_vector_read_record (fst (bit_vector_write_record v k x)) k = x.
Proof.
  intros (Hv & Hw & Hs) Hw0 Hlt Hk Hx. subst w.
  apply (read_write_record_same v k x count); try side.
Qed.

Lemma records_read_other v w count k x k' :
  records v w count -> 0 <= w -> w * count < 2 ^ 64 ->
  0 <= k < count -> 0 <= k' < count -> k <> k' ->
  bit_vector_read_record (fst (bit_vector_write_record v k x)) k'
  = bit_vector_read_record v k'.
Proof.
  intros (Hv & Hw & Hs) Hw0 Hlt Hk Hk' Hne. subst w.
  apply (read_write_record_other v k x k' count); try side.
Qed.

(** ** Locating the 1-bits of a word *)

(** [lowest_set] finds the lowest bit set at or above [k]. *)
Lemma lowest_set_spec x : forall n k y,
  0 <= k -> k <= y < k + Z.of_nat n -> Z.testbit x y = true ->
  k <= lowest_set n k x <= y
  /\ Z.testbit x (lowest_set n k x) = true
  /\ forall z, k <= z < lowest_set n k x -> Z.testbit x z = false.
Proof.
  induction n as [|n IH]; intros k y Hk Hy Hset; [lia|].
  cbn [lowest_set]. destruct (Z.testbit x k) eqn:Hb.
  - repeat split; try lia. exact Hb.
  - assert (y <> k) by (intros ->; congruence).
    destruct (IH (k + 1) y ltac:(lia) ltac:(lia) Hset) as (H1 & H2 & H3).
    repeat split; try lia; [exact H2|].
    intros z Hz. destruct (Z.eq_dec z k) as [->|]; [exact Hb|].
    apply H3. lia.
Qed.

(** More 1-bits below [m] than below [l]: one of them is in between. *)
Lemma bitcount_gt_exists B : forall m l,
  (l <= m)%nat -> bitcount l B < bitcount m B ->
  exists x, Z.of_nat l <= x < Z.of_nat m /\ Z.testbit B x = true.
Proof.
  induction m as [|m IH]; intros l Hl Hlt.
  - assert (l = 0)%nat by lia. subst l. lia.
  - destruct (Nat.eq_dec l (S m)) as [->|Hne]; [lia|].
    rewrite bitcount_S in Hlt.
    destruct (Z.testbit B (Z.of_nat m)) eqn:Hb.
    + exists (Z.of_nat m). split; [lia|exact Hb].
    + cbn [Z.b2z] in Hlt.
      destruct (IH l ltac:(lia) ltac:(lia)) as (x & Hx & Hset).
      exists x. split; [lia|exact Hset].
Qed.

(** No 1-bit between [l] and [m]: the counts are equal. *)
Lemma bitcount_skip B : forall m l,
  (l <= m)%nat ->
  (forall z, Z.of_nat l <= z < Z.of_nat m -> Z.testbit B z = false) ->
  bitcount m B = bitcount l B.
Proof.
  induction m as [|m IH]; intros l Hl Hz.
  - assert (l = 0)%nat by lia. subst l. reflexivity.
  - destruct (Nat.eq_dec l (S m)) as [->|Hne]; [reflexivity|].
    rewrite bitcount_S, Hz by lia. cbn [Z.b2z].
    rewrite (IH l) by (try lia; intros z Hzz; apply Hz; lia). lia.
Qed.

Lemma select_bit_done {pf : Platform} fuel j rank i b :
  j <= rank -> select_bit fuel j rank i b = Ok i.
Proof.
  intros H. destruct fuel; cbn [select_bit];
    replace (rank <? j) with false by (symmetry; apply Z.ltb_ge; lia);
    reflexivity.
Qed.

(** Clearing bit [i] of a 64-bit word, as [block &= ~(1ULL << i)]. *)
Lemma clear_bit_spec {pf : Platform} b i x :
  0 <= b < 2 ^ 64 -> 0 <= i < 64 -> 0 <= x ->
  Z.testbit (Z.land b (wrap64 (Z.lnot (shl64 i)))) x
  = Z.testbit b x && negb (x =? i).
Proof.
  intros Hb Hi Hx. rewrite shl64_small by lia.
  rewrite Z.land_spec. unfold wrap64.
  rewrite Z.testbit_mod_pow2 by lia.
  destruct (Z.ltb_spec x 64) as [Hlt|Hge]; cbn [andb].
  - rewrite Z.lnot_spec, Z.pow2_bits_eqb by lia.
    rewrite (Z.eqb_sym i x). reflexivity.
  - rewrite (testbit_above 64 b x) by lia. reflexivity.
Qed.

(** The loop [for (i = -1; rank < j; rank ++)] of [rrr_select1] returns the
    index of the [(j - rank)]-th 1-bit of the block.  [b] is the block [B]
    with its bits below [lo] cleared. *)
Lemma select_bit_spec {pf : Platform} B : forall fuel j rank i0 b lo,
  0 <= B < 2 ^ 64 -> 0 <= b < 2 ^ 64 -> 0 <= lo <= 64 ->
  (forall x, 0 <= x -> Z.testbit b x = Z.testbit B x && (lo <=? x)) ->
  0 <= rank < j -> j < 2 ^ 64 -> (Z.to_nat (j - rank) <= fuel)%nat ->
  bitcount (Z.to_nat lo) B + (j - rank) <= bitcount 64 B ->
  exists i,
    select_bit fuel j rank i0 b = Ok i
    /\ 0 <= i < 64 /\ Z.testbit B i = true
    /\ bitcount (Z.to_nat (i + 1)) B
       = bitcount (Z.to_nat lo) B + (j - rank).
Proof.
  induction fuel as [|fuel IH];
    intros j rank i0 b lo HB Hb Hlo Hbits Hr Hj Hfuel Hcount; [lia|].
  cbn [select_bit].
  replace (rank <? j) with true by (symmetry; apply Z.ltb_lt; lia).
  destruct (bitcount_gt_exists B 64 (Z.to_nat lo) ltac:(lia) ltac:(lia))
    as (x & Hx & Hset).
  assert (Hbx : Z.testbit b x = true).
  { rewrite Hbits, Hset by lia. apply Z.leb_le. lia. }
  assert (Hnz : b <> 0) by (intros ->; rewrite Z.bits_0 in Hbx; discriminate).
  replace (b =? 0) with false by (symmetry; apply Z.eqb_neq; exact Hnz).
  destruct (lowest_set_spec b 64 0 x ltac:(lia) ltac:(lia) Hbx)
    as (Hi & Hbi & Hmin).
  fold (ctz b) in Hi, Hbi, Hmin. set (i := ctz b) in *.
  assert (HBi : Z.testbit B i = true /\ lo <= i).
  { rewrite Hbits in Hbi by lia. apply andb_true_iff in Hbi.
    destruct Hbi as [H1 H2]. apply Z.leb_le in H2. split; assumption. }
  destruct HBi as [HBi Hloi].
  assert (Hcnt : bitcount (Z.to_nat (i + 1)) B
                 = bitcount (Z.to_nat lo) B + 1).
  { replace (Z.to_nat (i + 1)) with (S (Z.to_nat i)) by lia.
    rewrite bitcount_S, Z2Nat.id, HBi by lia. cbn [Z.b2z].
    rewrite (bitcount_skip B (Z.to_nat i) (Z.to_nat lo)); [reflexivity|lia|].
    intros z Hz. specialize (Hmin z ltac:(lia)).
    rewrite Hbits in Hmin by lia.
    replace (lo <=? z) with true in Hmin by (symmetry; apply Z.leb_le; lia).
    rewrite andb_true_r in Hmin. exact Hmin. }
  rewrite (wrap64_small (rank + 1)) by lia.
  destruct (Z.le_gt_cases j (rank + 1)) as [Hlast|Hmore].
  - rewrite select_bit_done by lia.
    exists i. split; [reflexivity|]. split; [lia|]. split; [exact HBi|].
    rewrite Hcnt. lia.
  - set (b' := Z.land b (wrap64 (Z.lnot (shl64 i)))).
    assert (Hb' : 0 <= b' < 2 ^ 64) by (apply land_range; exact Hb).
    assert (Hbits' : forall z, 0 <= z ->
              Z.testbit b' z = Z.testbit B z && (i + 1 <=? z)).
    { intros z Hz. unfold b'. rewrite clear_bit_spec by lia.
      rewrite Hbits by lia.
      destruct (Z.leb_spec (i + 1) z) as [H1|H1].
      - replace (lo <=? z) with true by (symmetry; apply Z.leb_le; lia).
        replace (z =? i) with false by (symmetry; apply Z.eqb_neq; lia).
        destruct (Z.testbit B z); reflexivity.
      - destruct (Z.eqb_spec z i) as [Heq|Hne]; cbn [negb];
          [rewrite !andb_false_r; reflexivity|].
        destruct (Z.leb_spec lo z) as [H2|H2];
          [|rewrite !andb_false_r; reflexivity].
        specialize (Hmin z ltac:(lia)). rewrite Hbits in Hmin by lia.
        replace (lo <=? z) with true in Hmin
          by (symmetry; apply Z.leb_le; lia).
        rewrite andb_true_r in Hmin. rewrite Hmin. reflexivity. }
    destruct (IH j (rank + 1) i b' (i + 1) HB Hb' ltac:(lia) Hbits'
                ltac:(lia) Hj ltac:(lia) ltac:(lia))
      as (i' & E & Hi' & HBi' & Hc').
    exists i'. split; [exact E|]. split; [lia|]. split; [exact HBi'|].
    rewrite Hc', Hcnt. lia.
Qed.

(** ** Construction *)

Section Construction.

Context {pf : Platform}.

Variable bits : bit_vector_t.
Variables u s : Z.

Hypothesis bits_wf : wf bits.
Hypothesis size_range : 0 < BitVector.size bits < 2 ^ 32.
Hypothesis u_range : 1 <= u <= 64.
Hypothesis s_range : u <= s <= 255.

Local Abbreviation n := (BitVector.size bits).
Local Abbreviation bits1 := (set_record_nbits bits u).
Local Abbreviation nblocks := ((n + u - 1) / u).
Local Abbreviation nmarkers := ((n + s - 1) / s).
Local Abbreviation wmax := (offset_nbits u (u / 2)).
Local Abbreviation block := (Source.block bits u).
Local Abbreviation class_of := (Source.class_of bits u).
Local Abbreviation width_of := (Source.width_of bits u).
Local Abbreviation enc_of := (Source.enc_of bits u).
Local Abbreviation pos := (Source.pos bits u).
Local Abbreviation inv := (Source.inv bits u s).
Local Abbreviation alloc_init := (Source.alloc_init bits u s).
Local Abbreviation built := (Source.built bits u s).

Lemma nblocks_spec : (nblocks - 1) * u < n <= nblocks * u.
Proof.
  pose proof (Z.div_mod (n + u - 1) u ltac:(lia)) as H.
  pose proof (Z.mod_pos_bound (n + u - 1) u ltac:(lia)) as Hr.
  nia.
Qed.

Lemma nmarkers_spec : (nmarkers - 1) * s < n <= nmarkers * s.
Proof.
  pose proof (Z.div_mod (n + s - 1) s ltac:(lia)) as H.
  pose proof (Z.mod_pos_bound (n + s - 1) s ltac:(lia)) as Hr.
  nia.
Qed.

Lemma nblocks_range : 1 <= nblocks <= n.
Proof. pose proof nblocks_spec. nia. Qed.

Lemma nmarkers_range : 1 <= nmarkers <= n.
Proof. pose proof nmarkers_spec. nia. Qed.

Lemma block_lt k : 0 <= k -> (k < nblocks <-> k * u < n).
Proof. intros Hk. pose proof nblocks_spec. nia. Qed.

Lemma bits1_wf : wf bits1.
Proof. exact bits_wf. Qed.

Lemma block_shiftr k :
  0 <= k <= n -> block k = Z.shiftr (data bits) (k * u) mod 2 ^ u.
Proof.
  intros Hk. unfold Source.block, bit_vector_read_record.
  cbn [record_nbits set_record_nbits].
  rewrite wrap64_small by nia.
  change (data bits) with (data bits1) at 1.
  apply read_shiftr; [exact bits1_wf | nia | lia].
Qed.

Lemma block_range k : 0 <= block k < 2 ^ u.
Proof.
  unfold Source.block, bit_vector_read_record. apply read_range.
  cbn [record_nbits set_record_nbits]. lia.
Qed.

Lemma block_range64 k : 0 <= block k < 2 ^ 64.
Proof.
  pose proof (block_range k).
  assert (2 ^ u <= 2 ^ 64) by (apply Z.pow_le_mono_r; lia). lia.
Qed.

Lemma class_bitcount k : class_of k = bitcount (Z.to_nat u) (block k).
Proof.
  unfold Source.class_of. rewrite popcount_bitcount by apply block_range64.
  apply bitcount_small; [|lia]. rewrite Z2Nat.id by lia. apply block_range.
Qed.

Lemma class_range k : 0 <= class_of k <= u.
Proof.
  rewrite class_bitcount. pose proof (bitcount_range (Z.to_nat u) (block k)).
  lia.
Qed.

(** The 1-bits of the source below [i]. *)
Lemma rank1_app i w :
  0 <= i -> 0 <= w ->
  rank1 bits (i + w)
  = rank1 bits i + bitcount (Z.to_nat w) (Z.shiftr (data bits) i).
Proof.
  intros Hi Hw. unfold rank1. rewrite Z2Nat.inj_add by lia.
  rewrite bitcount_app, Z2Nat.id by lia. reflexivity.
Qed.

Lemma rank1_block k w :
  0 <= k <= n -> 0 <= w <= u ->
  rank1 bits (k * u + w)
  = rank1 bits (k * u) + bitcount (Z.to_nat w) (block k).
Proof.
  intros Hk Hw. rewrite rank1_app by nia. f_equal.
  rewrite block_shiftr, bitcount_mod by lia.
  rewrite Nat.min_l by lia. reflexivity.
Qed.

Lemma rank1_class k :
  0 <= k <= n -> rank1 bits ((k + 1) * u) = rank1 bits (k * u) + class_of k.
Proof.
  intros Hk. rewrite class_bitcount, <- rank1_block by lia. f_equal. lia.
Qed.

Lemma rank1_mono i j : 0 <= i <= j -> rank1 bits i <= rank1 bits j.
Proof.
  intros H. replace j with (i + (j - i)) by lia.
  rewrite rank1_app by lia.
  pose proof (bitcount_range (Z.to_nat (j - i)) (Z.shiftr (data bits) i)).
  lia.
Qed.

Lemma rank1_above i : n <= i -> rank1 bits i = rank1 bits n.
Proof.
  intros H. unfold rank1.
  replace (Z.to_nat i) with (Z.to_nat n + (Z.to_nat i - Z.to_nat n))%nat
    by lia.
  apply bitcount_zero_above. intros j Hj.
  destruct bits_wf as [_ Hd]. apply (testbit_above n); [exact Hd | lia].
Qed.

Lemma rank1_range i : 0 <= rank1 bits i <= n.
Proof.
  unfold rank1.
  pose proof (bitcount_range (Z.to_nat i) (data bits)) as H.
  destruct (Z.le_gt_cases n i) as [Hi|Hi].
  - fold (rank1 bits i). rewrite rank1_above by lia. unfold rank1.
    pose proof (bitcount_range (Z.to_nat n) (data bits)). lia.
  - lia.
Qed.

Lemma width_range k : 0 <= width_of k <= wmax.
Proof.
  pose proof (class_range k) as Hc. unfold Source.width_of. split.
  - unfold offset_nbits. apply nbits_range.
    pose proof (binomial_range u (class_of k)). lia.
  - apply offset_nbits_max; lia.
Qed.

Lemma wmax_range : 0 <= wmax <= 64.
Proof.
  unfold offset_nbits. apply nbits_range.
  assert (0 <= u / 2 <= u).
  { split; [apply Z.div_pos; lia|]. apply Z.div_le_upper_bound; lia. }
  pose proof (binomial_range u (u / 2)). lia.
Qed.

Lemma pos_succ k : 0 <= k -> pos (k + 1) = pos k + width_of k.
Proof.
  intros Hk. unfold Source.pos. replace (Z.to_nat (k + 1)) with (S (Z.to_nat k)) by lia.
  cbn [Source.pos_nat]. rewrite Z2Nat.id by lia. reflexivity.
Qed.

Lemma pos_bound k : 0 <= k -> 0 <= pos k <= k * wmax.
Proof.
  intros Hk. unfold Source.pos.
  assert (H : forall m, 0 <= Source.pos_nat bits u m <= Z.of_nat m * wmax).
  { induction m as [|m IH]; [cbn; lia|].
    cbn [Source.pos_nat]. pose proof (width_range (Z.of_nat m)).
    rewrite Nat2Z.inj_succ. nia. }
  specialize (H (Z.to_nat k)). rewrite Z2Nat.id in H by lia. exact H.
Qed.

Lemma pos_mono j k : 0 <= j <= k -> pos j <= pos k.
Proof.
  intros H. replace k with (j + Z.of_nat (Z.to_nat (k - j))) by lia.
  induction (Z.to_nat (k - j)) as [|m IH]; [rewrite Z.add_0_r; lia|].
  rewrite Nat2Z.inj_succ.
  replace (j + Z.succ (Z.of_nat m)) with ((j + Z.of_nat m) + 1) by lia.
  rewrite pos_succ by lia. pose proof (width_range (j + Z.of_nat m)). lia.
Qed.

Lemma encode_ok k :
  rrr_encode_block u (class_of k) (block k) = Ok (enc_of k).
Proof. apply rrr_encode_block_eq; [lia | apply block_range]. Qed.

Lemma enc_bound k : 0 <= enc_of k < binomial u (class_of k).
Proof.
  assert (H : bitcount (S (Z.to_nat (u - 1))) (block k) = class_of k).
  { rewrite class_bitcount. f_equal. lia. }
  pose proof (encode_loop_bound (Z.to_nat (u - 1)) (class_of k) (block k)
                ltac:(lia) H) as Hb.
  replace (Z.of_nat (Z.to_nat (u - 1)) + 1) with u in Hb by lia.
  exact Hb.
Qed.

Lemma enc_fits k : 0 <= enc_of k < 2 ^ width_of k.
Proof.
  pose proof (enc_bound k) as H. pose proof (class_range k) as Hc.
  pose proof (binomial_range u (class_of k) ltac:(lia) ltac:(lia)) as Hb.
  unfold Source.width_of, offset_nbits.
  pose proof (nbits_fits (binomial u (class_of k)) ltac:(lia)). lia.
Qed.

(** *** The loop invariant of [rrr_alloc] *)

(** The first [want] bits of a block, as [rrr_alloc] takes them. *)
Lemma prefix_ok k want :
  1 <= want <= u ->
  popcount (if 64 <=? want then block k
            else Z.land (block k) (wrap64 (shl64 want - 1)))
  = bitcount (Z.to_nat want) (block k).
Proof.
  intros Hw. pose proof (block_range k) as Hb.
  pose proof (block_range64 k) as Hb64.
  destruct (Z.leb_spec 64 want).
  - rewrite popcount_bitcount by assumption.
    assert (want = 64) as -> by lia. reflexivity.
  - rewrite mask_ones by lia.
    assert (0 <= Z.land (block k) (Z.ones want) < 2 ^ 64)
      by (apply land_range; assumption).
    rewrite popcount_bitcount, bitcount_land_ones by lia.
    rewrite Nat.min_r by lia. reflexivity.
Qed.

Lemma alloc_step_eq k st :
  alloc_step bits1 u s k st =
  let classes :=
    fst (bit_vector_write_record (a_classes st) (a_class_at st) (class_of k)) in
  let offsets :=
    fst (bit_vector_write (a_offsets st) (a_offset_at st) (width_of k)
           (enc_of k)) in
  let class_at := wrap64 (a_class_at st + 1) in
  let offset_at := wrap64 (a_offset_at st + width_of k) in
  let marker_extra := signed64 (wrap64 (u - a_marker_need st)) in
  if 0 <=? marker_extra then
    let want := wrap64 (u - marker_extra) in
    let prefix :=
      if 64 <=? want then block k
      else Z.land (block k) (wrap64 (shl64 want - 1)) in
    Ok {| a_rank := a_rank st + class_of k;
          a_class_at := class_at;
          a_offset_at := offset_at;
          a_marker_at := wrap64 (a_marker_at st + 1);
          a_marker_need := wrap64 (s - marker_extra);
          a_classes := classes;
          a_offsets := offsets;
          a_marked_ranks :=
            fst (bit_vector_write_record (a_marked_ranks st) (a_marker_at st)
                   (wrap64 (a_rank st + popcount prefix)));
          a_marked_offsets :=
            fst (bit_vector_write_record (a_marked_offsets st)
                   (a_marker_at st) offset_at) |}
  else
    Ok {| a_rank := a_rank st + class_of k;
          a_class_at := class_at;
          a_offset_at := offset_at;
          a_marker_at := a_marker_at st;
          a_marker_need := wrap64 (a_marker_need st - u);
          a_classes := classes;
          a_offsets := offsets;
          a_marked_ranks := a_marked_ranks st;
          a_marked_offsets := a_marked_offsets st |}.
Proof.
  pose proof (encode_ok k) as E.
  unfold Source.enc_of, Source.class_of, Source.block in E.
  unfold alloc_step, Source.width_of, Source.enc_of, Source.class_of,
    Source.block. cbv zeta.
  rewrite E. cbn [bind]. unfold bit_vector_write_record, bit_vector_write.
  cbn [fst]. reflexivity.
Qed.

Lemma sizes_fit :
  0 <= nbits (u + 1) <= 64 /\ 0 <= nbits (n + 1) <= 64
  /\ 0 <= nbits (nblocks * wmax) <= 64 /\ 0 <= nblocks * wmax < 2 ^ 40
  /\ nblocks < 2 ^ 32 /\ nmarkers < 2 ^ 32.
Proof.
  pose proof nblocks_range. pose proof nmarkers_range. pose proof wmax_range.
 
  assert (0 <= nblocks * wmax < 2 ^ 40) by nia.
  repeat split; try apply nbits_range; try lia.
Qed.

Lemma alloc_step_inv k st :
  0 <= k < nblocks -> inv k st ->
  exists st', alloc_step bits1 u s k st = Ok st' /\ inv (k + 1) st'.
Proof.
  intros Hk [Hca Hoa Hrk Hma Hmk Hnd Hcv Hofw Hofs Hrv Hmv Hcl Hof Hrs Hmo].
  pose proof sizes_fit as (Hw1 & Hw2 & Hw3 & Hw4 & Hnb & Hnm).
  pose proof nblocks_spec as Hbs. pose proof nmarkers_spec as Hms.
  pose proof nblocks_range as Hbr. pose proof nmarkers_range as Hmr.
  pose proof wmax_range as Hwm.
  assert (Hku : k * u < n) by (apply block_lt; lia).
  pose proof (pos_bound k ltac:(lia)) as Hpk.
  pose proof (pos_bound (k + 1) ltac:(lia)) as Hpk1.
  pose proof (pos_succ k ltac:(lia)) as Hps.
  pose proof (width_range k) as Hwk.
  pose proof (class_range k) as Hck.
  pose proof (enc_fits k) as Hek.
  assert (Hpk1' : pos (k + 1) <= nblocks * wmax).
  { assert ((k + 1) * wmax <= nblocks * wmax)
      by (apply Z.mul_le_mono_nonneg_r; lia).
    lia. }
  rewrite alloc_step_eq. cbv zeta.
  rewrite signed64_wrap64 by lia.
  rewrite Hca, Hoa.
  rewrite (wrap64_small (k + 1)) by lia.
  rewrite (wrap64_small (pos k + width_of k)) by lia.
  rewrite <- Hps.
  set (m := a_marker_at st) in *. set (need := a_marker_need st) in *.
  assert (Hclasses : forall j, 0 <= j < k + 1 ->
    bit_vector_read_record
      (fst (bit_vector_write_record (a_classes st) k (class_of k))) j
    = class_of j).
  { intros j Hj. destruct (Z.eq_dec j k) as [->|Hne].
    - apply (records_read_same _ _ _ _ _ Hcv); try lia; [nia|].
      pose proof (nbits_fits (u + 1) ltac:(lia)). lia.
    - rewrite (records_read_other _ _ _ _ _ _ Hcv); try lia; [|nia].
      apply Hcl. lia. }
  assert (Hoffsets : forall j, 0 <= j < k + 1 ->
    bit_vector_read
      (fst (bit_vector_write (a_offsets st) (pos k) (width_of k) (enc_of k)))
      (pos j) (width_of j)
    = enc_of j).
  { intros j Hj. pose proof (width_range j). pose proof (pos_bound j ltac:(lia)).
    destruct (Z.eq_dec j k) as [->|Hne].
    - rewrite read_write_same by side. apply Z.mod_small. exact Hek.
    - rewrite read_write_other; try side.
      + apply Hof. lia.
      + left. rewrite <- pos_succ by lia. apply pos_mono. lia. }
  destruct (Z.leb_spec 0 (u - need)) as [Hemit|Hskip].
  - replace (u - (u - need)) with need by lia.
    rewrite (wrap64_small need) by lia.
    assert (Hm : m < nmarkers) by nia.
    rewrite (prefix_ok k need) by lia.
    rewrite Hrk, <- rank1_block by lia.
    replace (k * u + need) with ((m + 1) * s) by lia.
    pose proof (rank1_range ((m + 1) * s)) as Hrr.
    rewrite (wrap64_small (rank1 bits ((m + 1) * s))) by lia.
    eexists. split; [reflexivity|].
    constructor; cbn [a_rank a_class_at a_offset_at a_marker_at a_marker_need
      a_classes a_offsets a_marked_ranks a_marked_offsets].
    + reflexivity.
    + reflexivity.
    + rewrite rank1_class by lia. reflexivity.
    + rewrite wrap64_small by lia. lia.
    + rewrite !wrap64_small by lia. lia.
    + rewrite wrap64_small by lia. lia.
    + apply records_write. exact Hcv.
    + apply write_wf. exact Hofw.
    + exact Hofs.
    + apply records_write. exact Hrv.
    + apply records_write. exact Hmv.
    + exact Hclasses.
    + exact Hoffsets.
    + rewrite wrap64_small by lia. intros m' Hm'.
      destruct (Z.eq_dec m' m) as [->|Hne].
      * apply (records_read_same _ _ _ _ _ Hrv); try lia; [nia|].
        pose proof (nbits_fits (n + 1) ltac:(lia)). lia.
      * rewrite (records_read_other _ _ _ _ _ _ Hrv); try lia; [|nia].
        apply Hrs. lia.
    + rewrite wrap64_small by lia. intros m' j Hm' Hj Hcross Hlast.
      destruct (Z.eq_dec m' m) as [->|Hne].
      * assert (j < k + 1) by (apply (Z.mul_lt_mono_pos_r u); lia).
        assert (k < j + 1) by (apply (Z.mul_lt_mono_pos_r u); lia).
        assert (j = k) as -> by lia.
        apply (records_read_same _ _ _ _ _ Hmv); try lia; [nia|].
        split; [lia|].
        destruct (Z.eq_dec wmax 0) as [Hz|Hnz].
        -- assert (pos (k + 1) = 0) by nia.
           assert (0 < 2 ^ nbits (nblocks * wmax))
             by (apply Z.pow_pos_nonneg; lia).
           lia.
        -- assert (k + 1 < nblocks) by (apply block_lt; lia).
           assert ((k + 1) * wmax < nblocks * wmax)
             by (apply Z.mul_lt_mono_pos_r; lia).
           pose proof (nbits_fits (nblocks * wmax) ltac:(lia)). lia.
      * rewrite (records_read_other _ _ _ _ _ _ Hmv); try lia; [|nia].
        apply (Hmo m' j); lia.
  - eexists. split; [reflexivity|].
    constructor; cbn [a_rank a_class_at a_offset_at a_marker_at a_marker_need
      a_classes a_offsets a_marked_ranks a_marked_offsets].
    + reflexivity.
    + reflexivity.
    + rewrite Hrk, rank1_class by lia. reflexivity.
    + exact Hma.
    + rewrite wrap64_small by lia. fold m. lia.
    + rewrite wrap64_small by lia. lia.
    + apply records_write. exact Hcv.
    + apply write_wf. exact Hofw.
    + exact Hofs.
    + exact Hrv.
    + exact Hmv.
    + exact Hclasses.
    + exact Hoffsets.
    + exact Hrs.
    + exact Hmo.
Qed.

Lemma alloc_loop_inv todo : forall k st,
  0 <= k -> k + Z.of_nat todo = nblocks -> inv k st ->
  exists st',
    alloc_loop bits1 u s todo k st = Ok st' /\ inv nblocks st'.
Proof.
  induction todo as [|todo IH]; intros k st Hk Hsum Hinv.
  - exists st. split; [reflexivity|].
    replace nblocks with k by lia. exact Hinv.
  - cbn [alloc_loop].
    destruct (alloc_step_inv k st ltac:(lia) Hinv) as (st1 & E1 & Hinv1).
    rewrite E1. cbn [bind]. apply IH; [lia | lia | exact Hinv1].
Qed.

Lemma alloc_init_inv : inv 0 alloc_init.
Proof.
  pose proof sizes_fit as (Hw1 & Hw2 & Hw3 & Hw4 & Hnb & Hnm).
  pose proof nblocks_range as Hbr. pose proof nmarkers_range as Hmr.
  assert (Hso : wrap64 (nblocks * wmax) = nblocks * wmax)
    by (apply wrap64_small; lia).
  constructor; unfold Source.alloc_init;
    cbn [a_rank a_class_at a_offset_at a_marker_at a_marker_need
      a_classes a_offsets a_marked_ranks a_marked_offsets];
    try lia; try (intros; lia); try reflexivity.
  - apply records_alloc; nia.
  - unfold wf, bit_vector_alloc. cbn [BitVector.size data]. rewrite Hso.
    repeat split; try lia; apply Z.pow_pos_nonneg; lia.
  - cbn [bit_vector_alloc BitVector.size]. exact Hso.
  - apply records_alloc; nia.
  - cbn [bit_vector_alloc BitVector.size]. rewrite Hso.
    apply records_alloc; nia.
Qed.

Lemma set_record_nbits_restore :
  set_record_nbits bits1 (record_nbits bits) = bits.
Proof. destruct bits. reflexivity. Qed.

(** [rrr_alloc] returns, leaves its input as it found it, and the instance
    describes the source. *)
Theorem rrr_alloc_built :
  exists r, rrr_alloc bits u s = Ok (bits, r) /\ built r.
Proof.
  pose proof sizes_fit as (Hw1 & Hw2 & Hw3 & Hw4 & Hnb & Hnm).
  pose proof nblocks_spec as Hbs. pose proof nblocks_range as Hbr.
 
  destruct (alloc_loop_inv (Z.to_nat nblocks) 0 alloc_init
              ltac:(lia) ltac:(lia) alloc_init_inv) as (st & E & Hinv).
  unfold rrr_alloc.
  replace (0 <? BitVector.size bits) with true
    by (symmetry; apply Z.ltb_lt; lia).
  replace (u <=? MAX_BLOCK_NBITS) with true
    by (symmetry; apply Z.leb_le; unfold MAX_BLOCK_NBITS; lia).
  replace (u <=? s) with true by (symmetry; apply Z.leb_le; lia).
  replace (u =? 0) with false by (symmetry; apply Z.eqb_neq; lia).
  cbn [bind assert]. cbv zeta.
  fold alloc_init.
  rewrite E. cbn [bind]. rewrite set_record_nbits_restore.
  eexists. split; [reflexivity|].
  destruct Hinv as
    [Hca Hoa Hrk Hma Hmk Hnd Hcv Hofw Hofs Hrv Hmv Hcl Hof Hrs Hmo].
  constructor; cbn [size rank Rrr.nblocks Rrr.nmarkers block_nbits
    marker_nbits classes offsets marked_ranks marked_offsets];
    try reflexivity; try assumption.
  - rewrite Hrk. apply rank1_above. lia.
  - intros j Hj. rewrite Hoa.
    pose proof (pos_bound j ltac:(lia)). pose proof (width_range j).
    pose proof (pos_bound nblocks ltac:(lia)).
    rewrite read_resize; try side.
    + apply Hof. exact Hj.
    + rewrite <- pos_succ by lia. apply pos_mono. lia.
  - intros m Hm Hle. apply Hrs. split; [lia|].
    apply (Z.mul_lt_mono_pos_r s); lia.
  - intros m j Hm Hj Hcross Hlast. apply (Hmo m j); try lia.
    split; [lia|]. apply (Z.mul_lt_mono_pos_r s); [lia|].
    assert (j + 1 < nblocks) by (apply block_lt; lia).
    assert ((j + 1) * u < nblocks * u)
      by (apply Z.mul_lt_mono_pos_r; lia).
    lia.
Qed.

(** The offsets stream is cut to the bits written: the widths of all the
    blocks. *)
Lemma rrr_alloc_offsets :
  exists r,
    rrr_alloc bits u s = Ok (bits, r)
    /\ BitVector.size (offsets r) = pos nblocks /\ wf (offsets r).
Proof.
  pose proof sizes_fit as (Hw1 & Hw2 & Hw3 & Hw4 & Hnb & Hnm).
  pose proof nblocks_spec as Hbs. pose proof nblocks_range as Hbr.
  destruct (alloc_loop_inv (Z.to_nat nblocks) 0 alloc_init
              ltac:(lia) ltac:(lia) alloc_init_inv) as (st & E & Hinv).
  unfold rrr_alloc.
  replace (0 <? BitVector.size bits) with true
    by (symmetry; apply Z.ltb_lt; lia).
  replace (u <=? MAX_BLOCK_NBITS) with true
    by (symmetry; apply Z.leb_le; unfold MAX_BLOCK_NBITS; lia).
  replace (u <=? s) with true by (symmetry; apply Z.leb_le; lia).
  replace (u =? 0) with false by (symmetry; apply Z.eqb_neq; lia).
  cbn [bind assert]. cbv zeta.
  fold alloc_init.
  rewrite E. cbn [bind]. rewrite set_record_nbits_restore.
  eexists. split; [reflexivity|].
  destruct Hinv as
    [Hca Hoa Hrk Hma Hmk Hnd Hcv Hofw Hofs Hrv Hmv Hcl Hof Hrs Hmo].
  cbn [offsets]. unfold bit_vector_resize, wf. cbn [BitVector.size data].
  pose proof (pos_bound nblocks ltac:(lia)) as Hp.
  rewrite Hoa. split; [reflexivity|]. split; [lia|].
  rewrite Z.land_ones by lia. apply Z.mod_pos_bound.
  apply Z.pow_pos_nonneg; lia.
Qed.

Variable r : rrr_t.
Hypothesis r_built : built r.

(** *** [rrr_select1] at 0 *)

(** Searching for rank 0 when the first marked rank is 0: every probe
    reads a rank that is 0 or more, so the search moves down or stops. *)
Lemma find_marker_loop_zero fuel : forall hi _k rk,
  0 <= hi < 2 ^ Z.of_nat fuel -> hi < 2 ^ 63 ->
  bit_vector_read_record (marked_ranks r) 0 = 0 ->
  exists k, find_marker_loop (S fuel) r 0 0 hi _k rk = Ok (k, _k, Some 0).
Proof.
  destruct r_built as
    [Hsz Hrk Hnb Hnm Hbn Hmn Hcv Hrv Hmv Hcl Hof Hrs Hmo].
  destruct Hrv as (_ & Hrw & _).
  pose proof sizes_fit as (_ & Hw2 & _).
  induction fuel as [|fuel IH]; intros hi _k rk Hhi H63 Hz;
    cbn [find_marker_loop]; rewrite Z.sub_0_r, Z.add_0_l;
    rewrite (wrap64_small hi) by lia;
    assert (Hk : 0 <= hi / 2 <= hi)
      by (split; [apply Z.div_pos; lia | apply Z.div_le_upper_bound; lia]);
    rewrite (wrap64_small (hi / 2)) by lia;
    replace (0 <=? hi) with true by (symmetry; apply Z.leb_le; lia);
    assert (Hr : 0 <= bit_vector_read_record (marked_ranks r) (hi / 2))
      by (unfold bit_vector_read_record; apply read_range; lia);
    replace (bit_vector_read_record (marked_ranks r) (hi / 2) <? 0)
      with false by (symmetry; apply Z.ltb_ge; lia);
    destruct (Z.ltb_spec 0 (bit_vector_read_record (marked_ranks r) (hi / 2)))
      as [Hpos|Hzero].
  - change (2 ^ Z.of_nat 0) with 1 in Hhi. assert (hi = 0) as -> by lia.
    change (0 / 2) with 0 in Hpos. lia.
  - assert (bit_vector_read_record (marked_ranks r) (hi / 2) = 0) as ->
      by lia.
    eexists. reflexivity.
  - assert (hi / 2 <> 0) by (intros E; rewrite E in Hpos; lia).
    rewrite (wrap64_small (hi / 2 - 1)) by lia.
    apply IH; try lia.
    rewrite Nat2Z.inj_succ, Z.pow_succ_r in Hhi by lia.
    assert (hi / 2 < 2 ^ Z.of_nat fuel)
      by (apply Z.div_lt_upper_bound; lia).
    lia.
  - assert (bit_vector_read_record (marked_ranks r) (hi / 2) = 0) as ->
      by lia.
    eexists. reflexivity.
Qed.

Lemma find_marker_zero : rrr_find_marker r 0 = Ok 0.
Proof.
  pose proof r_built as
    [Hsz Hrk Hnb Hnm Hbn Hmn Hcv Hrv Hmv Hcl Hof Hrs Hmo].
  destruct Hrv as (_ & Hrw & _).
  pose proof sizes_fit as (_ & Hw2 & _ & _ & _ & Hnm').
  pose proof nmarkers_range as Hmr.
  pose proof (rank1_range n) as Hrr.
  unfold rrr_find_marker. rewrite Hrk, Hsz, Hmn, Hnm. 
  replace (0 <=? rank1 bits n) with true by (symmetry; apply Z.leb_le; lia).
  cbn [bind assert].
  destruct ((n <=? s) || (0 <? bit_vector_read_record (marked_ranks r) 0))
    eqn:Hpre; [reflexivity|].
  apply orb_false_iff in Hpre. destruct Hpre as [_ Hpre].
  apply Z.ltb_ge in Hpre.
  assert (Hr : 0 <= bit_vector_read_record (marked_ranks r) 0)
    by (unfold bit_vector_read_record; apply read_range; lia).
  rewrite (wrap64_small (nmarkers - 1)) by lia.
  change 130%nat with (S 129).
  destruct (find_marker_loop_zero 129 (nmarkers - 1) (wrap64 (-1)) None)
    as (k & E); try lia.
  rewrite E. cbn [bind]. reflexivity.
Qed.

(** [rrr_select1] at 0 returns 0: the search stops at marker 0, the scan
    at block 0, and whatever the block decodes to, no bit of it is
    skipped. *)
Lemma select1_zero_spec : rrr_select1 r 0 = Ok 0.
Proof.
  pose proof r_built as
    [Hsz Hrk Hnb Hnm Hbn Hmn Hcv Hrv Hmv Hcl Hof Hrs Hmo].
  pose proof nblocks_range as Hbr. pose proof (rank1_range n) as Hrr.
  pose proof (class_range 0) as Hc0.
  unfold rrr_select1. rewrite Hrk.
  replace (rank1 bits n <? 0) with false by (symmetry; apply Z.ltb_ge; lia).
  rewrite find_marker_zero. cbn [bind]. rewrite Hbn, Hnb. 
  replace (u =? 0) with false by (symmetry; apply Z.eqb_neq; lia).
  rewrite Z.mul_0_l.
  change (wrap64 0) with 0. rewrite Z.div_0_l by lia.
  change (0 <=? 0) with true. cbv iota beta.
  rewrite Z.sub_0_r.
  replace (Z.to_nat nblocks) with (S (Z.to_nat (nblocks - 1))) by lia.
  cbn [select_scan]. rewrite Hnb. 
  replace (0 <? nblocks) with true by (symmetry; apply Z.ltb_lt; lia).
  rewrite Hcl by lia. rewrite Z.add_0_l.
  rewrite (wrap64_small (class_of 0)) by lia.
  replace (0 <=? class_of 0) with true by (symmetry; apply Z.leb_le; lia).
  cbn [bind]. rewrite Hbn.
  fold (width_of 0). change 0 with (pos 0) at 2.
  rewrite Hof by lia.
  unfold Source.class_of in Hc0.
  unfold Source.enc_of, Source.class_of.
  destruct (rrr_decode_defined u (block 0)) as (b & Eb);
    [lia | apply block_range |].
  rewrite Eb. cbn [bind].
  change (wrap64 (0 - 0)) with 0.
  pose proof (popcount_nonneg b).
  replace (0 <=? popcount b) with true by (symmetry; apply Z.leb_le; lia).
  cbn [bind assert]. change (Z.to_nat (0 - 0)) with 0%nat.
  cbn [select_bit]. change (0 <? 0) with false. cbn [bind].
  rewrite Z.mul_0_l. reflexivity.
Qed.

(** The marked ranks that the loop of [rrr_alloc] writes. *)
Lemma marked_ranks_spec m :
  0 <= m -> (m + 1) * s <= nblocks * u ->
  bit_vector_read_record (marked_ranks r) m
  = rank1 bits (Z.min ((m + 1) * s) n).
Proof.
  intros Hm Hle. destruct r_built as
    [Hsz Hrk Hnb Hnm Hbn Hmn Hcv Hrv Hmv Hcl Hof Hrs Hmo].
  rewrite Hrs by lia.
  destruct (Z.le_gt_cases n ((m + 1) * s)).
  - rewrite Z.min_r by lia. apply rank1_above. lia.
  - rewrite Z.min_l by lia. reflexivity.
Qed.

(** *** Scanning the blocks *)

(** The scan moves block by block to the block holding the position. *)
Lemma scan_blocks_spec fuel : forall i c rk,
  0 <= c -> 0 <= i -> c * u + i < n -> (Z.to_nat i <= fuel)%nat ->
  0 <= rk <= rank1 bits (c * u) ->
  scan_blocks fuel r i c (pos c) rk
  = Ok (i mod u, c + i / u, pos (c + i / u),
        rk + (rank1 bits ((c + i / u) * u) - rank1 bits (c * u))).
Proof.
  destruct r_built as
    [Hsz Hrk Hnb Hnm Hbn Hmn Hcv Hrv Hmv Hcl Hof Hrs Hmo].
  pose proof sizes_fit as (Hw1 & Hw2 & Hw3 & Hw4 & Hnb' & Hnm').
  pose proof wmax_range as Hwm. pose proof nblocks_range as Hbr.
  induction fuel as [|fuel IH]; intros i c rk Hc Hi Hlt Hfuel Hrk0.
  - assert (i = 0) as -> by lia. cbn [scan_blocks]. rewrite Hbn.
    replace (u <=? 0) with false by (symmetry; apply Z.leb_gt; lia).
    rewrite Z.mod_0_l, Z.div_0_l, Z.add_0_r by lia.
    do 3 f_equal. lia.
  - cbn [scan_blocks]. rewrite Hbn.
    destruct (Z.leb_spec u i) as [Hge|Hlt'].
    + assert (Hcu : c * u < n) by lia.
      assert (Hcn : c < nblocks) by (apply block_lt; lia).
      rewrite Hcl by lia.
      fold (width_of c).
      pose proof (pos_bound (c + 1) ltac:(lia)) as Hp1.
      pose proof (rank1_range ((c + 1) * u)) as Hr1.
      pose proof (rank1_class c ltac:(lia)) as Hrc.
      pose proof (class_range c) as Hcr.
      assert ((c + 1) * wmax <= nblocks * wmax)
        by (apply Z.mul_le_mono_nonneg_r; lia).
      rewrite (wrap64_small (i - u)) by lia.
      rewrite (wrap64_small (c + 1)) by lia.
      rewrite <- pos_succ by lia.
      rewrite (wrap64_small (pos (c + 1))) by lia.
      rewrite (wrap64_small (rk + class_of c)) by lia.
      rewrite IH; try lia.
      assert (E1 : (i - u) mod u = i mod u).
      { replace (i - u) with (i + (-1) * u) by lia. apply Z.mod_add. lia. }
      assert (E2 : (i - u) / u = i / u - 1).
      { replace (i - u) with (i + (-1) * u) by lia.
        rewrite Z.div_add by lia. lia. }
      rewrite E1, E2.
      replace (c + 1 + (i / u - 1)) with (c + i / u) by lia.
      rewrite Hrc. do 2 f_equal. lia.
    + rewrite Z.mod_small, Z.div_small, Z.add_0_r by lia.
      do 3 f_equal. lia.
Qed.

(** Reading and decoding a block gives the block of the source. *)
Lemma block_at_spec c :
  0 <= c < nblocks -> popcount (block c) < 64 ->
  block_at r c (pos c) = Ok (block c).
Proof.
  intros Hc H64. destruct r_built as
    [Hsz Hrk Hnb Hnm Hbn Hmn Hcv Hrv Hmv Hcl Hof Hrs Hmo].
  unfold block_at. rewrite Hbn, Hcl by lia.
  fold (width_of c). rewrite Hof by lia.
  apply rrr_decode_encode; [lia | apply block_range | exact H64].
Qed.

Lemma block_testbit c k :
  0 <= c <= n -> 0 <= k < u ->
  Z.testbit (block c) k = Z.testbit (data bits) (c * u + k).
Proof.
  intros Hc Hk. rewrite block_shiftr by lia.
  rewrite Z.testbit_mod_pow2, Z.shiftr_spec by lia.
  replace (k <? u) with true by (symmetry; apply Z.ltb_lt; lia).
  cbn [andb]. f_equal. lia.
Qed.

Lemma small_blocks_not_full : u <= 63 -> no_full_block bits u.
Proof.
  intros Hu63 k _. pose proof (class_range k) as Hc.
  unfold Source.class_of in Hc. lia.
Qed.

(** *** Queries that start at a block boundary *)

(** Where [start_at] sends a query for position [i] when the last marker
    boundary at or before [i] is the start of block [c]. *)
Lemma start_at_aligned i c :
  0 <= i < n -> i / s * s = c * u ->
  start_at r i = Ok (c, pos c, rank1 bits (c * u)).
Proof.
  intros Hi Hal. destruct r_built as
    [Hsz Hrk Hnb Hnm Hbn Hmn Hcv Hrv Hmv Hcl Hof Hrs Hmo].
  pose proof nblocks_spec as Hbs.
  unfold start_at. rewrite Hmn, Hbn.
  replace (s =? 0) with false by (symmetry; apply Z.eqb_neq; lia).
  pose proof (Z.div_mod i s ltac:(lia)) as Hdm.
  pose proof (Z.mod_pos_bound i s ltac:(lia)) as Hmod.
  assert (Hm0 : 0 <= i / s) by (apply Z.div_pos; lia).
  set (m := i / s) in *.
  assert (Hms : m * s <= i) by lia.
  destruct (Z.leb_spec m 0) as [Hz|Hpos].
  - assert (Hm : m = 0) by lia. rewrite Hm in Hal.
    assert (Hc : c = 0) by nia. rewrite Hc. reflexivity.
  - replace (u =? 0) with false by (symmetry; apply Z.eqb_neq; lia).
    rewrite wrap64_small by nia.
    rewrite Hal, Z.div_mul by lia.
    assert (Hc1 : 1 <= c) by nia.
    rewrite (Hmo (m - 1) (c - 1)) by lia.
    rewrite Hrs by lia.
    replace (c - 1 + 1) with c by lia.
    replace ((m - 1 + 1) * s) with (c * u) by lia.
    reflexivity.
Qed.

(** From there the scan reaches block [i / u] with [i mod u] left. *)
Lemma locate_aligned i c rk0 :
  0 <= i < n -> 0 <= c -> i / s * s = c * u ->
  (rk0 = 0 \/ rk0 = rank1 bits (c * u)) ->
  scan_blocks (Z.to_nat i) r
    (wrap64 (i - wrap64 (c * block_nbits r))) c (pos c) rk0
  = Ok (i mod u, i / u, pos (i / u),
        rk0 + (rank1 bits (i / u * u) - rank1 bits (c * u))).
Proof.
  intros Hi Hc Hal Hrk0. destruct r_built as
    [Hsz Hrk Hnb Hnm Hbn Hmn Hcv Hrv Hmv Hcl Hof Hrs Hmo].
  pose proof (Z.div_mod i s ltac:(lia)) as Hdm.
  pose proof (Z.mod_pos_bound i s ltac:(lia)) as Hmod.
  assert (Hcu : 0 <= c * u <= i) by nia.
  rewrite Hbn.
  rewrite (wrap64_small (c * u)) by lia.
  rewrite (wrap64_small (i - c * u)) by lia.
  pose proof (rank1_range (c * u)) as Hr0.
  rewrite scan_blocks_spec; try lia.
  replace (i - c * u) with (i + (- c) * u) by lia.
  rewrite Z.mod_add, Z.div_add by lia.
  replace (c + (i / u + - c)) with (i / u) by lia.
  reflexivity.
Qed.

(** [rrr_rank1] is right at every position whose last marker boundary is
    a block boundary. *)
Lemma rank1_aligned i c :
  no_full_block bits u -> 0 <= i < n -> 0 <= c -> i / s * s = c * u ->
  rrr_rank1 r i = Ok (rank1 bits i).
Proof.
  intros Hfull Hi Hc Hal. destruct r_built as
    [Hsz Hrk Hnb Hnm Hbn Hmn Hcv Hrv Hmv Hcl Hof Hrs Hmo].
  unfold rrr_rank1. rewrite Hsz.
  replace (n <=? i) with false by (symmetry; apply Z.leb_gt; lia).
  rewrite (start_at_aligned i c) by lia. cbn [bind].
  rewrite locate_aligned by (try lia; right; reflexivity). cbn [bind].
  pose proof (Z.div_mod i u ltac:(lia)) as Hdm.
  pose proof (Z.mod_pos_bound i u ltac:(lia)) as Hmod.
  assert (Hc0 : 0 <= i / u) by (apply Z.div_pos; lia).
  assert (Hcn : i / u < nblocks) by (apply block_lt; lia).
  pose proof (class_range (i / u)) as Hcr. unfold Source.class_of in Hcr.
  pose proof (Hfull (i / u) Hc0) as Hnf.
  rewrite block_at_spec by lia. cbn [bind].
  cbv zeta. rewrite mask_ones by lia.
  pose proof (block_range64 (i / u)) as Hb64.
  assert (0 <= Z.land (block (i / u)) (Z.ones (i mod u)) < 2 ^ 64)
    by (apply land_range; assumption).
  rewrite popcount_bitcount, bitcount_land_ones by lia.
  rewrite Nat.min_r by lia.
  replace (rank1 bits (c * u)
           + (rank1 bits (i / u * u) - rank1 bits (c * u)))
    with (rank1 bits (i / u * u)) by lia.
  pose proof nblocks_range.
  rewrite <- rank1_block by lia.
  replace (i / u * u + i mod u) with i by lia.
  pose proof (rank1_range i).
  rewrite wrap64_small, wrap32_small by lia. reflexivity.
Qed.

(** So is [rrr_access], for blocks of at most 31 bits. *)
Lemma access_aligned i c :
  u <= 31 -> 0 <= i < n -> 0 <= c -> i / s * s = c * u ->
  rrr_access r i = Ok (Z.b2z (bit bits i)).
Proof.
  intros Hu31 Hi Hc Hal. destruct r_built as
    [Hsz Hrk Hnb Hnm Hbn Hmn Hcv Hrv Hmv Hcl Hof Hrs Hmo].
  unfold rrr_access. rewrite Hsz.
  replace (i <? n) with true by (symmetry; apply Z.ltb_lt; lia).
  cbn [bind assert].
  rewrite (start_at_aligned i c) by lia. cbn [bind].
  rewrite locate_aligned by (try lia; left; reflexivity). cbn [bind].
  pose proof (Z.div_mod i u ltac:(lia)) as Hdm.
  pose proof (Z.mod_pos_bound i u ltac:(lia)) as Hmod.
  assert (Hc0 : 0 <= i / u) by (apply Z.div_pos; lia).
  assert (Hcn : i / u < nblocks) by (apply block_lt; lia).
  pose proof (class_range (i / u)) as Hcr. unfold Source.class_of in Hcr.
  rewrite block_at_spec by lia. cbn [bind].
  rewrite shl_int1_small by lia. rewrite bit_extract by lia.
  pose proof nblocks_range.
  rewrite block_testbit by lia.
  replace (i / u * u + i mod u) with i by lia.
  unfold bit. destruct (Z.testbit (data bits) i); reflexivity.
Qed.


(** *** [rrr_select1] from a marker *)

(** A block that starts at or past the end of the vector has all the
    1-bits before it. *)
Lemma rank1_blocks_end c : nblocks <= c -> rank1 bits (c * u) = rank1 bits n.
Proof.
  intros Hc. pose proof nblocks_spec as Hbs. apply rank1_above.
  assert (nblocks * u <= c * u) by (apply Z.mul_le_mono_nonneg_r; lia).
  lia.
Qed.

(** The scan of [rrr_select1] stops at the block holding the [j]-th
    1-bit. *)
Lemma select_scan_spec j fuel : forall c cw,
  0 <= c -> rank1 bits (c * u) < j <= rank1 bits n ->
  (Z.to_nat (nblocks - c) <= fuel)%nat ->
  exists k,
    c <= k < nblocks
    /\ rank1 bits (k * u) < j <= rank1 bits ((k + 1) * u)
    /\ select_scan fuel r j c (rank1 bits (c * u)) (pos c) cw
       = Ok (k, rank1 bits (k * u), pos k, Some (class_of k, width_of k)).
Proof.
  destruct r_built as
    [Hsz Hrk Hnb Hnm Hbn Hmn Hcv Hrv Hmv Hcl Hof Hrs Hmo].
  pose proof sizes_fit as (Hw1 & Hw2 & Hw3 & Hw4 & Hnb' & Hnm').
  pose proof wmax_range as Hwm. pose proof nblocks_range as Hbr.
  induction fuel as [|fuel IH]; intros c cw Hc Hj Hfuel;
    (assert (Hcn : c < nblocks);
     [destruct (Z.lt_ge_cases c nblocks) as [|Hge]; [assumption|];
      rewrite (rank1_blocks_end c) in Hj by lia; lia|]); [lia|].
  cbn [select_scan]. rewrite Hnb.
  replace (c <? nblocks) with true by (symmetry; apply Z.ltb_lt; lia).
  rewrite Hbn, Hcl by lia. fold (width_of c).
  pose proof (rank1_class c ltac:(lia)) as Hrc.
  pose proof (rank1_range ((c + 1) * u)) as Hr1.
  pose proof (rank1_range (c * u)) as Hr0.
  pose proof (class_range c) as Hcr.
  rewrite (wrap64_small (rank1 bits (c * u) + class_of c)) by lia.
  destruct (Z.leb_spec j (rank1 bits (c * u) + class_of c)) as [Hle|Hgt].
  - exists c. split; [lia|]. split; [lia|]. reflexivity.
  - pose proof (pos_bound (c + 1) ltac:(lia)) as Hp1.
    assert ((c + 1) * wmax <= nblocks * wmax)
      by (apply Z.mul_le_mono_nonneg_r; lia).
    rewrite (wrap64_small (c + 1)) by lia.
    rewrite <- pos_succ by lia.
    rewrite (wrap64_small (pos (c + 1))) by lia.
    rewrite <- Hrc.
    destruct (IH (c + 1) (Some (class_of c, width_of c)))
      as (k & Hk & Hjk & E); try lia.
    exists k. split; [lia|]. split; [exact Hjk|exact E].
Qed.

(** [rrr_select1] returns the position after the [j]-th 1-bit when
    [rrr_find_marker] returns a marker [m] that is 0, or whose boundary is
    the start of a block [c] with fewer than [j] 1-bits before it. *)
Lemma select1_from m c j :
  no_full_block bits u -> 1 <= j <= rank1 bits n ->
  rrr_find_marker r j = Ok m -> 0 <= m -> m * s = c * u ->
  (m = 0 \/ (m * s < n /\ rank1 bits (m * s) < j)) ->
  exists p,
    rrr_select1 r j = Ok p
    /\ 1 <= p <= n /\ bit bits (p - 1) = true /\ rank1 bits p = j.
Proof.
  intros Hfull Hj Hfind Hm Hal Hvalid. pose proof r_built as
    [Hsz Hrk Hnb Hnm Hbn Hmn Hcv Hrv Hmv Hcl Hof Hrs Hmo].
  pose proof sizes_fit as (Hw1 & Hw2 & Hw3 & Hw4 & Hnb' & Hnm').
  pose proof nblocks_range as Hbr. pose proof nblocks_spec as Hbs.
  pose proof (rank1_range n) as Hrr.
  assert (Hc : 0 <= c) by nia.
  (* where the scan starts *)
  assert (Hstart :
    (if m <=? 0 then (0, 0)
     else (bit_vector_read_record (marked_offsets r) (m - 1),
           bit_vector_read_record (marked_ranks r) (m - 1)))
    = (pos c, rank1 bits (c * u)) /\ rank1 bits (c * u) < j /\ m * s < 2 ^ 64).
  { destruct Hvalid as [Hm0|[Hmn' Hrkm]].
    - rewrite Hm0 in Hal |- *. assert (Hc0 : c = 0) by nia. rewrite Hc0.
      change (0 <=? 0) with true. cbv iota.
      change (rank1 bits (0 * u)) with 0.
      split; [reflexivity|]. lia.
    - destruct (Z.leb_spec m 0) as [Hz|Hpos].
      + assert (Hm0 : m = 0) by lia. rewrite Hm0 in Hal |- *.
        assert (Hc0 : c = 0) by nia. rewrite Hc0.
        change (rank1 bits (0 * u)) with 0.
        split; [reflexivity|]. lia.
      + assert (Hc1 : 1 <= c) by nia.
        rewrite (Hmo (m - 1) (c - 1)) by lia.
        rewrite Hrs by lia.
        replace (c - 1 + 1) with c by lia.
        replace ((m - 1 + 1) * s) with (c * u) by lia.
        rewrite <- Hal. split; [reflexivity|]. lia. }
  destruct Hstart as (Hstart & Hrkc & Hms).
  unfold rrr_select1. rewrite Hrk.
  replace (rank1 bits n <? j) with false by (symmetry; apply Z.ltb_ge; lia).
  rewrite Hfind. cbn [bind]. rewrite Hbn, Hmn, Hnb.
  replace (u =? 0) with false by (symmetry; apply Z.eqb_neq; lia).
  rewrite (wrap64_small (m * s)) by lia.
  rewrite Hal, Z.div_mul by lia.
  rewrite Hstart.
  destruct (select_scan_spec j (Z.to_nat (nblocks - c)) c None Hc
              ltac:(lia) ltac:(lia)) as (k & Hk & Hjk & E).
  rewrite E. cbn [bind].
  rewrite Hof by lia.
  unfold Source.enc_of, Source.class_of.
  pose proof (Hfull k ltac:(lia)) as Hnf.
  pose proof (class_range k) as Hcr. unfold Source.class_of in Hcr.
  rewrite rrr_decode_encode by (try apply block_range; lia).
  cbn [bind].
  pose proof (rank1_class k ltac:(lia)) as Hrc.
  unfold Source.class_of in Hrc.
  pose proof (rank1_range (k * u)) as Hr0.
  rewrite (wrap64_small (j - rank1 bits (k * u))) by lia.
  replace (j - rank1 bits (k * u) <=? popcount (block k)) with true
    by (symmetry; apply Z.leb_le; lia).
  cbn [bind assert].
  pose proof (block_range64 k) as Hb64. pose proof (block_range k) as Hbu.
  destruct (select_bit_spec (block k) (Z.to_nat (j - rank1 bits (k * u)))
              j (rank1 bits (k * u)) (-1) (block k) 0 Hb64 Hb64 ltac:(lia))
    as (i & Ei & Hi & Hbi & Hci); try lia.
  { intros x Hx. replace (0 <=? x) with true
      by (symmetry; apply Z.leb_le; lia).
    rewrite andb_true_r. reflexivity. }
  { rewrite <- popcount_bitcount by exact Hb64.
    change (bitcount (Z.to_nat 0) (block k)) with 0. lia. }
  rewrite Ei. cbn [bind].
  change (bitcount (Z.to_nat 0) (block k)) with 0 in Hci.
  assert (Hiu : i < u).
  { destruct (Z.lt_ge_cases i u) as [|Hge]; [assumption|].
    rewrite (testbit_above u (block k) i) in Hbi by lia. discriminate. }
  assert (Hsrc : Z.testbit (data bits) (k * u + i) = true).
  { rewrite <- block_testbit by lia. exact Hbi. }
  assert (Hin : k * u + i < n).
  { destruct (Z.lt_ge_cases (k * u + i) n) as [|Hge]; [assumption|].
    destruct bits_wf as [_ Hd].
    rewrite (testbit_above n (data bits) (k * u + i)) in Hsrc by lia.
    discriminate. }
  assert (Hku : 0 <= k * u) by nia.
  rewrite (wrap64_small (1 + i + k * u)), wrap32_small by lia.
  exists (1 + i + k * u). split; [reflexivity|]. split; [lia|].
  split.
  - unfold bit. replace (1 + i + k * u - 1) with (k * u + i) by lia.
    exact Hsrc.
  - replace (1 + i + k * u) with (k * u + (i + 1)) by lia.
    rewrite rank1_block by lia. rewrite Hci. lia.
Qed.

(** [rrr_find_marker] returns 0 for the ranks reached within the first
    marker period. *)
Lemma find_marker_first j :
  0 <= j <= rank1 bits n -> n <= s \/ j < rank1 bits s ->
  rrr_find_marker r j = Ok 0.
Proof.
  intros Hj Hfirst. destruct r_built as
    [Hsz Hrk Hnb Hnm Hbn Hmn Hcv Hrv Hmv Hcl Hof Hrs Hmo].
  pose proof nblocks_spec as Hbs.
  unfold rrr_find_marker. rewrite Hrk, Hsz, Hmn.
  replace (j <=? rank1 bits n) with true by (symmetry; apply Z.leb_le; lia).
  cbn [bind assert].
  destruct (Z.leb_spec n s) as [Hle|Hgt]; [reflexivity|].
  destruct Hfirst as [Hns|Hlt]; [lia|].
  cbn [orb]. rewrite Hrs by lia. rewrite Z.mul_1_l.
  replace (j <? rank1 bits s) with true by (symmetry; apply Z.ltb_lt; lia).
  reflexivity.
Qed.

(** *** The binary search of [rrr_find_marker] *)

(** The search keeps [_k] on a marker with fewer than [j] 1-bits before
    its boundary; when it stops on a probe below [j], [k] is left at
    [lo + (2^64 - 1) / 2]. *)
Lemma find_marker_loop_inv j fuel : forall lo hi _k rank,
  0 <= lo -> 0 <= hi -> lo <= hi + 1 -> hi <= nmarkers - 1 ->
  hi + 1 - lo < 2 ^ Z.of_nat fuel ->
  bit_vector_read_record (marked_ranks r) 0 <= j ->
  (_k = wrap64 (-1)
   \/ (0 <= _k < lo /\ bit_vector_read_record (marked_ranks r) _k < j)) ->
  (forall rv, rank = Some rv -> j <= rv ->
     _k = wrap64 (-1) \/ _k <= nmarkers - 2) ->
  (lo <= hi \/ rank <> None) ->
  exists k' _k' rv,
    find_marker_loop fuel r j lo hi _k rank = Ok (k', _k', Some rv)
    /\ (j <= rv ->
        _k' = wrap64 (-1)
        \/ (0 <= _k' <= nmarkers - 2
            /\ bit_vector_read_record (marked_ranks r) _k' < j))
    /\ (rv < j -> 2 ^ 63 - 1 <= k' < 2 ^ 63 + 2 ^ 32).
Proof.
  pose proof sizes_fit as (_ & _ & _ & _ & _ & Hnm').
  pose proof nmarkers_range as Hmr.
  assert (Hexit : forall lo hi _k rv,
    0 <= lo -> lo = hi + 1 -> hi <= nmarkers - 1 ->
    (_k = wrap64 (-1)
     \/ (0 <= _k < lo /\ bit_vector_read_record (marked_ranks r) _k < j)) ->
    (j <= rv -> _k = wrap64 (-1) \/ _k <= nmarkers - 2) ->
    (j <= rv ->
     _k = wrap64 (-1)
     \/ (0 <= _k <= nmarkers - 2
         /\ bit_vector_read_record (marked_ranks r) _k < j))
    /\ (rv < j ->
        2 ^ 63 - 1 <= wrap64 (lo + wrap64 (hi - lo) / 2) < 2 ^ 63 + 2 ^ 32)).
  { intros lo hi _k rv Hlo Heq Hhi Hk Hrk. split.
    - intros Hj. destruct Hk as [Hk|[Hk1 Hk2]]; [left; exact Hk|].
      destruct (Hrk Hj) as [Hm|Hm]; [left; exact Hm|]. right. lia.
    - intros _. replace (hi - lo) with (-1) by lia.
      change (wrap64 (-1) / 2) with (2 ^ 63 - 1).
      rewrite wrap64_small by lia. lia. }
  induction fuel as [|fuel IH];
    intros lo hi _k rank Hlo Hhi0 Hle Hhi Hw Hz Hk Hrk Hsome.
  - change (2 ^ Z.of_nat 0) with 1 in Hw.
    cbn [find_marker_loop].
    replace (lo <=? hi) with false by (symmetry; apply Z.leb_gt; lia).
    destruct rank as [rv|]; [|exfalso; destruct Hsome; [lia|congruence]].
    exists (wrap64 (lo + wrap64 (hi - lo) / 2)), _k, rv.
    split; [reflexivity|].
    apply (Hexit lo hi _k rv Hlo ltac:(lia) Hhi Hk).
    intros Hj. apply (Hrk rv eq_refl Hj).
  - cbn [find_marker_loop].
    destruct (Z.leb_spec lo hi) as [Hin|Hout].
    + assert (Hd : 0 <= (hi - lo) / 2 <= hi - lo).
      { split; [apply Z.div_pos; lia|]. apply Z.div_le_upper_bound; lia. }
      pose proof (Z.div_mod (hi - lo) 2 ltac:(lia)) as Hdm.
      pose proof (Z.mod_pos_bound (hi - lo) 2 ltac:(lia)) as Hmod.
      rewrite (wrap64_small (hi - lo)) by lia.
      rewrite (wrap64_small (lo + (hi - lo) / 2)) by lia.
      set (k := lo + (hi - lo) / 2) in *.
      assert (Hkd : k = lo + (hi - lo) / 2) by reflexivity.
      set (rv := bit_vector_read_record (marked_ranks r) k).
      rewrite Nat2Z.inj_succ, Z.pow_succ_r in Hw by lia.
      destruct (Z.ltb_spec rv j) as [Hlow|Hnlow].
      * rewrite (wrap64_small (k + 1)) by lia.
        assert (Hk' : k = wrap64 (-1)
                      \/ (0 <= k < k + 1
                          /\ bit_vector_read_record (marked_ranks r) k < j))
          by (right; split; [lia|exact Hlow]).
        apply (IH (k + 1) hi k (Some rv) ltac:(lia) Hhi0 ltac:(lia) Hhi
                 ltac:(lia) Hz Hk').
        -- intros rv' E Hj. injection E as <-. lia.
        -- right. discriminate.
      * destruct (Z.ltb_spec j rv) as [Hhigh|Hnhigh].
        -- assert (Hk1 : 1 <= k).
           { destruct (Z.eq_dec k 0) as [Hk0|]; [|lia].
             unfold rv in Hhigh. rewrite Hk0 in Hhigh. lia. }
           rewrite (wrap64_small (k - 1)) by lia.
           apply (IH lo (k - 1) _k (Some rv) Hlo ltac:(lia) ltac:(lia)
                    ltac:(lia) ltac:(lia) Hz Hk).
           ++ intros rv' E Hj. destruct Hk as [Hk|Hk]; [left; exact Hk|].
              right. lia.
           ++ right. discriminate.
        -- exists k, _k, rv. split; [reflexivity|]. split; [|lia].
           intros _. destruct Hk as [Hk|[Hk1 Hk2]]; [left; exact Hk|].
           right. split; [lia|exact Hk2].
    + destruct rank as [rv|]; [|exfalso; destruct Hsome; [lia|congruence]].
      exists (wrap64 (lo + wrap64 (hi - lo) / 2)), _k, rv.
      split; [reflexivity|].
      apply (Hexit lo hi _k rv Hlo ltac:(lia) Hhi Hk).
      intros Hj. apply (Hrk rv eq_refl Hj).
Qed.

(** [rrr_find_marker] returns 0, or the index after a marker whose
    boundary is inside the vector with fewer than [j] 1-bits before it, or
    an index of [2^63] or more. *)
Lemma find_marker_sound j :
  0 <= j <= rank1 bits n ->
  exists m,
    rrr_find_marker r j = Ok m
    /\ (m = 0
        \/ (1 <= m <= nmarkers - 1 /\ m * s < n /\ rank1 bits (m * s) < j)
        \/ 2 ^ 63 <= m).
Proof.
  intros Hj. pose proof r_built as
    [Hsz Hrk Hnb Hnm Hbn Hmn Hcv Hrv Hmv Hcl Hof Hrs Hmo].
  pose proof sizes_fit as (_ & _ & _ & _ & _ & Hnm').
  pose proof nmarkers_range as Hmr. pose proof nmarkers_spec as Hms.
  pose proof nblocks_spec as Hbs.
  unfold rrr_find_marker. rewrite Hrk, Hsz, Hmn, Hnm.
  replace (j <=? rank1 bits n) with true by (symmetry; apply Z.leb_le; lia).
  cbn [bind assert].
  destruct ((n <=? s) || (j <? bit_vector_read_record (marked_ranks r) 0))
    eqn:Hpre; [exists 0; split; [reflexivity|left; reflexivity]|].
  apply orb_false_iff in Hpre. destruct Hpre as [_ Hpre].
  apply Z.ltb_ge in Hpre.
  rewrite (wrap64_small (nmarkers - 1)) by lia.
  assert (Hw130 : nmarkers - 1 + 1 - 0 < 2 ^ Z.of_nat 130).
  { change (2 ^ Z.of_nat 130) with (2 ^ 130).
    assert (2 ^ 32 < 2 ^ 130) by (apply Z.pow_lt_mono_r; lia). lia. }
  destruct (find_marker_loop_inv j 130 0 (nmarkers - 1) (wrap64 (-1)) None
              ltac:(lia) ltac:(lia) ltac:(lia) ltac:(lia) Hw130 Hpre
              (or_introl eq_refl) ltac:(intros rv' E; discriminate)
              ltac:(left; lia))
    as (k' & _k' & rv & E & Hgood & Hbad).
  rewrite E. cbn [bind].
  destruct (Z.leb_spec j rv) as [Hle|Hgt].
  - destruct (Hgood Hle) as [Hm1|[Hk1 Hk2]].
    + exists 0. split; [rewrite Hm1; reflexivity|left; reflexivity].
    + exists (_k' + 1). split; [rewrite wrap64_small by lia; reflexivity|].
      right. left. split; [lia|].
      assert (Hin : (_k' + 1) * s < n).
      { assert ((_k' + 1) * s <= (nmarkers - 1) * s)
          by (apply Z.mul_le_mono_nonneg_r; lia).
        lia. }
      split; [exact Hin|].
      rewrite Hrs in Hk2 by lia. exact Hk2.
  - specialize (Hbad Hgt). exists (k' + 1).
    split; [rewrite wrap64_small by lia; reflexivity|]. right. right. lia.
Qed.

(** *** Rank and select within the first marker period *)

Lemma rank1_step i :
  0 <= i -> rank1 bits (i + 1) = rank1 bits i + Z.b2z (bit bits i).
Proof.
  intros Hi. unfold rank1, bit.
  replace (Z.to_nat (i + 1)) with (S (Z.to_nat i)) by lia.
  rewrite bitcount_S, Z2Nat.id by lia. reflexivity.
Qed.

(** [rrr_select1] finds the [j]-th 1-bit when it is reached before the
    first marker, and [rrr_rank1] and [rrr_access] agree with it. *)
Lemma rank_select_first j :
  no_full_block bits u -> 1 <= j <= rank1 bits n ->
  n <= s \/ j < rank1 bits s ->
  exists p,
    rrr_select1 r j = Ok p
    /\ 1 <= p <= n /\ bit bits (p - 1) = true /\ rank1 bits p = j
    /\ rrr_rank1 r p = Ok j
    /\ rrr_rank1 r (p - 1) = Ok (j - 1)
    /\ (u <= 31 -> rrr_access r (p - 1) = Ok 1).
Proof.
  intros Hfull Hj Hfirst.
  destruct (select1_from 0 0 j Hfull Hj) as (p & E & Hp & Hbit & Hrank);
    try lia.
  { apply find_marker_first; [lia|exact Hfirst]. }
  exists p. split; [exact E|]. split; [exact Hp|].
  split; [exact Hbit|]. split; [exact Hrank|].
  assert (Hps : p <= s /\ (p < n -> p < s)).
  { destruct Hfirst as [Hns|Hlt]; [lia|].
    destruct (Z.lt_ge_cases p s) as [|Hge]; [lia|].
    pose proof (rank1_mono s p ltac:(lia)). lia. }
  assert (Hdiv : (p - 1) / s * s = 0 * u).
  { rewrite Z.div_small by lia. reflexivity. }
  assert (Hprev : rank1 bits (p - 1) = j - 1).
  { pose proof (rank1_step (p - 1) ltac:(lia)) as Hst.
    replace (p - 1 + 1) with p in Hst by lia.
    rewrite Hbit in Hst. cbn [Z.b2z] in Hst. lia. }
  split; [|split].
  - destruct (Z.lt_ge_cases p n) as [Hlt|Hge].
    + rewrite (rank1_aligned p 0); try assumption; try lia.
      * rewrite Hrank. reflexivity.
      * rewrite Z.div_small by lia. reflexivity.
    + destruct r_built as [Hsz Hrk _ _ _ _ _ _ _ _ _ _ _].
      unfold rrr_rank1. rewrite Hsz.
      replace (n <=? p) with true by (symmetry; apply Z.leb_le; lia).
      assert (p = n) as -> by lia.
      rewrite Hrk, Hrank. pose proof (rank1_range n).
      rewrite wrap32_small by lia. reflexivity.
  - rewrite (rank1_aligned (p - 1) 0); try assumption; try lia.
    rewrite Hprev. reflexivity.
  - intros Hu31.
    rewrite (access_aligned (p - 1) 0); try assumption; try lia.
    rewrite Hbit. reflexivity.
Qed.

(** *** Queries on an instance whose marker period is a multiple of its
    block width *)

Hypothesis s_multiple : s mod u = 0.

Let q := s / u.

Lemma s_eq : s = q * u.
Proof.
  unfold q. pose proof (Z.div_mod s u ltac:(lia)) as H. lia.
Qed.

Lemma q_range : 1 <= q <= 255.
Proof. pose proof s_eq. nia. Qed.

(** Where [start_at] sends a query for position [i]: the block starting
    at the last marker at or before [i]. *)
Lemma start_at_spec i :
  0 <= i < n ->
  start_at r i = Ok (i / s * q, pos (i / s * q), rank1 bits (i / s * q * u)).
Proof.
  intros Hi. destruct r_built as
    [Hsz Hrk Hnb Hnm Hbn Hmn Hcv Hrv Hmv Hcl Hof Hrs Hmo].
  pose proof s_eq as Hs. pose proof q_range as Hq.
  pose proof nblocks_spec as Hbs.
  unfold start_at. rewrite Hmn, Hbn.
  replace (s =? 0) with false by (symmetry; apply Z.eqb_neq; lia).
  pose proof (Z.div_mod i s ltac:(lia)) as Hdm.
  pose proof (Z.mod_pos_bound i s ltac:(lia)) as Hmod.
  assert (Hm0 : 0 <= i / s) by (apply Z.div_pos; lia).
  set (m := i / s) in *.
  assert (Hms : m * s <= i) by lia.
  destruct (Z.leb_spec m 0) as [Hz|Hpos].
  - assert (m = 0) as -> by lia. reflexivity.
  - replace (u =? 0) with false by (symmetry; apply Z.eqb_neq; lia).
    rewrite wrap64_small by nia.
    assert (Hc : m * s / u = m * q).
    { rewrite Hs. rewrite Z.mul_assoc. apply Z.div_mul. lia. }
    rewrite Hc.
    assert (Hmq : m * s = m * q * u) by (rewrite Hs; ring).
    assert (1 <= m * q) by nia.
    rewrite (Hmo (m - 1) (m * q - 1)) by lia.
    rewrite Hrs by lia.
    replace (m * q - 1 + 1) with (m * q) by lia.
    replace ((m - 1 + 1) * s) with (m * q * u) by lia.
    reflexivity.
Qed.

(** A query for position [i] reaches block [i / u] with [i mod u] left. *)
Lemma locate_spec i rk0 :
  0 <= i < n ->
  (rk0 = 0 \/ rk0 = rank1 bits (i / s * q * u)) ->
  scan_blocks (Z.to_nat i) r
    (wrap64 (i - wrap64 (i / s * q * block_nbits r))) (i / s * q)
    (pos (i / s * q)) rk0
  = Ok (i mod u, i / u, pos (i / u),
        rk0 + (rank1 bits (i / u * u) - rank1 bits (i / s * q * u))).
Proof.
  intros Hi Hrk0. destruct r_built as
    [Hsz Hrk Hnb Hnm Hbn Hmn Hcv Hrv Hmv Hcl Hof Hrs Hmo].
  pose proof s_eq as Hs. pose proof q_range as Hq.
  pose proof (Z.div_mod i s ltac:(lia)) as Hdm.
  pose proof (Z.mod_pos_bound i s ltac:(lia)) as Hmod.
  assert (Hm0 : 0 <= i / s) by (apply Z.div_pos; lia).
  set (m := i / s) in *.
  assert (Hmq : m * s = m * q * u) by (rewrite Hs; ring).
  assert (Hc0 : 0 <= m * q) by nia.
  rewrite Hbn.
  rewrite (wrap64_small (m * q * u)) by lia.
  rewrite (wrap64_small (i - m * q * u)) by lia.
  pose proof (rank1_range (m * q * u)) as Hr0.
  rewrite scan_blocks_spec; try lia.
  replace (i - m * q * u) with (i + (- (m * q)) * u) by lia.
  rewrite Z.mod_add, Z.div_add by lia.
  replace (m * q + (i / u + - (m * q))) with (i / u) by lia.
  reflexivity.
Qed.

(** [rrr_rank1] counts the 1-bits of the source below [i]. *)
Lemma rank1_spec i :
  no_full_block bits u -> 0 <= i < 2 ^ 64 ->
  rrr_rank1 r i = Ok (rank1 bits (Z.min i n)).
Proof.
  intros Hfull Hi. destruct r_built as
    [Hsz Hrk Hnb Hnm Hbn Hmn Hcv Hrv Hmv Hcl Hof Hrs Hmo].
  unfold rrr_rank1. rewrite Hsz.
  destruct (Z.leb_spec n i) as [Hge|Hlt].
  - rewrite Z.min_r, Hrk by lia.
    pose proof (rank1_range n). rewrite wrap32_small by lia. reflexivity.
  - rewrite Z.min_l by lia.
    rewrite start_at_spec by lia. cbn [bind].
    rewrite locate_spec by (try lia; right; reflexivity). cbn [bind].
    pose proof (Z.div_mod i u ltac:(lia)) as Hdm.
    pose proof (Z.mod_pos_bound i u ltac:(lia)) as Hmod.
    assert (Hc0 : 0 <= i / u) by (apply Z.div_pos; lia).
    assert (Hcn : i / u < nblocks) by (apply block_lt; lia).
    pose proof (class_range (i / u)) as Hcr. unfold Source.class_of in Hcr.
    pose proof (Hfull (i / u) Hc0) as Hnf.
    rewrite block_at_spec by lia. cbn [bind].
    cbv zeta. rewrite mask_ones by lia.
    pose proof (block_range64 (i / u)) as Hb64.
    assert (0 <= Z.land (block (i / u)) (Z.ones (i mod u)) < 2 ^ 64)
      by (apply land_range; assumption).
    rewrite popcount_bitcount, bitcount_land_ones by lia.
    rewrite Nat.min_r by lia.
    replace (rank1 bits (i / s * q * u)
             + (rank1 bits (i / u * u) - rank1 bits (i / s * q * u)))
      with (rank1 bits (i / u * u)) by lia.
    pose proof nblocks_range.
    rewrite <- rank1_block by lia.
    replace (i / u * u + i mod u) with i by lia.
    pose proof (rank1_range i). 
    rewrite wrap64_small, wrap32_small by lia. reflexivity.
Qed.

(** [rrr_rank0] is [i - rank1(i)], cut to 32 bits. *)
Lemma rank0_spec i :
  no_full_block bits u -> 0 <= i < 2 ^ 64 ->
  rrr_rank0 r i = Ok (wrap32 (i - rank1 bits (Z.min i n))).
Proof.
  intros Hfull Hi. unfold rrr_rank0. rewrite rank1_spec by side.
  cbn [bind].
  assert (0 <= rank1 bits (Z.min i n) <= i).
  { unfold rank1.
    pose proof (bitcount_range (Z.to_nat (Z.min i n)) (data bits)). lia. }
  rewrite wrap64_small by lia. reflexivity.
Qed.

(** [rrr_access] returns the bit of the source, for blocks of at most 31
    bits. *)
Lemma access_spec i :
  u <= 31 -> 0 <= i < n ->
  rrr_access r i = Ok (Z.b2z (bit bits i)).
Proof.
  intros Hu31 Hi. destruct r_built as
    [Hsz Hrk Hnb Hnm Hbn Hmn Hcv Hrv Hmv Hcl Hof Hrs Hmo].
  unfold rrr_access. rewrite Hsz.
  replace (i <? n) with true by (symmetry; apply Z.ltb_lt; lia).
  cbn [bind assert].
  rewrite start_at_spec by lia. cbn [bind].
  rewrite locate_spec by (try lia; left; reflexivity). cbn [bind].
  pose proof (Z.div_mod i u ltac:(lia)) as Hdm.
  pose proof (Z.mod_pos_bound i u ltac:(lia)) as Hmod.
  assert (Hc0 : 0 <= i / u) by (apply Z.div_pos; lia).
  assert (Hcn : i / u < nblocks) by (apply block_lt; lia).
  pose proof (class_range (i / u)) as Hcr. unfold Source.class_of in Hcr.
  rewrite block_at_spec by lia. cbn [bind].
  rewrite shl_int1_small by lia. rewrite bit_extract by lia.
  pose proof nblocks_range.
  rewrite block_testbit by lia.
  replace (i / u * u + i mod u) with i by lia.
  unfold bit. destruct (Z.testbit (data bits) i); reflexivity.
Qed.

(** [rrr_select1] returns the position after the [j]-th 1-bit whenever
    [rrr_find_marker] returns an index below [2^63]. *)
Lemma select1_spec j m :
  no_full_block bits u -> 1 <= j <= rank1 bits n ->
  rrr_find_marker r j = Ok m -> m < 2 ^ 63 ->
  exists p,
    rrr_select1 r j = Ok p
    /\ 1 <= p <= n /\ bit bits (p - 1) = true /\ rank1 bits p = j.
Proof.
  intros Hfull Hj Hfind Hm. pose proof s_eq as Hs.
  destruct (find_marker_sound j ltac:(lia)) as (m' & E & Hcase).
  rewrite E in Hfind. injection Hfind as ->.
  assert (Hal : m * s = m * q * u) by (rewrite Hs at 1; ring).
  destruct Hcase as [Hz|[(Hm1 & Hin & Hrk)|Hbig]]; [| |lia].
  - apply (select1_from m (m * q) j); first [assumption | lia].
  - apply (select1_from m (m * q) j); first [assumption | lia].
Qed.

End Construction.

(** * The properties of the specification *)

Lemma S1_valid : valid_input S1_bits 3 3.
Proof. unfold valid_input, wf. cbn. lia. Qed.

Lemma S1_alloc {pf : Platform} :
  rrr_alloc S1_bits 3 3 = Ok (S1_bits, S1_rrr).
Proof. vm_compute. reflexivity. Qed.

(** ** Codec *)

(** X5 (values to offsets and back): for a [u]-bit value [v] with fewer
    than 64 1-bits, [rrr_encode_block] returns an offset and
    [rrr_decode_block] maps the class and that offset back to [v]. *)
Theorem decode_encode_roundtrip {pf : Platform} u v :
  1 <= u <= 64 -> 0 <= v < 2 ^ u -> popcount v < 64 ->
  exists o,
    rrr_encode_block u (popcount v) v = Ok o
    /\ rrr_decode_block u (popcount v) o = Ok v.
Proof.
  intros Hu Hv Hc. eexists. split.
  - apply rrr_encode_block_eq; assumption.
  - apply rrr_decode_encode; assumption.
Qed.

(** The block of sixty-four 1-bits decodes to what [1ULL << 64] makes of
    it: to itself only where that shift gives 0. *)
Theorem decode_block_64_platform {pf : Platform} :
  rrr_decode_block 64 64 0 = Ok (wrap64 (wrap64 (shl64_overflow 64) - 1))
  /\ (rrr_decode_block 64 64 0 = Ok (2 ^ 64 - 1)
      <-> wrap64 (shl64_overflow 64) = 0).
Proof.
  assert (Hl : decode_loop (Z.to_nat (64 - 1)) 64 0 0 = (64, 0))
    by (vm_compute; reflexivity).
  assert (Ha : (0 <? binomial 64 64) = true) by (vm_compute; reflexivity).
  assert (E : rrr_decode_block 64 64 0
              = Ok (wrap64 (wrap64 (shl64_overflow 64) - 1))).
  { unfold rrr_decode_block. rewrite Hl, Ha.
    change (0 <? 64) with true. change (64 <=? 64) with true.
    cbn [bind assert]. cbv iota. unfold shl64.
    change (64 <? 64) with false. cbv iota.
    rewrite Z.lor_0_l. reflexivity. }
  split; [exact E|]. rewrite E.
  pose proof (wrap64_range (shl64_overflow 64)) as Hw.
  set (w := wrap64 (shl64_overflow 64)) in *.
  split.
  - intros H. injection H as H.
    destruct (Z.eq_dec w 0) as [|Hn]; [assumption|].
    rewrite wrap64_small in H by lia. lia.
  - intros ->. reflexivity.
Qed.

(** C3 (codec round-trip) fails on the code for [u = 64], [c = 64]: the
    block of sixty-four 1-bits encodes to offset 0, and decoding offset 0
    of class 64 evaluates [(1ULL << 64) - 1], a shift by the width of the
    type; on x86-64, where that shift gives 1, the decoder returns 0. *)
Theorem decode_block_64_ones :
  popcount (2 ^ 64 - 1) = 64
  /\ rrr_encode_block 64 64 (2 ^ 64 - 1) = Ok 0
  /\ rrr_decode_block (pf := x86_64) 64 64 0 = Ok 0.
Proof. vm_compute. repeat split. Qed.

(** C7 (offset bound): for a [u]-bit value [v] of class [c], the encoder
    returns an offset below [binomial u c], the binomial coefficient, when
    [0 < c < u], and 0 when [c = 0] or [c = u]; either way the offset fits
    the [offset_nbits u c] bits, the logarithm of the coefficient rounded
    up, that it is given in the offsets stream. *)
Theorem encode_offset_bound u c v :
  1 <= u <= 64 -> 0 <= c <= u -> 0 <= v < 2 ^ u -> popcount v = c ->
  exists o,
    rrr_encode_block u c v = Ok o
    /\ (0 < c < u -> 0 <= o < binomial u c)
    /\ (c = 0 \/ c = u -> o = 0)
    /\ 0 <= o < 2 ^ offset_nbits u c
    /\ offset_nbits u c = Z.log2_up (binomial u c)
    /\ binomial u c = choose (Z.to_nat u) (Z.to_nat c).
Proof.
  intros Hu Hc Hv Hpc. subst c.
  exists (encode_loop (Z.to_nat (u - 1)) (popcount v) v 0).
  assert (Hv64 : 0 <= v < 2 ^ 64).
  { split; [lia|]. apply Z.lt_le_trans with (2 ^ u); [lia|].
    apply Z.pow_le_mono_r; lia. }
  assert (Hbc : bitcount (S (Z.to_nat (u - 1))) v = popcount v).
  { rewrite popcount_bitcount by assumption. symmetry.
    apply bitcount_small; [|lia].
    replace (Z.of_nat (S (Z.to_nat (u - 1)))) with u by lia. assumption. }
  pose proof (encode_loop_bound (Z.to_nat (u - 1)) (popcount v) v
                ltac:(lia) Hbc) as Hb.
  replace (Z.of_nat (Z.to_nat (u - 1)) + 1) with u in Hb by lia.
  pose proof (binomial_range u (popcount v) Hc ltac:(lia)) as Hr.
  pose proof (nbits_fits (binomial u (popcount v)) ltac:(lia)) as Hf.
  split; [apply rrr_encode_block_eq; assumption|].
  split; [intros _; exact Hb|].
  split.
  - intros [H0|Hfull].
    + rewrite H0. apply encode_loop_0.
    + apply encode_loop_full. lia.
  - split; [unfold offset_nbits; lia|].
    split; [unfold offset_nbits; apply nbits_log2_up; lia|].
    rewrite <- (Z2Nat.id u) at 1 by lia.
    rewrite <- (Z2Nat.id (popcount v)) at 1 by lia.
    apply binomial_choose; lia.
Qed.

Lemma encode_offset_bound_witness :
  (1 <= 5 <= 64 /\ 0 <= 2 <= 5 /\ 0 <= 24 < 2 ^ 5 /\ popcount 24 = 2)
  /\ exists o,
       rrr_encode_block 5 2 24 = Ok o
       /\ (0 < 2 < 5 -> 0 <= o < binomial 5 2)
       /\ (2 = 0 \/ 2 = 5 -> o = 0)
       /\ 0 <= o < 2 ^ offset_nbits 5 2
       /\ offset_nbits 5 2 = Z.log2_up (binomial 5 2)
       /\ binomial 5 2 = choose (Z.to_nat 5) (Z.to_nat 2).
Proof.
  split.
  - repeat split; (lia || reflexivity).
  - apply (encode_offset_bound 5 2 24); (lia || reflexivity).
Defined.

(** ** Construction *)

(** C10 (frame): on a valid input [rrr_alloc] returns; it reads the input
    block by block with [record_nbits] set to the block width, so that the
    class stored for block [k] is the popcount of record [k] of that
    width, and the input vector it leaves behind is the one it was given,
    record width and bits. *)
Theorem rrr_alloc_restores_input {pf : Platform} bits u s :
  valid_input bits u s ->
  exists bits' r,
    rrr_alloc bits u s = Ok (bits', r)
    /\ bits' = bits
    /\ forall k, 0 <= k < nblocks r ->
         bit_vector_read_record (classes r) k
         = popcount (bit_vector_read_record (set_record_nbits bits u) k).
Proof.
  intros (Hwf & Hn & Hu & Hs).
  destruct (rrr_alloc_built bits u s Hwf Hn Hu Hs) as (r & E & Hb).
  exists bits, r. split; [exact E|]. split; [reflexivity|].
  intros k Hk. rewrite (Source.b_nblocks _ _ _ _ Hb) in Hk.
  apply (Source.b_classes _ _ _ _ Hb). exact Hk.
Qed.

Lemma rrr_alloc_restores_input_witness :
  valid_input S1_bits 3 3
  /\ exists bits' r,
       rrr_alloc (pf := x86_64) S1_bits 3 3 = Ok (bits', r)
       /\ bits' = S1_bits
       /\ forall k, 0 <= k < nblocks r ->
            bit_vector_read_record (classes r) k
            = popcount
                (bit_vector_read_record (set_record_nbits S1_bits 3) k).
Proof.
  split.
  - unfold valid_input, wf. cbn. lia.
  - apply (rrr_alloc_restores_input (pf := x86_64) S1_bits 3 3).
    unfold valid_input, wf. cbn. lia.
Defined.

(** X13 (marked ranks): every marker [m] whose boundary [(m + 1) * s] is
    within the blocks, [(m + 1) * s <= nblocks * u], holds the number of
    1-bits of the source before the boundary, the boundary cut to the
    length of the source. *)
Theorem marked_ranks_written {pf : Platform} bits u s bits' r m :
  valid_input bits u s ->
  rrr_alloc bits u s = Ok (bits', r) ->
  0 <= m -> (m + 1) * s <= nblocks r * u ->
  bit_vector_read_record (marked_ranks r) m
  = rank1 bits (Z.min ((m + 1) * s) (BitVector.size bits)).
Proof.
  intros (Hwf & Hn & Hu & Hs) Halloc Hm Hle.
  destruct (rrr_alloc_built bits u s Hwf Hn Hu Hs) as (r' & E & Hb).
  rewrite E in Halloc. injection Halloc as _ <-.
  rewrite (Source.b_nblocks _ _ _ _ Hb) in Hle.
  apply (marked_ranks_spec bits u s); assumption.
Qed.

(** C5 (marker consistency) fails on the code: with [n = 8], [u = 3],
    [s = 6] there are two markers, the window of the second one ends at
    bit 12, past the last block, and the loop never writes it;
    [marked_ranks[1]] keeps the 0 of the allocation while the source has 4
    one-bits. *)
Theorem last_marker_not_written :
  exists r,
    rrr_alloc (pf := x86_64) S1_bits 3 6 = Ok (S1_bits, r)
    /\ nmarkers r = 2
    /\ bit_vector_read_record (marked_ranks r) 0 = 3
    /\ bit_vector_read_record (marked_ranks r) 1 = 0
    /\ rank1 S1_bits (Z.min ((1 + 1) * 6) 8) = 4.
Proof.
  eexists. split; [vm_compute; reflexivity|]. vm_compute. repeat split.
Qed.

(** ** Queries *)

(** C1 (access agreement) fails on the code when the marker period is not
    a multiple of the block width: with [u = 2], [s = 3] on S1's vector,
    bit 3 of the source is 1 and [rrr_access] returns 0. *)
Theorem access_wrong_past_marker :
  exists r,
    rrr_alloc (pf := x86_64) S1_bits 2 3 = Ok (S1_bits, r)
    /\ bit S1_bits 3 = true
    /\ rrr_access (pf := x86_64) r 3 = Ok 0.
Proof.
  eexists. split; [vm_compute; reflexivity|]. vm_compute. split; reflexivity.
Qed.

(** [rrr_access] also shifts the [int] constant 1 by the bit index in the
    block, which is undefined from index 31 on: on x86-64, with 33-bit
    blocks, the mask for index 31 is the sign-extended [INT_MIN] and the
    mask for index 32 is 1. *)
Theorem access_int_shift :
  let bits := of_bits (repeat true 33) in
  exists r,
    rrr_alloc (pf := x86_64) bits 33 33 = Ok (bits, r)
    /\ rrr_access (pf := x86_64) r 30 = Ok 1
    /\ rrr_access (pf := x86_64) r 31 = Ok 3
    /\ rrr_access (pf := x86_64) r 32 = Ok 0
    /\ bit bits 32 = true.
Proof.
  eexists. split; [vm_compute; reflexivity|]. vm_compute. repeat split.
Qed.

(** [rrr_access] returns the bit of the source when the marker period is a
    multiple of the block width and blocks have at most 31 bits. *)
Theorem rrr_access_correct {pf : Platform} bits u s bits' r i :
  valid_input bits u s -> s mod u = 0 -> u <= 31 ->
  rrr_alloc bits u s = Ok (bits', r) ->
  0 <= i < BitVector.size bits ->
  rrr_access r i = Ok (Z.b2z (bit bits i)).
Proof.
  intros (Hwf & Hn & Hu & Hs) Hmul Hu31 Halloc Hi.
  destruct (rrr_alloc_built bits u s Hwf Hn Hu Hs) as (r' & E & Hb).
  rewrite E in Halloc. injection Halloc as _ <-.
  apply (access_spec bits u s); assumption.
Qed.





(** Where [rrr_rank1] goes wrong.  When a marker boundary falls inside a
    block, the query restarts at that block with the rank and the offset
    position recorded past the boundary: on S1's vector with [u = 3],
    [s = 4] it returns 4 at [i = 4], where the source has 3 1-bits.  And a
    block of sixty-four 1-bits is decoded with [(1ULL << 64) - 1]: on
    x86-64 it decodes to 0, and the rank at [i = 5] is 0 instead of 5. *)
Theorem rank1_defects :
  (exists r,
     rrr_alloc (pf := x86_64) S1_bits 3 4 = Ok (S1_bits, r)
     /\ rrr_rank1 (pf := x86_64) r 4 = Ok 4
     /\ rank1 S1_bits 4 = 3)
  /\ (exists r,
        rrr_alloc (pf := x86_64) ones64_bits 64 64 = Ok (ones64_bits, r)
        /\ rrr_rank1 (pf := x86_64) r 5 = Ok 0
        /\ rank1 ones64_bits 5 = 5).
Proof.
  split.
  - eexists. split; [vm_compute; reflexivity|]. vm_compute. split; reflexivity.
  - eexists. split; [vm_compute; reflexivity|]. vm_compute. split; reflexivity.
Qed.

(** C9 (rank0 past the end), amended: for [i >= n], [rrr_rank1] returns
    [rank], the number of 1-bits of the source, and [rrr_rank0] returns
    [i - rank] modulo [2^32]: it does not saturate at [n - rank], and as
    long as [i - rank] is below [2^32] it is [i - rank], which for [i > n]
    is more than the [n - rank] 0-bits of the source. *)
Theorem rank0_past_end {pf : Platform} bits u s bits' r i :
  valid_input bits u s ->
  rrr_alloc bits u s = Ok (bits', r) ->
  BitVector.size bits <= i < 2 ^ 64 ->
  rank r = rank1 bits (BitVector.size bits)
  /\ rrr_rank1 r i = Ok (rank r)
  /\ rrr_rank0 r i = Ok ((i - rank r) mod 2 ^ 32)
  /\ (i - rank r < 2 ^ 32 -> rrr_rank0 r i = Ok (i - rank r))
  /\ (BitVector.size bits < i -> BitVector.size bits - rank r < i - rank r).
Proof.
  intros (Hwf & Hn & Hu & Hs) Halloc Hi.
  destruct (rrr_alloc_built bits u s Hwf Hn Hu Hs) as (r' & E & Hb).
  rewrite E in Halloc. injection Halloc as _ <-.
  destruct Hb as [Hsz Hrk _ _ _ _ _ _ _ _ _ _ _].
  pose proof (rank1_range bits Hwf Hn (BitVector.size bits)) as Hr.
  assert (E1 : rrr_rank1 r' i = Ok (rank r')).
  { unfold rrr_rank1. rewrite Hsz.
    replace (BitVector.size bits <=? i) with true
      by (symmetry; apply Z.leb_le; lia).
    rewrite Hrk, wrap32_small by lia. reflexivity. }
  assert (E0 : rrr_rank0 r' i = Ok ((i - rank r') mod 2 ^ 32)).
  { unfold rrr_rank0. rewrite E1. cbn [bind].
    rewrite Hrk, wrap64_small by lia. reflexivity. }
  split; [exact Hrk|]. split; [exact E1|]. split; [exact E0|].
  split; [|lia].
  intros Hsmall. rewrite E0, Z.mod_small by lia. reflexivity.
Qed.

Lemma rank0_past_end_witness :
  (valid_input S1_bits 3 3
   /\ rrr_alloc (pf := x86_64) S1_bits 3 3 = Ok (S1_bits, S1_rrr)
   /\ BitVector.size S1_bits <= 10 < 2 ^ 64)
  /\ rank S1_rrr = rank1 S1_bits (BitVector.size S1_bits)
  /\ rrr_rank1 (pf := x86_64) S1_rrr 10 = Ok (rank S1_rrr)
  /\ rrr_rank0 (pf := x86_64) S1_rrr 10 = Ok ((10 - rank S1_rrr) mod 2 ^ 32)
  /\ (10 - rank S1_rrr < 2 ^ 32 ->
      rrr_rank0 (pf := x86_64) S1_rrr 10 = Ok (10 - rank S1_rrr))
  /\ (BitVector.size S1_bits < 10 ->
      BitVector.size S1_bits - rank S1_rrr < 10 - rank S1_rrr).
Proof.
  assert (Hv : valid_input S1_bits 3 3)
    by (unfold valid_input, wf; cbn; lia).
  assert (Ha : rrr_alloc (pf := x86_64) S1_bits 3 3 = Ok (S1_bits, S1_rrr))
    by (vm_compute; reflexivity).
  split.
  - split; [exact Hv|]. split; [exact Ha | cbn; lia].
  - apply (rank0_past_end (pf := x86_64) S1_bits 3 3 S1_bits S1_rrr 10 Hv Ha).
    cbn. lia.
Defined.

(** For large [i] the result is not [i - rank]: on S1 ([n = 8],
    [rank = 4]),
    [rrr_rank0] at [i = 2^32 + 4] returns 0, neither [i - rank] nor more
    than the four 0-bits of the source. *)
Lemma rank0_past_end_counterexample :
  rrr_alloc (pf := x86_64) S1_bits 3 3 = Ok (S1_bits, S1_rrr)
  /\ rank S1_rrr = 4
  /\ BitVector.size S1_bits <= 2 ^ 32 + 4
  /\ rrr_rank0 (pf := x86_64) S1_rrr (2 ^ 32 + 4) = Ok 0
  /\ 2 ^ 32 + 4 - 4 <> 0.
Proof. vm_compute. repeat split; discriminate. Qed.

(** [rrr_select1] returns 0 for every [j] above the rank. *)
Lemma select1_above_rank {pf : Platform} r j :
  rank r < j -> rrr_select1 r j = Ok 0.
Proof.
  intros H. unfold rrr_select1.
  replace (rank r <? j) with true by (symmetry; apply Z.ltb_lt; lia).
  reflexivity.
Qed.

(** C6 (select1 sentinels): on every instance that [rrr_alloc] builds,
    [rrr_select1] returns 0 at [j = 0] and at every [j] above the rank. *)
Theorem select1_sentinels {pf : Platform} bits u s bits' r :
  valid_input bits u s ->
  rrr_alloc bits u s = Ok (bits', r) ->
  rrr_select1 r 0 = Ok 0
  /\ forall j, rank r < j -> rrr_select1 r j = Ok 0.
Proof.
  intros (Hwf & Hn & Hu & Hs) Halloc.
  destruct (rrr_alloc_built bits u s Hwf Hn Hu Hs) as (r' & E & Hb).
  rewrite E in Halloc. injection Halloc as _ <-.
  split.
  - apply (select1_zero_spec bits u s); assumption.
  - intros j Hj. apply select1_above_rank. exact Hj.
Qed.

Lemma select1_sentinels_witness :
  (valid_input S1_bits 3 3
   /\ rrr_alloc (pf := x86_64) S1_bits 3 3 = Ok (S1_bits, S1_rrr))
  /\ rrr_select1 (pf := x86_64) S1_rrr 0 = Ok 0
  /\ forall j, rank S1_rrr < j -> rrr_select1 (pf := x86_64) S1_rrr j = Ok 0.
Proof.
  assert (Hv : valid_input S1_bits 3 3)
    by (unfold valid_input, wf; cbn; lia).
  assert (Ha : rrr_alloc (pf := x86_64) S1_bits 3 3 = Ok (S1_bits, S1_rrr))
    by (vm_compute; reflexivity).
  split.
  - split; [exact Hv | exact Ha].
  - apply (select1_sentinels (pf := x86_64) S1_bits 3 3 S1_bits S1_rrr Hv Ha).
Defined.

(** C4 (rank/select inverse) fails on the code.  On [110 110 110] with
    [u = s = 3] the marked ranks are 2, 4, 6; for [j = 3] the binary search
    of [rrr_find_marker] ends on a probe below [j], leaves [k] at the
    midpoint computed from [lo > hi] and returns [2^63 + 1]; [rrr_select1]
    then starts past the last block and uses [class] and [width]
    uninitialised.  On S1's vector with [u = 3], [s = 4] (a marker period
    that is not a multiple of the block width) [rrr_select1] at [j = 4]
    returns 4, where [rrr_rank1] at 3 is 2 and the fourth 1-bit of the
    source is bit 6. *)
Theorem select1_bad_marker :
  (exists r,
     rrr_alloc (pf := x86_64) B9_bits 3 3 = Ok (B9_bits, r)
     /\ rank r = 6
     /\ map (bit_vector_read_record (marked_ranks r)) [0; 1; 2] = [2; 4; 6]
     /\ rrr_find_marker r 3 = Ok (2 ^ 63 + 1)
     /\ rrr_select1 (pf := x86_64) r 3 = Undef)
  /\ (exists r,
        rrr_alloc (pf := x86_64) S1_bits 3 4 = Ok (S1_bits, r)
        /\ rank r = 4
        /\ rrr_select1 (pf := x86_64) r 4 = Ok 4
        /\ rrr_rank1 (pf := x86_64) r (4 - 1) = Ok 2
        /\ bit S1_bits 6 = true
        /\ rank1 S1_bits 6 = 3).
Proof.
  split.
  - eexists. split; [vm_compute; reflexivity|]. vm_compute. repeat split.
  - eexists. split; [vm_compute; reflexivity|]. vm_compute. repeat split.
Qed.

(** C8 (scenario S1): [B = 11010010], [u = 3], [s = 3]. *)
Theorem scenario_S1 {pf : Platform} :
  rrr_alloc S1_bits 3 3 = Ok (S1_bits, S1_rrr)
  /\ map (bit_vector_read_record (classes S1_rrr)) [0; 1; 2] = [2; 1; 1]
  /\ rank S1_rrr = 4
  /\ map (rrr_rank1 S1_rrr) [0; 1; 2; 3; 4; 5; 6; 7; 8]
     = map Ok [0; 1; 2; 2; 3; 3; 3; 4; 4]
  /\ map (rrr_select1 S1_rrr) [1; 2; 3; 4] = map Ok [1; 2; 4; 7]
  /\ map (rrr_access S1_rrr) [0; 1; 2; 3; 4; 5; 6; 7]
     = map Ok [1; 1; 0; 1; 0; 0; 1; 0].
Proof. vm_compute. repeat split. Qed.

(** * Further properties of the code *)

(** ** Words *)

(** X1 ([popcount]): on a 64-bit word the folding code of [popcount]
    returns the number of 1-bits, between 0 and 64, and 0 only for the
    word 0. *)
Theorem popcount_counts_bits x :
  0 <= x < 2 ^ 64 ->
  popcount x = bitcount 64 x
  /\ 0 <= popcount x <= 64
  /\ (popcount x = 0 <-> x = 0).
Proof.
  intros Hx. pose proof (popcount_bitcount x Hx) as E.
  pose proof (bitcount_range 64 x) as Hr.
  split; [exact E|]. split; [lia|]. split.
  - intros H0. rewrite E in H0.
    pose proof (bitcount_none 64 x H0) as Hz.
    apply Z.bits_inj'. intros i Hi. rewrite Z.bits_0.
    destruct (Z.lt_ge_cases i 64) as [Hlt|Hge].
    + apply Hz. lia.
    + apply (testbit_above 64); [exact Hx|lia].
  - intros ->. vm_compute. reflexivity.
Qed.

Lemma popcount_counts_bits_witness :
  0 <= 210 < 2 ^ 64
  /\ popcount 210 = bitcount 64 210
  /\ 0 <= popcount 210 <= 64
  /\ (popcount 210 = 0 <-> 210 = 0).
Proof.
  split; [lia|]. apply (popcount_counts_bits 210). lia.
Defined.

(** X2 ([nbits]): [nbits x] is the base-2 logarithm of [x] rounded up, 0
    for [x <= 1]: the least width that holds the [x] values [0 .. x-1]. *)
Theorem nbits_ceil_log2 x :
  0 <= x < 2 ^ 64 ->
  nbits x = Z.log2_up x
  /\ (x <= 1 -> nbits x = 0)
  /\ (2 <= x -> 2 ^ (nbits x - 1) < x <= 2 ^ nbits x).
Proof.
  intros Hx. pose proof (nbits_log2_up x Hx) as E.
  split; [exact E|]. split.
  - intros H1. rewrite E. apply Z.log2_up_eqn0. exact H1.
  - intros H2. rewrite E.
    pose proof (Z.log2_up_spec x ltac:(lia)) as Hs.
    replace (Z.pred (Z.log2_up x)) with (Z.log2_up x - 1) in Hs by lia.
    exact Hs.
Qed.

Lemma nbits_ceil_log2_witness :
  0 <= 9 < 2 ^ 64
  /\ nbits 9 = Z.log2_up 9
  /\ (9 <= 1 -> nbits 9 = 0)
  /\ (2 <= 9 -> 2 ^ (nbits 9 - 1) < 9 <= 2 ^ nbits 9).
Proof.
  split; [lia|]. apply (nbits_ceil_log2 9). lia.
Defined.

(** ** The binomial table *)

(** X3 ([rrr_precompute_binomials]): every entry [binomial[n][k]] with
    [0 <= k <= n <= 64] is the binomial coefficient, no sum of the table
    wraps around 64 bits, and the rows are symmetric. *)
Theorem binomial_table_exact n k :
  0 <= k <= n -> n <= 64 ->
  binomial n k = choose (Z.to_nat n) (Z.to_nat k)
  /\ 0 < binomial n k < 2 ^ 63
  /\ binomial n k = binomial n (n - k).
Proof.
  intros Hk Hn. split; [|split].
  - rewrite <- (Z2Nat.id n) at 1 by lia.
    rewrite <- (Z2Nat.id k) at 1 by lia.
    apply binomial_choose; lia.
  - apply binomial_range; lia.
  - pose proof (width_checked n k Hk Hn) as H. unfold width_ok in H.
    rewrite !andb_true_iff in H. destruct H as [[H _] _].
    apply Z.eqb_eq in H. exact H.
Qed.

Lemma binomial_table_exact_witness :
  (0 <= 32 <= 64 /\ 64 <= 64)
  /\ binomial 64 32 = choose (Z.to_nat 64) (Z.to_nat 32)
  /\ 0 < binomial 64 32 < 2 ^ 63
  /\ binomial 64 32 = binomial 64 (64 - 32).
Proof.
  split; [lia|]. apply (binomial_table_exact 64 32); lia.
Defined.

(** X4 ([offset_nbits]): the offset of a class takes no bit exactly when
    the class is 0 or the block width; no class takes more bits than class
    [u / 2], the width [rrr_alloc] provisions for every block, and that
    is at most 61 bits. *)
Theorem offset_nbits_bounds u c :
  0 <= c <= u -> u <= 64 ->
  (offset_nbits u c = 0 <-> c = 0 \/ c = u)
  /\ offset_nbits u c <= offset_nbits u (u / 2) <= 61.
Proof.
  intros Hc Hu.
  pose proof (width_checked u c Hc Hu) as H. unfold width_ok in H.
  rewrite !andb_true_iff in H. destruct H as [[_ Hz] _].
  apply Bool.eqb_prop in Hz.
  assert (Hhalf : 0 <= u / 2 <= u).
  { split; [apply Z.div_pos; lia|]. apply Z.div_le_upper_bound; lia. }
  pose proof (width_checked u (u / 2) Hhalf Hu) as H2. unfold width_ok in H2.
  rewrite !andb_true_iff in H2. destruct H2 as [_ H61].
  apply Z.leb_le in H61.
  split; [|split; [apply offset_nbits_max; lia|exact H61]].
  split.
  - intros H0. apply Z.eqb_eq in H0. rewrite H0 in Hz. symmetry in Hz.
    apply orb_true_iff in Hz. destruct Hz as [Hz|Hz]; apply Z.eqb_eq in Hz;
      [left|right]; exact Hz.
  - intros Hor. apply Z.eqb_eq. rewrite Hz. apply orb_true_iff.
    destruct Hor as [->| ->]; [left|right]; apply Z.eqb_refl.
Qed.

Lemma offset_nbits_bounds_witness :
  (0 <= 2 <= 5 /\ 5 <= 64)
  /\ (offset_nbits 5 2 = 0 <-> 2 = 0 \/ 2 = 5)
  /\ offset_nbits 5 2 <= offset_nbits 5 (5 / 2) <= 61.
Proof.
  split; [lia|]. apply (offset_nbits_bounds 5 2); lia.
Defined.

(** ** The block codec *)

Lemma decode_encode_roundtrip_witness :
  (1 <= 5 <= 64 /\ 0 <= 24 < 2 ^ 5 /\ popcount 24 < 64)
  /\ exists o,
       rrr_encode_block 5 (popcount 24) 24 = Ok o
       /\ rrr_decode_block (pf := x86_64) 5 (popcount 24) o = Ok 24.
Proof.
  split.
  - split; [lia|]. split; [lia|]. vm_compute. reflexivity.
  - apply (decode_encode_roundtrip (pf := x86_64) 5 24);
      [lia | lia | vm_compute; reflexivity].
Defined.

(** X6 (offsets to values): for a class [c] below 64 and an offset below
    [binomial[u][c]], [rrr_decode_block] returns a [u]-bit value of
    popcount [c], and [rrr_encode_block] maps that value back to the
    offset: with the round trip this makes the codec a bijection between
    the values of a class and the offsets below the coefficient. *)
Theorem encode_decode_roundtrip {pf : Platform} u c o :
  1 <= u <= 64 -> 0 <= c <= u -> c < 64 -> 0 <= o < binomial u c ->
  exists v,
    rrr_decode_block u c o = Ok v
    /\ 0 <= v < 2 ^ u /\ popcount v = c
    /\ rrr_encode_block u c v = Ok o.
Proof.
  intros Hu Hc Hc64 Ho.
  assert (HZ : Z.of_nat (Z.to_nat (u - 1)) + 1 = u) by lia.
  destruct (decode_loop_inv (Z.to_nat (u - 1)) c o 0)
    as (c' & val & w & E & Hc' & Hw & L & Bc & En);
    try rewrite HZ; try lia.
  rewrite HZ in Hw. rewrite Z.lor_0_l in L.
  assert (Hw64 : 0 <= w < 2 ^ 64).
  { split; [lia|]. apply Z.lt_le_trans with (2 ^ u); [lia|].
    apply Z.pow_le_mono_r; lia. }
  assert (Hpc : popcount w = c).
  { rewrite popcount_bitcount by assumption. rewrite <- Bc.
    apply bitcount_small; [|lia].
    replace (Z.of_nat (S (Z.to_nat (u - 1)))) with u by lia. assumption. }
  exists w. split; [|split; [exact Hw|split; [exact Hpc|]]].
  - unfold rrr_decode_block.
    replace (0 <? u) with true by (symmetry; apply Z.ltb_lt; lia).
    replace (c <=? u) with true by (symmetry; apply Z.leb_le; lia).
    replace (o <? binomial u c) with true by (symmetry; apply Z.ltb_lt; lia).
    cbn [bind assert]. rewrite E.
    destruct (Z.ltb_spec 0 c') as [Hpos|Hzero].
    + rewrite mask_ones, L by lia. reflexivity.
    + assert (c' = 0) as -> by lia. rewrite Z.lor_0_r in L. rewrite L.
      reflexivity.
  - rewrite <- Hpc at 1. rewrite rrr_encode_block_eq by assumption.
    rewrite Hpc, En. reflexivity.
Qed.

Lemma encode_decode_roundtrip_witness :
  (1 <= 5 <= 64 /\ 0 <= 2 <= 5 /\ 2 < 64 /\ 0 <= 9 < binomial 5 2)
  /\ exists v,
       rrr_decode_block (pf := x86_64) 5 2 9 = Ok v
       /\ 0 <= v < 2 ^ 5 /\ popcount v = 2
       /\ rrr_encode_block 5 2 v = Ok 9.
Proof.
  assert (Hb : 0 <= 9 < binomial 5 2) by (vm_compute; split; congruence).
  split.
  - split; [lia|]. split; [lia|]. split; [lia|exact Hb].
  - apply (encode_decode_roundtrip (pf := x86_64) 5 2 9); lia.
Defined.

(** X7 (ascending order): on the values of one class the encoder is
    strictly increasing, so offsets number the values of a class in
    ascending numeric order, as the table in the source shows. *)
Theorem encode_block_monotone u v w :
  1 <= u <= 64 -> 0 <= v < w -> w < 2 ^ u -> popcount v = popcount w ->
  exists ov ow,
    rrr_encode_block u (popcount v) v = Ok ov
    /\ rrr_encode_block u (popcount w) w = Ok ow
    /\ ov < ow.
Proof.
  intros Hu Hv Hw Hpc.
  assert (H64 : 2 ^ u <= 2 ^ 64) by (apply Z.pow_le_mono_r; lia).
  assert (HZ : Z.of_nat (Z.to_nat (u - 1)) + 1 = u) by lia.
  assert (Hbc : forall x, 0 <= x < 2 ^ u ->
            bitcount (S (Z.to_nat (u - 1))) x = popcount x).
  { intros x Hx. rewrite popcount_bitcount by lia. symmetry.
    apply bitcount_small; [|lia].
    replace (Z.of_nat (S (Z.to_nat (u - 1)))) with u by lia. exact Hx. }
  exists (encode_loop (Z.to_nat (u - 1)) (popcount v) v 0),
         (encode_loop (Z.to_nat (u - 1)) (popcount w) w 0).
  split; [apply rrr_encode_block_eq; lia|].
  split; [apply rrr_encode_block_eq; lia|].
  rewrite <- Hpc.
  apply encode_loop_mono; [lia | apply Hbc; lia | |].
  - rewrite Hpc. apply Hbc. lia.
  - rewrite HZ, !Z.mod_small by lia. lia.
Qed.

Lemma encode_block_monotone_witness :
  (1 <= 5 <= 64 /\ 0 <= 10 < 12 /\ 12 < 2 ^ 5 /\ popcount 10 = popcount 12)
  /\ exists ov ow,
       rrr_encode_block 5 (popcount 10) 10 = Ok ov
       /\ rrr_encode_block 5 (popcount 12) 12 = Ok ow
       /\ ov < ow.
Proof.
  split.
  - split; [lia|]. split; [lia|]. split; [lia|]. vm_compute. reflexivity.
  - apply (encode_block_monotone 5 10 12);
      [lia | lia | lia | vm_compute; reflexivity].
Defined.

(** ** Construction *)

(** X8 (input checks of [rrr_alloc]): an empty vector, a block width
    above 64 and a marker period below the block width stop on an
    [assert]; a block width of 0 passes the three asserts and divides by
    zero; every other input is accepted and the input vector is left as
    it was. *)
Theorem rrr_alloc_checks {pf : Platform} bits u s :
  wf bits -> BitVector.size bits < 2 ^ 32 ->
  0 <= u <= 255 -> 0 <= s <= 255 ->
  (BitVector.size bits = 0 \/ 64 < u \/ s < u -> rrr_alloc bits u s = Abort)
  /\ (0 < BitVector.size bits -> u = 0 -> rrr_alloc bits u s = Undef)
  /\ (0 < BitVector.size bits -> 1 <= u <= 64 -> u <= s ->
      exists r, rrr_alloc bits u s = Ok (bits, r)).
Proof.
  intros Hwf Hn Hu Hs. split; [|split].
  - intros Hbad. unfold rrr_alloc, MAX_BLOCK_NBITS.
    destruct (Z.ltb_spec 0 (BitVector.size bits)) as [H0|H0];
      [|reflexivity].
    destruct (Z.leb_spec u 64) as [H1|H1]; [|reflexivity].
    destruct (Z.leb_spec u s) as [H2|H2]; [|reflexivity].
    lia.
  - intros H0 ->. unfold rrr_alloc, MAX_BLOCK_NBITS.
    replace (0 <? BitVector.size bits) with true
      by (symmetry; apply Z.ltb_lt; lia).
    replace (0 <=? s) with true by (symmetry; apply Z.leb_le; lia).
    reflexivity.
  - intros H0 H1 H2.
    destruct (rrr_alloc_built bits u s Hwf ltac:(lia) H1 ltac:(lia))
      as (r & E & _).
    exists r. exact E.
Qed.

Lemma rrr_alloc_checks_witness :
  (wf S1_bits /\ BitVector.size S1_bits < 2 ^ 32
   /\ 0 <= 0 <= 255 /\ 0 <= 3 <= 255)
  /\ (BitVector.size S1_bits = 0 \/ 64 < 0 \/ 3 < 0 ->
      rrr_alloc (pf := x86_64) S1_bits 0 3 = Abort)
  /\ (0 < BitVector.size S1_bits -> 0 = 0 ->
      rrr_alloc (pf := x86_64) S1_bits 0 3 = Undef)
  /\ (0 < BitVector.size S1_bits -> 1 <= 0 <= 64 -> 0 <= 3 ->
      exists r, rrr_alloc (pf := x86_64) S1_bits 0 3 = Ok (S1_bits, r)).
Proof.
  assert (Hw : wf S1_bits) by (unfold wf; cbn; lia).
  split.
  - split; [exact Hw|]. cbn. lia.
  - apply (rrr_alloc_checks (pf := x86_64) S1_bits 0 3 Hw); cbn; lia.
Defined.

(** X9 (header of the instance): [rrr_alloc] records the length of the
    source, its number of 1-bits as [rank], the two parameters, and the
    numbers of blocks and of markers, the length over [u] and over [s]
    rounded up. *)
Theorem rrr_alloc_header {pf : Platform} bits u s bits' r :
  valid_input bits u s ->
  rrr_alloc bits u s = Ok (bits', r) ->
  size r = BitVector.size bits
  /\ rank r = rank1 bits (BitVector.size bits)
  /\ block_nbits r = u /\ marker_nbits r = s
  /\ (nblocks r - 1) * u < BitVector.size bits <= nblocks r * u
  /\ (nmarkers r - 1) * s < BitVector.size bits <= nmarkers r * s.
Proof.
  intros (Hwf & Hn & Hu & Hs) Halloc.
  destruct (rrr_alloc_built bits u s Hwf Hn Hu Hs) as (r' & E & Hb).
  rewrite E in Halloc. injection Halloc as _ <-.
  destruct Hb as [Hsz Hrk Hnb Hnm Hbn Hmn _ _ _ _ _ _ _].
  rewrite Hnb, Hnm.
  split; [exact Hsz|]. split; [exact Hrk|]. split; [exact Hbn|].
  split; [exact Hmn|]. split.
  - apply (nblocks_spec bits u); assumption.
  - apply (nmarkers_spec bits u s); assumption.
Qed.

Lemma rrr_alloc_header_witness :
  (valid_input S1_bits 3 3
   /\ rrr_alloc (pf := x86_64) S1_bits 3 3 = Ok (S1_bits, S1_rrr))
  /\ size S1_rrr = BitVector.size S1_bits
  /\ rank S1_rrr = rank1 S1_bits (BitVector.size S1_bits)
  /\ block_nbits S1_rrr = 3 /\ marker_nbits S1_rrr = 3
  /\ (nblocks S1_rrr - 1) * 3 < BitVector.size S1_bits <= nblocks S1_rrr * 3
  /\ (nmarkers S1_rrr - 1) * 3 < BitVector.size S1_bits
     <= nmarkers S1_rrr * 3.
Proof.
  assert (Hv : valid_input S1_bits 3 3)
    by (unfold valid_input, wf; cbn; lia).
  assert (Ha : rrr_alloc (pf := x86_64) S1_bits 3 3 = Ok (S1_bits, S1_rrr))
    by (vm_compute; reflexivity).
  split.
  - split; [unfold valid_input, wf; cbn; lia | exact Ha].
  - apply (rrr_alloc_header (pf := x86_64) S1_bits 3 3 S1_bits S1_rrr Hv Ha).
Defined.

(** X10 (classes and offsets hold the source): for every block [k], the
    stored class and the offset field at the position given by the widths
    of the earlier blocks are what [rrr_encode_block] returns for the
    block; for a class below 64 [rrr_decode_block] rebuilds the block from
    them; and bit [i] of the block is bit [k * u + i] of the source. *)
Theorem rrr_alloc_lossless {pf : Platform} bits u s bits' r k :
  valid_input bits u s ->
  rrr_alloc bits u s = Ok (bits', r) ->
  0 <= k < nblocks r ->
  let c := bit_vector_read_record (classes r) k in
  let o := bit_vector_read (offsets r) (Source.pos bits u k)
             (offset_nbits u c) in
  rrr_encode_block u c (Source.block bits u k) = Ok o
  /\ (c < 64 -> rrr_decode_block u c o = Ok (Source.block bits u k))
  /\ (forall i, 0 <= i < u ->
        Z.testbit (Source.block bits u k) i = bit bits (k * u + i)).
Proof.
  intros (Hwf & Hn & Hu & Hs) Halloc Hk.
  destruct (rrr_alloc_built bits u s Hwf Hn Hu Hs) as (r' & E & Hb).
  rewrite E in Halloc. injection Halloc as _ <-.
  pose proof (nblocks_range bits u Hn Hu) as Hbr.
  destruct Hb as [_ _ Hnb _ _ _ _ _ _ Hcl Hof _ _].
  rewrite Hnb in Hk. cbv zeta. rewrite Hcl by exact Hk.
  fold (Source.width_of bits u k). rewrite Hof by exact Hk.
  unfold Source.enc_of, Source.class_of.
  pose proof (block_range bits u Hu k) as Hbk.
  split; [apply rrr_encode_block_eq; assumption|].
  split.
  - intros Hc. apply rrr_decode_encode; assumption.
  - intros i Hi. apply (block_testbit bits u Hwf Hn Hu); lia.
Qed.

Lemma rrr_alloc_lossless_witness :
  (valid_input S1_bits 3 3
   /\ rrr_alloc (pf := x86_64) S1_bits 3 3 = Ok (S1_bits, S1_rrr)
   /\ 0 <= 1 < nblocks S1_rrr)
  /\ (let c := bit_vector_read_record (classes S1_rrr) 1 in
      let o := bit_vector_read (offsets S1_rrr) (Source.pos S1_bits 3 1)
                 (offset_nbits 3 c) in
      rrr_encode_block 3 c (Source.block S1_bits 3 1) = Ok o
      /\ (c < 64 ->
          rrr_decode_block (pf := x86_64) 3 c o
          = Ok (Source.block S1_bits 3 1))
      /\ (forall i, 0 <= i < 3 ->
            Z.testbit (Source.block S1_bits 3 1) i
            = bit S1_bits (1 * 3 + i))).
Proof.
  assert (Hv : valid_input S1_bits 3 3)
    by (unfold valid_input, wf; cbn; lia).
  assert (Ha : rrr_alloc (pf := x86_64) S1_bits 3 3 = Ok (S1_bits, S1_rrr))
    by (vm_compute; reflexivity).
  split.
  - split; [exact Hv|]. split; [exact Ha | cbn; lia].
  - apply (rrr_alloc_lossless (pf := x86_64) S1_bits 3 3 S1_bits S1_rrr 1
             Hv Ha).
    cbn. lia.
Defined.

(** X11 (size of the offsets stream): [rrr_alloc] cuts the offsets stream
    to the bits written, the sum of the offset widths of all the blocks,
    which is within the [nblocks * offset_nbits(u, u / 2)] bits it
    allocated. *)
Theorem rrr_alloc_offsets_size {pf : Platform} bits u s bits' r :
  valid_input bits u s ->
  rrr_alloc bits u s = Ok (bits', r) ->
  BitVector.size (offsets r) = Source.pos bits u (nblocks r)
  /\ 0 <= Source.pos bits u (nblocks r)
     <= nblocks r * offset_nbits u (u / 2).
Proof.
  intros (Hwf & Hn & Hu & Hs) Halloc.
  destruct (rrr_alloc_offsets bits u s Hwf Hn Hu Hs) as (r' & E & Hsz & _).
  destruct (rrr_alloc_built bits u s Hwf Hn Hu Hs) as (r'' & E' & Hb).
  rewrite E in E'. injection E' as <-.
  rewrite E in Halloc. injection Halloc as _ <-.
  pose proof (nblocks_range bits u Hn Hu) as Hbr.
  rewrite (Source.b_nblocks _ _ _ _ Hb).
  split; [exact Hsz|]. apply (pos_bound bits u Hu). lia.
Qed.

Lemma rrr_alloc_offsets_size_witness :
  (valid_input S1_bits 3 3
   /\ rrr_alloc (pf := x86_64) S1_bits 3 3 = Ok (S1_bits, S1_rrr))
  /\ BitVector.size (offsets S1_rrr) = Source.pos S1_bits 3 (nblocks S1_rrr)
  /\ 0 <= Source.pos S1_bits 3 (nblocks S1_rrr)
     <= nblocks S1_rrr * offset_nbits 3 (3 / 2).
Proof.
  assert (Hv : valid_input S1_bits 3 3)
    by (unfold valid_input, wf; cbn; lia).
  assert (Ha : rrr_alloc (pf := x86_64) S1_bits 3 3 = Ok (S1_bits, S1_rrr))
    by (vm_compute; reflexivity).
  split.
  - split; [exact Hv | exact Ha].
  - apply (rrr_alloc_offsets_size (pf := x86_64) S1_bits 3 3 S1_bits S1_rrr
             Hv Ha).
Defined.

(** X12 (marked offsets): when the boundary [(m + 1) * s] of marker [m]
    falls in block [j], after its first bit and up to its last, and block
    [j] is not the last one, [marked_offsets[m]] is the position in the
    offsets stream of the offset of block [j + 1]. *)
Theorem marked_offsets_written {pf : Platform} bits u s bits' r m j :
  valid_input bits u s ->
  rrr_alloc bits u s = Ok (bits', r) ->
  0 <= m -> 0 <= j ->
  j * u < (m + 1) * s <= (j + 1) * u ->
  (j + 1) * u < BitVector.size bits ->
  bit_vector_read_record (marked_offsets r) m = Source.pos bits u (j + 1).
Proof.
  intros (Hwf & Hn & Hu & Hs) Halloc Hm Hj Hcross Hlast.
  destruct (rrr_alloc_built bits u s Hwf Hn Hu Hs) as (r' & E & Hb).
  rewrite E in Halloc. injection Halloc as _ <-.
  apply (Source.b_moffs _ _ _ _ Hb m j); assumption.
Qed.

Lemma marked_offsets_written_witness :
  exists r,
    (valid_input S1_bits 3 4
     /\ rrr_alloc (pf := x86_64) S1_bits 3 4 = Ok (S1_bits, r)
     /\ 0 <= 0 /\ 0 <= 1
     /\ 1 * 3 < (0 + 1) * 4 <= (1 + 1) * 3
     /\ (1 + 1) * 3 < BitVector.size S1_bits)
    /\ bit_vector_read_record (marked_offsets r) 0
       = Source.pos S1_bits 3 (1 + 1).
Proof.
  assert (Hv : valid_input S1_bits 3 4)
    by (unfold valid_input, wf; cbn; lia).
  eexists. split.
  - split; [exact Hv|]. split; [vm_compute; reflexivity|]. cbn. lia.
  - apply (marked_offsets_written (pf := x86_64) S1_bits 3 4 S1_bits _ 0 1
             Hv); [vm_compute; reflexivity | lia | lia | lia | cbn; lia].
Defined.

Lemma marked_ranks_written_witness :
  (valid_input S1_bits 3 3
   /\ rrr_alloc (pf := x86_64) S1_bits 3 3 = Ok (S1_bits, S1_rrr)
   /\ 0 <= 1 /\ (1 + 1) * 3 <= nblocks S1_rrr * 3)
  /\ bit_vector_read_record (marked_ranks S1_rrr) 1
     = rank1 S1_bits (Z.min ((1 + 1) * 3) (BitVector.size S1_bits)).
Proof.
  assert (Hv : valid_input S1_bits 3 3)
    by (unfold valid_input, wf; cbn; lia).
  assert (Ha : rrr_alloc (pf := x86_64) S1_bits 3 3 = Ok (S1_bits, S1_rrr))
    by (vm_compute; reflexivity).
  split.
  - split; [exact Hv|]. split; [exact Ha | cbn; lia].
  - apply (marked_ranks_written (pf := x86_64) S1_bits 3 3 S1_bits S1_rrr 1
             Hv Ha); cbn; lia.
Defined.

(** ** Queries *)

(** X14 (queries after an aligned marker): at a position [i] whose last
    marker boundary [(i / s) * s] is a multiple of the block width, in
    particular at every position before the first marker, [rrr_rank1]
    returns the number of 1-bits of the source before [i], and for blocks
    of at most 31 bits [rrr_access] returns bit [i] of the source. *)
Theorem queries_at_aligned_marker {pf : Platform} bits u s bits' r i :
  valid_input bits u s ->
  rrr_alloc bits u s = Ok (bits', r) ->
  u <= 63 \/ no_full_block bits u ->
  0 <= i < BitVector.size bits ->
  (i / s * s) mod u = 0 ->
  rrr_rank1 r i = Ok (rank1 bits i)
  /\ (u <= 31 -> rrr_access r i = Ok (Z.b2z (bit bits i))).
Proof.
  intros (Hwf & Hn & Hu & Hs) Halloc Hsmall Hi Hal.
  destruct (rrr_alloc_built bits u s Hwf Hn Hu Hs) as (r' & E & Hb).
  rewrite E in Halloc. injection Halloc as _ <-.
  assert (Hfull : no_full_block bits u).
  { destruct Hsmall as [Hu63|Hfull]; [|exact Hfull].
    apply (small_blocks_not_full bits u); assumption. }
  assert (Hm : 0 <= i / s * s).
  { apply Z.mul_nonneg_nonneg; [apply Z.div_pos|]; lia. }
  pose proof (Z.div_mod (i / s * s) u ltac:(lia)) as Hdm.
  rewrite Hal, Z.add_0_r in Hdm.
  assert (Hc : 0 <= i / s * s / u) by (apply Z.div_pos; lia).
  split.
  - apply (rank1_aligned bits u s Hwf Hn Hu Hs r' Hb i (i / s * s / u));
      try assumption. lia.
  - intros Hu31.
    apply (access_aligned bits u s Hwf Hn Hu Hs r' Hb i (i / s * s / u));
      try assumption. lia.
Qed.

Lemma queries_at_aligned_marker_witness :
  exists r,
    (valid_input S1_bits 3 4
     /\ rrr_alloc (pf := x86_64) S1_bits 3 4 = Ok (S1_bits, r)
     /\ (3 <= 63 \/ no_full_block S1_bits 3)
     /\ 0 <= 2 < BitVector.size S1_bits
     /\ (2 / 4 * 4) mod 3 = 0)
    /\ rrr_rank1 (pf := x86_64) r 2 = Ok (rank1 S1_bits 2)
    /\ (3 <= 31 ->
        rrr_access (pf := x86_64) r 2 = Ok (Z.b2z (bit S1_bits 2))).
Proof.
  assert (Hv : valid_input S1_bits 3 4)
    by (unfold valid_input, wf; cbn; lia).
  eexists. split.
  - split; [exact Hv|]. split; [vm_compute; reflexivity|].
    split; [left; lia|]. split; [cbn; lia | reflexivity].
  - apply (queries_at_aligned_marker (pf := x86_64) S1_bits 3 4 S1_bits _ 2
             Hv);
      [vm_compute; reflexivity | left; lia | cbn; lia | reflexivity].
Defined.

(** X15 ([rrr_select1] before the first marker): for [1 <= j <= rank],
    when the vector is no longer than the marker period or the [j]-th
    1-bit comes before the first marker, [rrr_select1] returns the
    position [p] just after the [j]-th 1-bit of the source: bit [p - 1]
    is set and there are [j] 1-bits before [p].  No relation between [u]
    and [s] is needed. *)
Theorem select1_first_period {pf : Platform} bits u s bits' r j :
  valid_input bits u s ->
  rrr_alloc bits u s = Ok (bits', r) ->
  u <= 63 \/ no_full_block bits u ->
  1 <= j <= rank r ->
  BitVector.size bits <= s \/ j < rank1 bits s ->
  exists p,
    rrr_select1 r j = Ok p
    /\ 1 <= p <= BitVector.size bits
    /\ bit bits (p - 1) = true
    /\ rank1 bits p = j.
Proof.
  intros (Hwf & Hn & Hu & Hs) Halloc Hsmall Hj Hfirst.
  destruct (rrr_alloc_built bits u s Hwf Hn Hu Hs) as (r' & E & Hb).
  rewrite E in Halloc. injection Halloc as _ <-.
  assert (Hfull : no_full_block bits u).
  { destruct Hsmall as [Hu63|Hfull]; [|exact Hfull].
    apply (small_blocks_not_full bits u); assumption. }
  rewrite (Source.b_rank _ _ _ _ Hb) in Hj.
  destruct (rank_select_first bits u s Hwf Hn Hu Hs r' Hb j Hfull Hj Hfirst)
    as (p & E1 & Hp & Hbit & Hrank & _).
  exists p. repeat split; try assumption; lia.
Qed.

Lemma select1_first_period_witness :
  exists r,
    (valid_input S1_bits 3 5
     /\ rrr_alloc (pf := x86_64) S1_bits 3 5 = Ok (S1_bits, r)
     /\ (3 <= 63 \/ no_full_block S1_bits 3)
     /\ 1 <= 2 <= rank r
     /\ (BitVector.size S1_bits <= 5 \/ 2 < rank1 S1_bits 5))
    /\ exists p,
         rrr_select1 (pf := x86_64) r 2 = Ok p
         /\ 1 <= p <= BitVector.size S1_bits
         /\ bit S1_bits (p - 1) = true
         /\ rank1 S1_bits p = 2.
Proof.
  assert (Hv : valid_input S1_bits 3 5)
    by (unfold valid_input, wf; cbn; lia).
  eexists. split.
  - split; [exact Hv|]. split; [vm_compute; reflexivity|].
    split; [left; lia|]. split; [cbn; lia|].
    right. vm_compute. reflexivity.
  - apply (select1_first_period (pf := x86_64) S1_bits 3 5 S1_bits _ 2 Hv);
      [vm_compute; reflexivity | left; lia | cbn; lia
      | right; vm_compute; reflexivity].
Defined.

(** X16 (rank and select before the first marker): under the same
    conditions the queries compose: with [p] the result of [rrr_select1]
    at [j], [rrr_rank1] returns [j] at [p] and [j - 1] at [p - 1], and for
    blocks of at most 31 bits [rrr_access] returns 1 at [p - 1]. *)
Theorem rank_select_first_period {pf : Platform} bits u s bits' r j :
  valid_input bits u s ->
  rrr_alloc bits u s = Ok (bits', r) ->
  u <= 63 \/ no_full_block bits u ->
  1 <= j <= rank r ->
  BitVector.size bits <= s \/ j < rank1 bits s ->
  exists p,
    rrr_select1 r j = Ok p
    /\ rrr_rank1 r p = Ok j
    /\ rrr_rank1 r (p - 1) = Ok (j - 1)
    /\ (u <= 31 -> rrr_access r (p - 1) = Ok 1).
Proof.
  intros (Hwf & Hn & Hu & Hs) Halloc Hsmall Hj Hfirst.
  destruct (rrr_alloc_built bits u s Hwf Hn Hu Hs) as (r' & E & Hb).
  rewrite E in Halloc. injection Halloc as _ <-.
  assert (Hfull : no_full_block bits u).
  { destruct Hsmall as [Hu63|Hfull]; [|exact Hfull].
    apply (small_blocks_not_full bits u); assumption. }
  rewrite (Source.b_rank _ _ _ _ Hb) in Hj.
  destruct (rank_select_first bits u s Hwf Hn Hu Hs r' Hb j Hfull Hj Hfirst)
    as (p & E1 & _ & _ & _ & R1 & R2 & A).
  exists p. split; [exact E1|]. split; [exact R1|]. split; [exact R2|exact A].
Qed.

Lemma rank_select_first_period_witness :
  exists r,
    (valid_input S1_bits 3 5
     /\ rrr_alloc (pf := x86_64) S1_bits 3 5 = Ok (S1_bits, r)
     /\ (3 <= 63 \/ no_full_block S1_bits 3)
     /\ 1 <= 2 <= rank r
     /\ (BitVector.size S1_bits <= 5 \/ 2 < rank1 S1_bits 5))
    /\ exists p,
         rrr_select1 (pf := x86_64) r 2 = Ok p
         /\ rrr_rank1 (pf := x86_64) r p = Ok 2
         /\ rrr_rank1 (pf := x86_64) r (p - 1) = Ok (2 - 1)
         /\ (3 <= 31 -> rrr_access (pf := x86_64) r (p - 1) = Ok 1).
Proof.
  assert (Hv : valid_input S1_bits 3 5)
    by (unfold valid_input, wf; cbn; lia).
  eexists. split.
  - split; [exact Hv|]. split; [vm_compute; reflexivity|].
    split; [left; lia|]. split; [cbn; lia|].
    right. vm_compute. reflexivity.
  - apply (rank_select_first_period (pf := x86_64) S1_bits 3 5 S1_bits _ 2
             Hv);
      [vm_compute; reflexivity | left; lia | cbn; lia
      | right; vm_compute; reflexivity].
Defined.

(** X17 (result of [rrr_find_marker]): for [0 <= j <= rank] the search
    returns; its result is 0, or the index [m] after a marker whose
    boundary [m * s] is inside the vector with fewer than [j] 1-bits
    before it, or an index of [2^63] or more, which no marker has. *)
Theorem find_marker_result {pf : Platform} bits u s bits' r j :
  valid_input bits u s ->
  rrr_alloc bits u s = Ok (bits', r) ->
  0 <= j <= rank r ->
  exists m,
    rrr_find_marker r j = Ok m
    /\ (m = 0
        \/ (1 <= m <= nmarkers r - 1 /\ m * s < BitVector.size bits
            /\ rank1 bits (m * s) < j)
        \/ 2 ^ 63 <= m).
Proof.
  intros (Hwf & Hn & Hu & Hs) Halloc Hj.
  destruct (rrr_alloc_built bits u s Hwf Hn Hu Hs) as (r' & E & Hb).
  rewrite E in Halloc. injection Halloc as _ <-.
  rewrite (Source.b_rank _ _ _ _ Hb) in Hj.
  rewrite (Source.b_nmarkers _ _ _ _ Hb).
  apply (find_marker_sound bits u s Hn Hu Hs r' Hb j Hj).
Qed.

Lemma find_marker_result_witness :
  (valid_input S1_bits 3 3
   /\ rrr_alloc (pf := x86_64) S1_bits 3 3 = Ok (S1_bits, S1_rrr)
   /\ 0 <= 4 <= rank S1_rrr)
  /\ exists m,
       rrr_find_marker S1_rrr 4 = Ok m
       /\ (m = 0
           \/ (1 <= m <= nmarkers S1_rrr - 1
               /\ m * 3 < BitVector.size S1_bits
               /\ rank1 S1_bits (m * 3) < 4)
           \/ 2 ^ 63 <= m).
Proof.
  assert (Hv : valid_input S1_bits 3 3)
    by (unfold valid_input, wf; cbn; lia).
  assert (Ha : rrr_alloc (pf := x86_64) S1_bits 3 3 = Ok (S1_bits, S1_rrr))
    by (vm_compute; reflexivity).
  split.
  - split; [exact Hv|]. split; [exact Ha | cbn; lia].
  - apply (find_marker_result (pf := x86_64) S1_bits 3 3 S1_bits S1_rrr 4
             Hv Ha).
    cbn. lia.
Defined.

(** X18 ([rrr_select1] from a found marker): when the marker period is a
    multiple of the block width, for [1 <= j <= rank], whenever
    [rrr_find_marker] returns an index below [2^63], [rrr_select1] returns
    the position [p] just after the [j]-th 1-bit of the source. *)
Theorem select1_from_found_marker {pf : Platform} bits u s bits' r j m :
  valid_input bits u s ->
  rrr_alloc bits u s = Ok (bits', r) ->
  s mod u = 0 ->
  u <= 63 \/ no_full_block bits u ->
  1 <= j <= rank r ->
  rrr_find_marker r j = Ok m -> m < 2 ^ 63 ->
  exists p,
    rrr_select1 r j = Ok p
    /\ 1 <= p <= BitVector.size bits
    /\ bit bits (p - 1) = true
    /\ rank1 bits p = j.
Proof.
  intros (Hwf & Hn & Hu & Hs) Halloc Hmul Hsmall Hj Hfind Hm.
  destruct (rrr_alloc_built bits u s Hwf Hn Hu Hs) as (r' & E & Hb).
  rewrite E in Halloc. injection Halloc as _ <-.
  assert (Hfull : no_full_block bits u).
  { destruct Hsmall as [Hu63|Hfull]; [|exact Hfull].
    apply (small_blocks_not_full bits u); assumption. }
  rewrite (Source.b_rank _ _ _ _ Hb) in Hj.
  apply (select1_spec bits u s Hwf Hn Hu Hs r' Hb Hmul j m); assumption.
Qed.

Lemma select1_from_found_marker_witness :
  (valid_input S1_bits 3 3
   /\ rrr_alloc (pf := x86_64) S1_bits 3 3 = Ok (S1_bits, S1_rrr)
   /\ 3 mod 3 = 0
   /\ (3 <= 63 \/ no_full_block S1_bits 3)
   /\ 1 <= 4 <= rank S1_rrr
   /\ rrr_find_marker S1_rrr 4 = Ok 2 /\ 2 < 2 ^ 63)
  /\ exists p,
       rrr_select1 (pf := x86_64) S1_rrr 4 = Ok p
       /\ 1 <= p <= BitVector.size S1_bits
       /\ bit S1_bits (p - 1) = true
       /\ rank1 S1_bits p = 4.
Proof.
  assert (Hv : valid_input S1_bits 3 3)
    by (unfold valid_input, wf; cbn; lia).
  assert (Ha : rrr_alloc (pf := x86_64) S1_bits 3 3 = Ok (S1_bits, S1_rrr))
    by (vm_compute; reflexivity).
  assert (Hf : rrr_find_marker S1_rrr 4 = Ok 2) by (vm_compute; reflexivity).
  split.
  - split; [exact Hv|]. split; [exact Ha|]. split; [reflexivity|].
    split; [left; lia|]. split; [cbn; lia|]. split; [exact Hf | lia].
  - apply (select1_from_found_marker (pf := x86_64) S1_bits 3 3 S1_bits
             S1_rrr 4 2 Hv Ha);
      [reflexivity | left; lia | cbn; lia | exact Hf | lia].
Defined.
